(** * kanji-png-gif: the stroke-order animation of [generate.js]

    A shallow embedding of [src/generate.js]: the string preprocessing of an
    SVG file ([preprocessSvg]), the command line ([parseArgs]), the frame
    schedule and per-frame stroke reveal of [generateGif], the recolouring of
    [generatePng], and the outputs and batches of [processFile] and [main].

    Conventions of the embedding.
    - A JS string is a [string]; one [ascii] stands for one code unit.
    - A JS number that the program obtains from [parseInt] is a [number]:
      [NaN] or an integer.  Path lengths and the animation progress are exact
      rationals ([Q]); IEEE rounding is not modelled.
    - The calls into [cheerio], [svg-path-properties], [sharp] and
      [gif-encoder-2] are kept symbolic: the extracted [path] elements are the
      input, [getTotalLength] is a parameter, a rendered frame records the
      scene and the arguments handed to [sharp], and the encoder is the record
      of the calls it received.  The file system and [path.join] are
      parameters of [processFile] and [main]. *)

From Stdlib Require Import ZArith QArith Qround Qminmax Qpower List String Ascii Bool Lia Lqa.
From Stdlib Require PrimFloat FloatOps SpecFloat Uint63.
Import ListNotations.

Local Open Scope Z_scope.

(* ================================================================== *)
(** ** JS strings *)

Module JsString.

Local Open Scope string_scope.

(** [s.startsWith(pat)] *)
Definition startsWith (s pat : string) : bool := String.prefix pat s.

(** The scan of [s.indexOf(pat)], [i] being the index of the head of [s]. *)
Fixpoint indexOfFrom (pat s : string) (i : Z) : Z :=
  if String.prefix pat s then i
  else match s with
       | EmptyString => -1
       | String _ s' => indexOfFrom pat s' (i + 1)
       end.

(** [s.indexOf(pat)]: index of the first occurrence, [-1] when there is
    none. *)
Definition indexOf (s pat : string) : Z := indexOfFrom pat s 0.

(** [s.includes(pat)] *)
Definition includes (s pat : string) : bool := (0 <=? indexOf s pat)%Z.

Fixpoint drop (n : nat) (s : string) : string :=
  match n, s with
  | O, _ => s
  | S _, EmptyString => EmptyString
  | S n', String _ s' => drop n' s'
  end.

(** [s.substring(start)] with one argument; a negative [start] counts as 0
    and one past the end gives the empty string. *)
Definition substring (s : string) (start : Z) : string := drop (Z.to_nat start) s.

(** [s.replace(pat, repl)] with a string pattern: only the first occurrence
    is replaced.  [repl] is taken literally (the one replacement used by the
    program holds no dollar sign). *)
Fixpoint replace (s pat repl : string) : string :=
  if String.prefix pat s then repl ++ drop (String.length pat) s
  else match s with
       | EmptyString => EmptyString
       | String c s' => String c (replace s' pat repl)
       end.

(** [s.toLowerCase()] on the ASCII letters. *)
Definition lowerChar (c : ascii) : ascii :=
  let n := nat_of_ascii c in
  if ((65 <=? n)%nat && (n <=? 90)%nat)%bool then ascii_of_nat (n + 32) else c.

Fixpoint toLowerCase (s : string) : string :=
  match s with
  | EmptyString => EmptyString
  | String c s' => String (lowerChar c) (toLowerCase s')
  end.

(** [s.padStart(n, c)] with a one-character pad string. *)
Fixpoint repeatChar (c : ascii) (n : nat) : string :=
  match n with
  | O => EmptyString
  | S n' => String c (repeatChar c n')
  end.

Definition padStart (s : string) (n : nat) (c : ascii) : string :=
  repeatChar c (n - String.length s) ++ s.

Definition dquote : string := String (ascii_of_nat 34) EmptyString.

Fixpoint take (n : nat) (s : string) : string :=
  match n, s with
  | O, _ => EmptyString
  | S _, EmptyString => EmptyString
  | S n', String c s' => String c (take n' s')
  end.

(** [s.endsWith(suffix)] *)
Definition endsWith (s suffix : string) : bool :=
  let n := String.length s in
  let m := String.length suffix in
  if (m <=? n)%nat then String.eqb (drop (n - m) s) suffix else false.

(** The expansion of a replacement string for a match of a regular
    expression without groups: [$$] is a dollar sign, [$&] the matched text,
    [$`] what precedes the match in the subject and [$'] what follows it;
    any other dollar sign stands for itself. *)
Fixpoint expandReplacement (template matched before after : string) : string :=
  match template with
  | EmptyString => EmptyString
  | String c t =>
      if Ascii.eqb c "$" then
        match t with
        | String k t' =>
            if Ascii.eqb k "$" then
              String "$" (expandReplacement t' matched before after)
            else if Ascii.eqb k "&" then
              matched ++ expandReplacement t' matched before after
            else if Ascii.eqb k "`" then
              before ++ expandReplacement t' matched before after
            else if Ascii.eqb k "'" then
              after ++ expandReplacement t' matched before after
            else String c (expandReplacement t matched before after)
        | EmptyString => String c EmptyString
        end
      else String c (expandReplacement t matched before after)
  end.

(** [s.replace(/pat/g, template)] for a pattern [pat] that is a non-empty
    sequence of literal characters: the matches are the occurrences of [pat]
    found from left to right without overlap.  [before] is the part of the
    subject already passed and [skip] the number of characters of [s] that
    still belong to the last match. *)
Fixpoint replaceAllFrom (pat template before s : string) (skip : nat) : string :=
  match s with
  | EmptyString => EmptyString
  | String c s' =>
      match skip with
      | S k => replaceAllFrom pat template (before ++ String c EmptyString) s' k
      | O =>
          if String.prefix pat s then
            expandReplacement template pat before (drop (String.length pat) s)
              ++ replaceAllFrom pat template (before ++ String c EmptyString) s'
                   (String.length pat - 1)
          else
            String c (replaceAllFrom pat template (before ++ String c EmptyString) s' 0)
      end
  end.

Definition replaceAll (s pat template : string) : string :=
  replaceAllFrom pat template EmptyString s 0.

End JsString.

(* ================================================================== *)
(** ** [preprocessSvg] *)

Definition svgTag : string := "<svg".
Definition kvgAttr : string := "xmlns:kvg".
Definition svgTagWithKvg : string :=
  ("<svg xmlns:kvg=" ++ JsString.dquote ++ "http://kanjivg.tagaini.net"
     ++ JsString.dquote)%string.

Definition preprocessSvg (content : string) : string :=
  (* Remove DOCTYPE/comments before <svg *)
  let svgStart := JsString.indexOf content svgTag in
  let content :=
    if 0 <? svgStart then JsString.substring content svgStart else content in
  (* Inject kvg namespace if missing *)
  let content :=
    if negb (JsString.includes content kvgAttr)
    then JsString.replace content svgTag svgTagWithKvg
    else content in
  content.

(* ================================================================== *)
(** ** JS numbers *)

(** The value of [parseInt]: [NaN] or an integer.  [-0] is identified with
    [0]. *)
Inductive number : Type :=
| NaN
| Num (z : Z).

(** The value of a quotient of two such numbers, kept for [setDelay]; the
    sign of an infinite quotient is not kept. *)
Inductive quotient : Type :=
| QNaN
| QInfinity
| QFin (q : Q).

(** [a / b] for an integer [a] different from 0. *)
Definition divide (a : Z) (b : number) : quotient :=
  match b with
  | NaN => QNaN
  | Num 0 => QInfinity
  | Num f => QFin (inject_Z a / inject_Z f)
  end.

(** JS truthiness of a value that is [null]/[undefined] ([None]) or a
    number. *)
Definition truthyNum (v : option number) : bool :=
  match v with
  | Some (Num z) => negb (z =? 0)
  | _ => false
  end.

(** JS truthiness of a value that is [null]/[undefined] ([None]) or a
    string. *)
Definition truthyStr (v : option string) : bool :=
  match v with
  | Some s => negb (String.eqb s EmptyString)
  | None => false
  end.

Module ParseInt.

Local Open Scope string_scope.
Local Open Scope Z_scope.

Definition isWhiteSpace (c : ascii) : bool :=
  let n := nat_of_ascii c in
  existsb (Nat.eqb n) [9; 10; 11; 12; 13; 32; 160]%nat.

Fixpoint trimStart (s : string) : string :=
  match s with
  | EmptyString => EmptyString
  | String c s' => if isWhiteSpace c then trimStart s' else s
  end.

Definition digitValue (c : ascii) : option Z :=
  let n := Z.of_nat (nat_of_ascii c) in
  if (48 <=? n) && (n <=? 57) then Some (n - 48)
  else if (97 <=? n) && (n <=? 122) then Some (n - 97 + 10)
  else if (65 <=? n) && (n <=? 90) then Some (n - 65 + 10)
  else None.

(** Value of the longest prefix of [s] made of digits of the radix; [acc] is
    [None] as long as no digit was read. *)
Fixpoint digits (radix : Z) (s : string) (acc : option Z) : option Z :=
  match s with
  | EmptyString => acc
  | String c s' =>
      match digitValue c with
      | Some v =>
          if v <? radix
          then digits radix s' (Some (radix * match acc with Some a => a | None => 0 end + v))
          else acc
      | None => acc
      end
  end.

(** [parseInt(s)] without a radix argument.  The value is the integer that
    is read; JS has the nearest double, which is that integer up to
    [2^53]. *)
Definition parseInt (s : string) : number :=
  let s := trimStart s in
  let '(sign, s) :=
    match s with
    | String "-" r => (-1, r)
    | String "+" r => (1, r)
    | _ => (1, s)
    end in
  let '(radix, s) :=
    if String.prefix "0x" s || String.prefix "0X" s
    then (16, JsString.drop 2 s) else (10, s) in
  match digits radix s None with
  | None => NaN
  | Some m => Num (sign * m)
  end.

(** [n.toString(16)] for a natural number. *)
Definition hexDigit (n : Z) : ascii :=
  if n <? 10 then ascii_of_nat (Z.to_nat (48 + n))
  else ascii_of_nat (Z.to_nat (97 + n - 10)).

Fixpoint toHexFuel (fuel : nat) (n : Z) (acc : string) : string :=
  match fuel with
  | O => acc
  | S fuel' =>
      let acc := String (hexDigit (n mod 16)) acc in
      if n / 16 =? 0 then acc else toHexFuel fuel' (n / 16) acc
  end.

Definition toString16 (n : Z) : string := toHexFuel (S (Z.to_nat n)) n EmptyString.

End ParseInt.

(* ================================================================== *)
(** ** [parseArgs] *)

(** [config.mode]: ['default'] or ['custom']. *)
Inductive runMode : Type := ModeDefault | ModeCustom.

Record config : Type := mkConfig {
  help : bool;
  file : option string;
  mode : runMode;
  format : option string;
  width : option number;
  height : option number;
  outDir : option string;
  bg : option string;
  color : option string;
  guide : option string;
  duration : number;
  fps : number;
  timing : string;
  strokeDuration : Z
}.

Definition initialConfig : config :=
  {| help := false;
     file := None;
     mode := ModeDefault;
     format := None;
     width := None;
     height := None;
     outDir := None;
     bg := Some "white"%string;
     color := Some "#000000"%string;
     guide := Some "#dddddd"%string;
     duration := Num 2000;
     fps := Num 20;
     timing := "fixed"%string;
     strokeDuration := 200 |}.

(** What a call of [parseArgs] ends in: the configuration, [process.exit(1)]
    after a message on stderr, or the [TypeError] of calling a method on
    [undefined]. *)
Inductive parsed : Type :=
| Config (c : config)
| Exit1 (message : string)
| TypeError.

(** How the [for] loop of [parseArgs] is left: at its end, by the early
    [return config] of [--help], by [process.exit(1)] or by an exception. *)
Inductive loopResult : Type :=
| Completed (c : config)
| Returned (c : config)
| Exited (message : string)
| Threw.

(** [args[++i]]: the next argument, [undefined] past the end. *)
Definition nextArg (rest : list string) : option string :=
  match rest with
  | [] => None
  | v :: _ => Some v
  end.

(** The arguments left once [++i] and the loop's [i++] are done. *)
Definition afterNext (rest : list string) : list string :=
  match rest with
  | [] => rest
  | _ :: m => m
  end.

(** The guard [!val || val.startsWith('-')]: the value when the guard lets it
    through. *)
Definition requiredValue (val : option string) : option string :=
  match val with
  | None => None
  | Some v =>
      if String.eqb v EmptyString || JsString.startsWith v "-" then None
      else Some v
  end.

Definition setMode (c : config) (m : runMode) : config :=
  mkConfig (help c) (file c) m (format c) (width c) (height c) (outDir c)
           (bg c) (color c) (guide c) (duration c) (fps c) (timing c)
           (strokeDuration c).
Definition setHelp (c : config) (b : bool) : config :=
  mkConfig b (file c) (mode c) (format c) (width c) (height c) (outDir c)
           (bg c) (color c) (guide c) (duration c) (fps c) (timing c)
           (strokeDuration c).
Definition setFile (c : config) (v : option string) : config :=
  mkConfig (help c) v (mode c) (format c) (width c) (height c) (outDir c)
           (bg c) (color c) (guide c) (duration c) (fps c) (timing c)
           (strokeDuration c).
Definition setFormat (c : config) (v : option string) : config :=
  mkConfig (help c) (file c) (mode c) v (width c) (height c) (outDir c)
           (bg c) (color c) (guide c) (duration c) (fps c) (timing c)
           (strokeDuration c).
Definition setWidth (c : config) (v : option number) : config :=
  mkConfig (help c) (file c) (mode c) (format c) v (height c) (outDir c)
           (bg c) (color c) (guide c) (duration c) (fps c) (timing c)
           (strokeDuration c).
Definition setHeight (c : config) (v : option number) : config :=
  mkConfig (help c) (file c) (mode c) (format c) (width c) v (outDir c)
           (bg c) (color c) (guide c) (duration c) (fps c) (timing c)
           (strokeDuration c).
Definition setOutDir (c : config) (v : option string) : config :=
  mkConfig (help c) (file c) (mode c) (format c) (width c) (height c) v
           (bg c) (color c) (guide c) (duration c) (fps c) (timing c)
           (strokeDuration c).
Definition setBg (c : config) (v : option string) : config :=
  mkConfig (help c) (file c) (mode c) (format c) (width c) (height c) (outDir c)
           v (color c) (guide c) (duration c) (fps c) (timing c)
           (strokeDuration c).
Definition setColor (c : config) (v : option string) : config :=
  mkConfig (help c) (file c) (mode c) (format c) (width c) (height c) (outDir c)
           (bg c) v (guide c) (duration c) (fps c) (timing c)
           (strokeDuration c).
Definition setGuide (c : config) (v : option string) : config :=
  mkConfig (help c) (file c) (mode c) (format c) (width c) (height c) (outDir c)
           (bg c) (color c) v (duration c) (fps c) (timing c)
           (strokeDuration c).
Definition setDuration (c : config) (v : number) : config :=
  mkConfig (help c) (file c) (mode c) (format c) (width c) (height c) (outDir c)
           (bg c) (color c) (guide c) v (fps c) (timing c)
           (strokeDuration c).
Definition setFps (c : config) (v : number) : config :=
  mkConfig (help c) (file c) (mode c) (format c) (width c) (height c) (outDir c)
           (bg c) (color c) (guide c) (duration c) v (timing c)
           (strokeDuration c).
Definition setTiming (c : config) (v : string) : config :=
  mkConfig (help c) (file c) (mode c) (format c) (width c) (height c) (outDir c)
           (bg c) (color c) (guide c) (duration c) (fps c) v
           (strokeDuration c).

Definition custom (c : config) : config := setMode c ModeCustom.

(** ** The first code point of an argument *)

(** A string holds the bytes of the UTF-8 text of an argument, which Node
    decodes on the way in.  [codePointAt0 val] is [val.codePointAt(0)] for a
    [val] that is not empty: the first code point of the text, and U+FFFD
    where the bytes are not well formed. *)
Module Utf8.

Definition byte (c : ascii) : Z := Z.of_nat (nat_of_ascii c).

Definition inRange (lo hi : Z) (c : ascii) : bool :=
  (lo <=? byte c) && (byte c <=? hi).

(** A continuation byte, [10xxxxxx], and its six bits. *)
Definition isCont (c : ascii) : bool := inRange 128 191 c.

Definition contBits (c : ascii) : Z := Z.land (byte c) 63.

Definition replacement : Z := 65533.

Definition codePointAt0 (s : string) : Z :=
  match s with
  | EmptyString => replacement
  | String c0 r =>
      let b0 := byte c0 in
      if b0 <? 128 then b0
      else if (194 <=? b0) && (b0 <=? 223) then
        match r with
        | String c1 _ =>
            if isCont c1
            then Z.lor (Z.shiftl (Z.land b0 31) 6) (contBits c1)
            else replacement
        | EmptyString => replacement
        end
      else if (224 <=? b0) && (b0 <=? 239) then
        match r with
        | String c1 (String c2 _) =>
            let lo := if b0 =? 224 then 160 else 128 in
            let hi := if b0 =? 237 then 159 else 191 in
            if inRange lo hi c1 && isCont c2
            then Z.lor (Z.shiftl (Z.land b0 15) 12)
                   (Z.lor (Z.shiftl (contBits c1) 6) (contBits c2))
            else replacement
        | _ => replacement
        end
      else if (240 <=? b0) && (b0 <=? 244) then
        match r with
        | String c1 (String c2 (String c3 _)) =>
            let lo := if b0 =? 240 then 144 else 128 in
            let hi := if b0 =? 244 then 143 else 191 in
            if inRange lo hi c1 && isCont c2 && isCont c3
            then Z.lor (Z.shiftl (Z.land b0 7) 18)
                   (Z.lor (Z.shiftl (contBits c1) 12)
                      (Z.lor (Z.shiftl (contBits c2) 6) (contBits c3)))
            else replacement
        | _ => replacement
        end
      else replacement
  end.

End Utf8.

Local Open Scope string_scope.

(** The [for] loop of [parseArgs] over the arguments that are left. *)
Fixpoint parseLoop (args : list string) (c : config) : loopResult :=
  match args with
  | [] => Completed c
  | arg :: rest =>
      let val := nextArg rest in
      let next := afterNext rest in
      if String.eqb arg "--help" || String.eqb arg "-h" then
        Returned (setHelp c true) (* Early exit *)
      else if String.eqb arg "--file" then
        parseLoop next (setFile c val)
      else if String.eqb arg "--format" then
        match val with
        | None => Threw
        | Some v => parseLoop next (custom (setFormat c (Some (JsString.toLowerCase v))))
        end
      else if String.eqb arg "--width" then
        match requiredValue val with
        | None => Exited "Error: --width requires a value"
        | Some v => parseLoop next (custom (setWidth c (Some (ParseInt.parseInt v))))
        end
      else if String.eqb arg "--height" then
        match requiredValue val with
        | None => Exited "Error: --height requires a value"
        | Some v => parseLoop next (custom (setHeight c (Some (ParseInt.parseInt v))))
        end
      else if String.eqb arg "--out" then
        parseLoop next (custom (setOutDir c val))
      else if String.eqb arg "--bg" then
        parseLoop next (custom (setBg c val))
      else if String.eqb arg "--color" then
        parseLoop next (custom (setColor c val))
      else if String.eqb arg "--guide" then
        parseLoop next (custom (setGuide c val))
      else if String.eqb arg "--duration" then
        match requiredValue val with
        | None => Exited "Error: --duration requires a value"
        | Some v => parseLoop next (custom (setDuration c (ParseInt.parseInt v)))
        end
      else if String.eqb arg "--fps" then
        match requiredValue val with
        | None => Exited "Error: --fps requires a value"
        | Some v => parseLoop next (custom (setFps c (ParseInt.parseInt v)))
        end
      else if String.eqb arg "--timing" then
        match val with
        | None => Threw
        | Some v => parseLoop next (custom (setTiming c (JsString.toLowerCase v)))
        end
      else if String.eqb arg "--kanji" || String.eqb arg "-k" then
        match requiredValue val with
        | None => Exited "Error: --kanji requires a character"
        | Some (String ch tl) =>
            (* Convert char to hex code *)
            let code := JsString.toLowerCase
                          (ParseInt.toString16 (Utf8.codePointAt0 (String ch tl))) in
            let hex := JsString.padStart code 5 "0" in
            parseLoop next (setFile c (Some (hex ++ ".svg")))
        | Some EmptyString => Threw
        end
      else parseLoop rest c
  end.

(** [parseArgs()], on [process.argv.slice(2)]; [defaultOutDir] stands for
    [path.join(process.cwd(), 'kanji_custom')]. *)
Definition parseArgs (defaultOutDir : string) (args : list string) : parsed :=
  match parseLoop args initialConfig with
  | Returned c => Config c
  | Exited m => Exit1 m
  | Threw => TypeError
  | Completed c =>
      (* Default Height if Width is set but Height is not *)
      let c := if truthyNum (width c) && negb (truthyNum (height c))
               then setHeight c (width c) else c in
      (* Default Width if Height is set but Width is not *)
      let c := if truthyNum (height c) && negb (truthyNum (width c))
               then setWidth c (height c) else c in
      (* Default output dir for custom mode *)
      let c := match mode c with
               | ModeCustom =>
                   if negb (truthyStr (outDir c))
                   then setOutDir c (Some defaultOutDir) else c
               | ModeDefault => c
               end in
      Config c
  end.

Local Close Scope string_scope.

(* ================================================================== *)
(** ** [generateGif] *)

(** A [<path>] element as [cheerio] hands it over: its [d] and [id]
    attributes, [None] for an attribute that is absent. *)
Record element : Type := mkElement {
  attr_d : option string;
  attr_id : option string
}.

(** An entry of [paths]. *)
Record path : Type := mkPath {
  d : string;
  id : option string
}.

(** An entry of [pathProps]: the path with its length. *)
Record pathProp : Type := mkPathProp {
  p_d : string;
  p_id : option string;
  p_length : Q
}.

(** The [options] argument of [generateGif]. *)
Record options : Type := mkOptions {
  o_duration : number;
  o_fps : number;
  o_timing : string;
  o_bg : option string;
  o_color : option string;
  o_guide : option string
}.

(** A [<path>] of the active layer: drawn whole, or with
    [stroke-dasharray="partLength length"]. *)
Inductive strokeEl : Type :=
| FullPath (d : string)
| DashPath (d : string) (partLength : Q) (length : Q).

(** [frameSvg]: the guide layer when it is shown (its colour and the [d] of
    every path) and the active layer (its colour and its paths). *)
Record frameSvg : Type := mkFrameSvg {
  guideLayer : option (string * list string);
  strokeColor : string;
  activeLayer : list strokeEl
}.

(** What [sharp] is asked for one frame: the scene, the size of the
    [resize] and the background of [flatten] when it is called. *)
Record rendered : Type := mkRendered {
  scene : frameSvg;
  r_width : Z;
  r_height : Z;
  flatten : option (option string)
}.

(** The calls received by the [GIFEncoder]; its stream is piped into
    [outputPath]. *)
Record encoder : Type := mkEncoder {
  e_width : Z;
  e_height : Z;
  e_outputPath : string;
  e_repeat : Z;
  e_delay : quotient;
  e_quality : Z;
  e_frames : list rendered;
  e_finished : bool
}.

Definition Qltb (x y : Q) : bool := negb (Qle_bool y x).

(** [$('path').each(...)]: the paths whose [d] is truthy. *)
Fixpoint extractPaths (els : list element) : list path :=
  match els with
  | [] => []
  | el :: rest =>
      match attr_d el with
      | Some dv =>
          if negb (String.eqb dv EmptyString)
          then mkPath dv (attr_id el) :: extractPaths rest
          else extractPaths rest
      | None => extractPaths rest
      end
  end.

(** [pathProps.reduce((sum, p) => sum + p.length, 0)] *)
Definition totalLengthOf (pathProps : list pathProp) : Q :=
  fold_left (fun sum p => sum + p_length p)%Q pathProps 0%Q.

(** [animationDuration] *)
Definition animationDurationOf (opts : options) (pathProps : list pathProp) : number :=
  if String.eqb (o_timing opts) "relative" then
    let timePerStroke := 200 in
    let baseTime := 500 in
    Num (baseTime + Z.of_nat (List.length pathProps) * timePerStroke)
  else o_duration opts.

(** [Math.ceil((animationDuration / 1000) * fps)], the quotient and the
    product taken exactly.  The code takes both in doubles, which can give one
    frame more: that count is [totalFrames64]. *)
Definition totalFramesOf (animationDuration fps : number) : number :=
  match animationDuration, fps with
  | Num a, Num f => Num (Qceiling ((inject_Z a / 1000) * inject_Z f))
  | _, _ => NaN
  end.

(** The value of [currentTotalProgress] for a frame, the quotient and the
    product taken exactly; [currentTotalProgress64] is the value in the
    doubles of the code.  Where [totalFrames] is 0 the quotient is [NaN] or
    [Infinity] in JS and 0 here; the frame is then at least [totalFrames] and
    the value is overwritten. *)
Definition currentTotalProgress (frame totalFrames : Z) (totalLength : Q) : Q :=
  let currentTotalProgress := ((inject_Z frame / inject_Z totalFrames) * totalLength)%Q in
  if totalFrames <=? frame then totalLength else currentTotalProgress.

(** The loop over [pathProps] that fills the active layer, from the value
    [drawnLength] has when the loop reaches the paths that are left.  The
    sums and the difference are exact here; [activeStrokes64] is the loop
    with each of them rounded to a double, as the code has them. *)
Fixpoint activeStrokes (pathProps : list pathProp) (drawnLength progress : Q)
  : list strokeEl :=
  match pathProps with
  | [] => []
  | p :: rest =>
      if Qle_bool (drawnLength + p_length p) progress then
        FullPath (p_d p) :: activeStrokes rest (drawnLength + p_length p)%Q progress
      else if Qltb drawnLength progress then
        let partLength := (progress - drawnLength)%Q in
        [DashPath (p_d p) partLength (p_length p)]
      else []
  end.

(** [options.x || dflt] *)
Definition orDefault (v : option string) (dflt : string) : string :=
  if truthyStr v then match v with Some s => s | None => dflt end else dflt.

(** [options.x !== s] *)
Definition differsFrom (v : option string) (s : string) : bool :=
  match v with
  | Some s' => negb (String.eqb s' s)
  | None => true
  end.

(** The indices the frame loop runs through:
    [for (frame = 0; frame < totalFrames + endPauseFrames; frame++)]. *)
Definition frameIndices (totalFrames endPauseFrames : number) : list Z :=
  match totalFrames, endPauseFrames with
  | Num t, Num e => map Z.of_nat (seq 0 (Z.to_nat (t + e)))
  | _, _ => []
  end.

(** The scene of one frame. *)
Definition buildFrameSvg (opts : options) (paths : list path)
    (pathProps : list pathProp) (totalFrames : Z) (totalLength : Q) (frame : Z)
  : frameSvg :=
  let strokeColor := orDefault (o_color opts) "#000000" in
  let guideColor := orDefault (o_guide opts) "#dddddd" in
  let showGuide := differsFrom (o_guide opts) "none" in
  let progress := currentTotalProgress frame totalFrames totalLength in
  {| guideLayer := if showGuide then Some (guideColor, map d paths) else None;
     strokeColor := strokeColor;
     activeLayer := activeStrokes pathProps 0%Q progress |}.

(** The body of the frame loop: the scene and its rendering request. *)
Definition renderFrame (opts : options) (width height : Z) (paths : list path)
    (pathProps : list pathProp) (totalFrames : Z) (totalLength : Q) (frame : Z)
  : rendered :=
  {| scene := buildFrameSvg opts paths pathProps totalFrames totalLength frame;
     r_width := width;
     r_height := height;
     flatten := if differsFrom (o_bg opts) "transparent"
                then Some (o_bg opts) else None |}.

Section GenerateGif.

(** [new svgPathProperties(d).getTotalLength()] *)
Variable getTotalLength : string -> Q.

Definition measurePaths (paths : list path) : list pathProp :=
  map (fun p => mkPathProp (d p) (id p) (getTotalLength (d p))) paths.

(** [generateGif], for a run in which no call throws; [None] is the
    [return] taken before the encoder and the output file exist.  An
    exception of [svgPathProperties] (before the encoder exists) or of
    [sharp] (inside the frame loop, before [finish]) ends the function
    without a result and is not part of this function: see [callsMade]. *)
Definition generateGif (svgContent : list element) (outputPath : string)
    (width height : Z) (opts : options) : option encoder :=
  let paths := extractPaths svgContent in
  if (List.length paths =? 0)%nat then None
  else
    (* Calculate lengths *)
    let pathProps := measurePaths paths in
    let totalLength := totalLengthOf pathProps in
    (* Determine Duration *)
    let animationDuration := animationDurationOf opts pathProps in
    let fps := o_fps opts in
    let totalFrames := totalFramesOf animationDuration fps in
    (* Hold final state for 1 second (fps frames) *)
    let endPauseFrames := fps in
    let frames :=
      match totalFrames with
      | Num t =>
          map (renderFrame opts width height paths pathProps t totalLength)
              (frameIndices totalFrames endPauseFrames)
      | NaN => []
      end in
    Some {| e_width := width;
            e_height := height;
            e_outputPath := outputPath;
            e_repeat := 0;
            e_delay := divide 1000 fps;
            e_quality := 10;
            e_frames := frames;
            e_finished := true |}.

End GenerateGif.

(** [config.width || dflt] *)
Definition numOrDefault (v : option number) (dflt : Z) : Z :=
  match v with
  | Some (Num z) => if z =? 0 then dflt else z
  | _ => dflt
  end.

(** What [processFile] writes as an animation. *)
Inductive gifJob : Type :=
| NoGif
| GifCall (result : option encoder).

(** The animation part of [processFile]: the call of [generateGif] the
    configuration leads to, if any.  [outFile] stands for the joined output
    path. *)
Definition processFileGif (getTotalLength : string -> Q)
    (content : list element) (outFile : string) (c : config) : gifJob :=
  match mode c with
  | ModeCustom =>
      match format c with
      | Some f =>
          if String.eqb f "gif" then
            let width := numOrDefault (width c) 200 in
            let height := numOrDefault (height c) 200 in
            GifCall (generateGif getTotalLength content outFile width height
                       {| o_duration := duration c;
                          o_fps := fps c;
                          o_timing := timing c;
                          o_bg := bg c;
                          o_color := color c;
                          o_guide := guide c |})
          else NoGif
      | None => NoGif
      end
  | ModeDefault =>
      (* 3. Animated GIF (standard settings) *)
      GifCall (generateGif getTotalLength content outFile 200 200
                 {| o_duration := Num 2000;
                    o_fps := Num 20;
                    o_timing := "fixed";
                    o_bg := Some "white"%string;
                    o_color := Some "#000000"%string;
                    o_guide := Some "#dddddd"%string |})
  end.

(* ================================================================== *)
(** ** Notions used to state the properties *)

(** [drawnLength] after the paths [ps], started from [acc]. *)
Definition sumFrom (acc : Q) (ps : list pathProp) : Q :=
  fold_left (fun sum p => sum + p_length p)%Q ps acc.


Definition lengthsNonNegative (pathProps : list pathProp) : Prop :=
  Forall (fun p => 0 <= p_length p)%Q pathProps.

Definition fullPathOf (p : pathProp) : strokeEl := FullPath (p_d p).

(** How stroke [k] appears in an active layer. *)
Inductive strokeState : Type :=
| Undrawn
| Partial (fraction : Q)
| FullyDrawn.

Definition strokeStateAt (active : list strokeEl) (k : nat) : strokeState :=
  match nth_error active k with
  | None => Undrawn
  | Some (FullPath _) => FullyDrawn
  | Some (DashPath _ partLength len) => Partial (partLength / len)
  end.

(** The part of stroke [k] that is visible, as a fraction of its length. *)
Definition revealedFraction (active : list strokeEl) (k : nat) : Q :=
  match strokeStateAt active k with
  | Undrawn => 0
  | Partial f => f
  | FullyDrawn => 1
  end.

(** An active layer that draws the strokes in their order: the first [k]
    strokes whole, then nothing, or stroke [k] alone with a dash array. *)
Definition revealsInOrder (strokes : list pathProp) (active : list strokeEl) : Prop :=
  exists k : nat,
    active = map fullPathOf (firstn k strokes)
    \/ exists p partLength,
         nth_error strokes k = Some p
         /\ active = map fullPathOf (firstn k strokes)
                       ++ [DashPath (p_d p) partLength (p_length p)].


(** A three-stroke glyph with strokes of length 10, 20 and 5, and a length
    function that measures its paths. *)
Definition sampleSvg : list element :=
  [ mkElement (Some "M0,0h10"%string) (Some "s1"%string);
    mkElement (Some "M10,0v20"%string) (Some "s2"%string);
    mkElement (Some "M10,20h5"%string) (Some "s3"%string) ].

Definition sampleLength (dv : string) : Q :=
  if String.eqb dv "M0,0h10" then 10
  else if String.eqb dv "M10,0v20" then 20
  else if String.eqb dv "M10,20h5" then 5
  else 0.

Definition sampleStrokes : list pathProp :=
  measurePaths sampleLength (extractPaths sampleSvg).

Definition defaultOptions : options :=
  {| o_duration := Num 2000;
     o_fps := Num 20;
     o_timing := "fixed";
     o_bg := Some "white"%string;
     o_color := Some "#000000"%string;
     o_guide := Some "#dddddd"%string |}.

(** What the encoder receives for the sample glyph under the default
    options: 40 frames of animation and 20 of hold. *)
Definition sampleEncoder : encoder :=
  {| e_width := 200;
     e_height := 200;
     e_outputPath := "out.gif";
     e_repeat := 0;
     e_delay := QFin (1000 / 20);
     e_quality := 10;
     e_frames :=
       map (renderFrame defaultOptions 200 200 (extractPaths sampleSvg)
              sampleStrokes 40 (totalLengthOf sampleStrokes))
           (frameIndices (Num 40) (Num 20));
     e_finished := true |}.

Definition sampleFrame (frame : Z) : rendered :=
  renderFrame defaultOptions 200 200 (extractPaths sampleSvg) sampleStrokes 40
    (totalLengthOf sampleStrokes) frame.

(* ================================================================== *)
(** ** The loop body of [parseArgs] *)

(** What one turn of the loop of [parseArgs] does with the argument [arg],
    [val] being [args[++i]]: it goes on with the next argument, goes on after
    the value it has read, or leaves the loop. *)
Inductive stepResult : Type :=
| Skip (c : config)
| Consume (c : config)
| Stop (r : loopResult).

Local Open Scope string_scope.

Definition parseStep (arg : string) (val : option string) (c : config) : stepResult :=
  if String.eqb arg "--help" || String.eqb arg "-h" then
    Stop (Returned (setHelp c true))
  else if String.eqb arg "--file" then
    Consume (setFile c val)
  else if String.eqb arg "--format" then
    match val with
    | None => Stop Threw
    | Some v => Consume (custom (setFormat c (Some (JsString.toLowerCase v))))
    end
  else if String.eqb arg "--width" then
    match requiredValue val with
    | None => Stop (Exited "Error: --width requires a value")
    | Some v => Consume (custom (setWidth c (Some (ParseInt.parseInt v))))
    end
  else if String.eqb arg "--height" then
    match requiredValue val with
    | None => Stop (Exited "Error: --height requires a value")
    | Some v => Consume (custom (setHeight c (Some (ParseInt.parseInt v))))
    end
  else if String.eqb arg "--out" then
    Consume (custom (setOutDir c val))
  else if String.eqb arg "--bg" then
    Consume (custom (setBg c val))
  else if String.eqb arg "--color" then
    Consume (custom (setColor c val))
  else if String.eqb arg "--guide" then
    Consume (custom (setGuide c val))
  else if String.eqb arg "--duration" then
    match requiredValue val with
    | None => Stop (Exited "Error: --duration requires a value")
    | Some v => Consume (custom (setDuration c (ParseInt.parseInt v)))
    end
  else if String.eqb arg "--fps" then
    match requiredValue val with
    | None => Stop (Exited "Error: --fps requires a value")
    | Some v => Consume (custom (setFps c (ParseInt.parseInt v)))
    end
  else if String.eqb arg "--timing" then
    match val with
    | None => Stop Threw
    | Some v => Consume (custom (setTiming c (JsString.toLowerCase v)))
    end
  else if String.eqb arg "--kanji" || String.eqb arg "-k" then
    match requiredValue val with
    | None => Stop (Exited "Error: --kanji requires a character")
    | Some (String ch tl) =>
        let code := JsString.toLowerCase
                      (ParseInt.toString16 (Utf8.codePointAt0 (String ch tl))) in
        let hex := JsString.padStart code 5 "0" in
        Consume (setFile c (Some (hex ++ ".svg")))
    | Some EmptyString => Stop Threw
    end
  else Skip c.

Local Close Scope string_scope.

(* ================================================================== *)
(** ** [generatePng] *)

(** The [background] given to [sharp]: [{ r: 0, g: 0, b: 0, alpha: 0 }] or
    a colour, which may be [undefined]. *)
Inductive background : Type :=
| Transparent
| Colour (c : option string).

(** [bg === 'transparent' ? { r: 0, g: 0, b: 0, alpha: 0 } : bg] *)
Definition sharpBackground (bg : option string) : background :=
  if differsFrom bg "transparent" then Colour bg else Transparent.

(** What [sharp] is asked by [generatePng]: the buffer, the [resize] and the
    file the PNG goes to. *)
Record pngJob : Type := mkPngJob {
  png_buffer : string;
  png_width : Z;
  png_height : Z;
  png_fit : string;
  png_background : background;
  png_outputPath : string
}.

Definition blackStroke : string := "stroke:#000000".

Definition generatePng (svgBuffer outputPath : string) (width height : Z)
    (fit : string) (bgnd : background) (color guide : option string) : pngJob :=
  let bufferToUse :=
    match color with
    | Some col =>
        if truthyStr color && differsFrom color "#000000"
        then JsString.replaceAll svgBuffer blackStroke ("stroke:" ++ col)%string
        else svgBuffer
    | None => svgBuffer
    end in
  {| png_buffer := bufferToUse;
     png_width := width;
     png_height := height;
     png_fit := fit;
     png_background := bgnd;
     png_outputPath := outputPath |}.

(* ================================================================== *)
(** ** [processFile] and [main] *)

(** The Open Graph image: the glyph resized to a height of 500 and
    composited at the centre of a white canvas of 1200 by 630. *)
Record ogJob : Type := mkOgJob {
  og_buffer : string;
  og_outputPath : string
}.

Inductive output : Type :=
| PngOutput (job : pngJob)
| OgOutput (job : ogJob)
| GifOutput (outputPath : string) (result : option encoder).

(** [files.slice(i, j)] *)
Definition slice (files : list string) (i j : nat) : list string :=
  firstn (j - i) (skipn i files).

Definition batchSize : nat := 20.

(** The batch loop of [main]:
    [for (let i = 0; i < files.length; i += batchSize)].  Each turn gives
    the batch and the progress it logs, [(done, total)], which is only logged
    for more than 20 files.  [None] when the fuel runs out. *)
Fixpoint batchLoop (fuel i : nat) (files : list string)
  : option (list (list string * option (nat * nat))) :=
  if (i <? List.length files)%nat then
    match fuel with
    | O => None
    | S fuel' =>
        let batch := slice files i (i + batchSize) in
        let log :=
          if (20 <? List.length files)%nat
          then Some (Nat.min (i + batchSize) (List.length files), List.length files)
          else None in
        match batchLoop fuel' (i + batchSize) files with
        | Some more => Some ((batch, log) :: more)
        | None => None
        end
    end
  else Some [].

Section Program.

(** The environment of a run: [path.join] on two segments, the directories,
    the working directory, the file system as [fs.existsSync],
    [fs.readdirSync(inputDir)] and [fs.readFileSync] see it ([None] for a read
    that throws), the [<path>] elements [cheerio] finds in a content, and
    [getTotalLength]. *)
Variable join : string -> string -> string.
Variables inputDir outputDirSquare outputDirOg outputDirGif cwd : string.
Variable existsSync : string -> bool.
Variable readdirSync : list string.
Variable readFileSync : string -> option string.
Variable cheerioPaths : string -> list element.
Variable getTotalLength : string -> Q.

(** [processFile(file, config)]: the outputs it asks for, in order, in a
    run in which no call throws; [None] when the input cannot be read or, in
    custom mode, there is no output directory.  A call that throws ends the
    run in the [catch]: the calls that are made up to it are given by
    [callsMade].  The directories that are created on the way are not
    recorded. *)
Definition processFile (file : string) (c : config) : option (list output) :=
  let inputPath := join inputDir file in
  match readFileSync inputPath with
  | None => None
  | Some content =>
      let content := preprocessSvg content in
      let svgBuffer := content in
      match mode c with
      | ModeCustom =>
          match outDir c with
          | None => None
          | Some outDir =>
              let basename := JsString.replace file ".svg" EmptyString in
              match format c with
              | Some fmt =>
                  if String.eqb fmt "png" then
                    let width := numOrDefault (width c) 1024 in
                    let height := numOrDefault (height c) 1024 in
                    let outFile := join outDir (basename ++ ".png")%string in
                    let bg := sharpBackground (bg c) in
                    Some [PngOutput (generatePng svgBuffer outFile width height
                                       "contain" bg (color c) (guide c))]
                  else if String.eqb fmt "gif" then
                    let width := numOrDefault (width c) 200 in
                    let height := numOrDefault (height c) 200 in
                    let outFile := join outDir (basename ++ ".gif")%string in
                    Some [GifOutput outFile
                            (generateGif getTotalLength (cheerioPaths content)
                               outFile width height
                               {| o_duration := duration c;
                                  o_fps := fps c;
                                  o_timing := timing c;
                                  o_bg := bg c;
                                  o_color := color c;
                                  o_guide := guide c |})]
                  else Some []
              | None => Some []
              end
          end
      | ModeDefault =>
          (* 1. Square PNG *)
          let sqPath := join outputDirSquare (JsString.replace file ".svg" ".png") in
          let square := generatePng svgBuffer sqPath 1024 1024 "contain" Transparent
                          (Some "#000000"%string) (Some "none"%string) in
          (* 2. OG Image *)
          let ogPath := join outputDirOg (JsString.replace file ".svg" ".png") in
          let og := {| og_buffer := svgBuffer; og_outputPath := ogPath |} in
          (* 3. Animated GIF (standard settings) *)
          let gifPath := join outputDirGif (JsString.replace file ".svg" ".gif") in
          Some [PngOutput square;
                OgOutput og;
                GifOutput gifPath
                  (generateGif getTotalLength (cheerioPaths content) gifPath 200 200
                     {| o_duration := Num 2000;
                        o_fps := Num 20;
                        o_timing := "fixed";
                        o_bg := Some "white"%string;
                        o_color := Some "#000000"%string;
                        o_guide := Some "#dddddd"%string |})]
      end
  end.

(** The files [main] settles on: the one named by [config.file], as it is,
    with [.svg] appended or padded to five characters, or every [.svg] file of
    the input directory; [None] when the named file is not found.  The
    update of [config.file] is not recorded: [processFile] does not read
    it. *)
Definition selectFiles (c : config) : option (list string) :=
  match file c with
  | Some f =>
      if truthyStr (file c) then
        let filePath := join inputDir f in
        if existsSync filePath then Some [f]
        else if existsSync (filePath ++ ".svg")%string then Some [(f ++ ".svg")%string]
        else
          let padded := (JsString.padStart f 5 "0" ++ ".svg")%string in
          if existsSync (join inputDir padded) then Some [padded] else None
      else Some (filter (fun file => JsString.endsWith file ".svg") readdirSync)
  | None => Some (filter (fun file => JsString.endsWith file ".svg") readdirSync)
  end.

(** How a run of [main] ends. *)
Inductive mainResult : Type :=
| ExitStatus1 (message : string)
| FatalError
| HelpPrinted
| InputDirectoryNotFound
| FileNotFound
| OutOfFuel
| AllDone (batches : list (list (string * option (list output)) * option (nat * nat))).

Definition main (args : list string) : mainResult :=
  match parseArgs (join cwd "kanji_custom") args with
  | Exit1 m => ExitStatus1 m
  | TypeError => FatalError
  | Config c =>
      if help c then HelpPrinted
      else if negb (existsSync inputDir) then InputDirectoryNotFound
      else
        match selectFiles c with
        | None => FileNotFound
        | Some files =>
            (* Process in batches *)
            match batchLoop (List.length files) 0 files with
            | None => OutOfFuel
            | Some batches =>
                AllDone (map (fun b => (map (fun f => (f, processFile f c)) (fst b),
                                        snd b))
                             batches)
            end
        end
  end.

End Program.

(* ================================================================== *)
(** ** More notions used to state the properties *)

(** The length of ink an active layer shows for the strokes [pathProps]. *)
Fixpoint visibleLength (pathProps : list pathProp) (active : list strokeEl) : Q :=
  match pathProps, active with
  | p :: ps, FullPath _ :: rest => p_length p + visibleLength ps rest
  | p :: ps, DashPath _ partLength _ :: rest => partLength + visibleLength ps rest
  | _, _ => 0
  end.

(** A string without a dollar sign. *)
Fixpoint dollarFree (s : string) : bool :=
  match s with
  | EmptyString => true
  | String c s' => negb (Ascii.eqb c "$") && dollarFree s'
  end.

(** A sample environment: plain path joining and an input directory that
    holds the one file [04e00.svg]. *)
Definition sampleJoin (a b : string) : string := (a ++ "/" ++ b)%string.

Definition sampleExists (p : string) : bool :=
  String.eqb p "kanji_svg" || String.eqb p "kanji_svg/04e00.svg".

(** The file an output is written to. *)
Definition outputPathOf (o : output) : string :=
  match o with
  | PngOutput job => png_outputPath job
  | OgOutput job => og_outputPath job
  | GifOutput outputPath _ => outputPath
  end.

Definition sampleListing : list string :=
  [ "04e00.svg"; "README.md" ]%string.

Definition sampleContent : string :=
  "<!-- KanjiVG --><svg><path d='M0,0h10'/><path d='M10,0v20'/><path d='M10,20h5'/></svg>".

Definition sampleReadFile (p : string) : option string :=
  if String.eqb p "kanji_svg/04e00.svg" then Some sampleContent else None.

Definition sampleCheerio (content : string) : list element := sampleSvg.

(** A run in the sample environment. *)
Definition sampleMain : list string -> mainResult :=
  main sampleJoin "kanji_svg" "kanji_png" "kanji_png_og" "kanji_gif" "."
    sampleExists sampleListing sampleReadFile sampleCheerio sampleLength.

Definition sampleProcessFile : string -> config -> option (list output) :=
  processFile sampleJoin "kanji_svg" "kanji_png" "kanji_png_og" "kanji_gif"
    sampleReadFile sampleCheerio sampleLength.

Definition sampleSelectFiles : config -> option (list string) :=
  selectFiles sampleJoin "kanji_svg" sampleExists sampleListing.

(* ================================================================== *)
(** ** Binary64 arithmetic *)

(** The numbers of JS are IEEE 754 binary64.  A finite double is the
    rational it denotes, and an operation of JS is the exact operation
    followed by [round64], the rounding to the nearest double, ties to the
    even mantissa, with subnormals.  A result of magnitude [2^1024] or more,
    which is [Infinity] in JS, is not modelled: the statements below are about
    finite doubles ([isDouble]).  [-0] is identified with [0]. *)
Module Binary64.

Local Open Scope Q_scope.

Definition pow2 (e : Z) : Q := 2 ^ e.

(** The nearest integer, ties to even. *)
Definition rne (q : Q) : Z :=
  let f := Qfloor q in
  match Qcompare (q - inject_Z f) (1 # 2) with
  | Lt => f
  | Gt => (f + 1)%Z
  | Eq => if Z.even f then f else (f + 1)%Z
  end.

(** [floor (log2 x)] for a positive [x]. *)
Definition ilog2 (x : Q) : Z :=
  let l := (Z.log2 (Qnum x) - Z.log2 (Zpos (Qden x)))%Z in
  if Qle_bool (pow2 l) x then l else (l - 1)%Z.

(** The exponent of the last bit of the mantissa of a positive [x]:
    53 bits of precision, and no exponent below that of the subnormals. *)
Definition expo (x : Q) : Z := Z.max (-1074) (ilog2 x - 52).

Definition roundPos (x : Q) : Q :=
  inject_Z (rne (x / pow2 (expo x))) * pow2 (expo x).

Definition round64 (x : Q) : Q :=
  match Qcompare x 0 with
  | Gt => roundPos x
  | Lt => - roundPos (- x)
  | Eq => 0
  end.

(** [a + b], [a - b], [a * b] and [a / b] on doubles. *)
Definition fadd (a b : Q) : Q := round64 (a + b).
Definition fsub (a b : Q) : Q := round64 (a - b).
Definition fmul (a b : Q) : Q := round64 (a * b).
Definition fdiv (a b : Q) : Q := round64 (a / b).

(** The double of an integer. *)
Definition ofZ (z : Z) : Q := round64 (inject_Z z).

(** The doubles of the machine, to compare the rounding above with: the
    rational a finite machine double denotes, and the machine double of a
    small natural number. *)
Definition ofFloat (x : PrimFloat.float) : option Q :=
  match FloatOps.Prim2SF x with
  | SpecFloat.S754_zero _ => Some 0
  | SpecFloat.S754_finite s m e =>
      Some ((if s then -1 else 1) * inject_Z (Zpos m) * pow2 e)
  | _ => None
  end.

Definition toFloat (z : Z) : PrimFloat.float :=
  PrimFloat.of_uint63 (Uint63.of_Z z).

End Binary64.

(** A rational that rounding leaves as it is. *)
Definition rounded (x : Q) : Prop := (Binary64.round64 x == x)%Q.

(** A finite double. *)
Definition isDouble (x : Q) : Prop :=
  rounded x /\ (- Binary64.pow2 1024 < x /\ x < Binary64.pow2 1024)%Q.

(** Stroke lengths as [getTotalLength] returns them: finite doubles that
    are not negative. *)
Definition doubleLengths (pathProps : list pathProp) : Prop :=
  Forall (fun p => isDouble (p_length p) /\ (0 <= p_length p)%Q) pathProps.

(** ** The frame count, the progress and the walk in binary64 *)

(** [Math.ceil((animationDuration / 1000) * fps)] as JS evaluates it: the
    quotient and the product are rounded, the ceiling of the double is
    exact. *)
Definition frameProduct64 (a f : Z) : Q :=
  Binary64.fmul (Binary64.fdiv (Binary64.ofZ a) 1000) (Binary64.ofZ f).

Definition totalFrames64 (animationDuration fps : number) : number :=
  match animationDuration, fps with
  | Num a, Num f => Num (Qceiling (frameProduct64 a f))
  | _, _ => NaN
  end.

(** [drawnLength] after the paths [ps], started from [acc], each addition
    rounded. *)
Definition sum64From (acc : Q) (ps : list pathProp) : Q :=
  fold_left (fun sum p => Binary64.fadd sum (p_length p)) ps acc.

(** [pathProps.reduce((sum, p) => sum + p.length, 0)] *)
Definition totalLength64 (pathProps : list pathProp) : Q := sum64From 0 pathProps.

(** The value [drawnLength] has when the walk reaches stroke [k]: the
    cumulated boundary the code compares the progress with. *)
Definition cumulativeStart64 (pathProps : list pathProp) (k : nat) : Q :=
  totalLength64 (firstn k pathProps).

(** [currentTotalProgress] of a frame; as in [currentTotalProgress] the
    quotient by a [totalFrames] of 0 is overwritten. *)
Definition currentTotalProgress64 (frame totalFrames : Z) (totalLength : Q) : Q :=
  let currentTotalProgress :=
    Binary64.fmul (Binary64.fdiv (Binary64.ofZ frame) (Binary64.ofZ totalFrames))
      totalLength in
  if totalFrames <=? frame then totalLength else currentTotalProgress.

(** The loop over [pathProps] of lines 309-322, every [+] and [-]
    rounded. *)
Fixpoint activeStrokes64 (pathProps : list pathProp) (drawnLength progress : Q)
  : list strokeEl :=
  match pathProps with
  | [] => []
  | p :: rest =>
      if Qle_bool (Binary64.fadd drawnLength (p_length p)) progress then
        FullPath (p_d p)
          :: activeStrokes64 rest (Binary64.fadd drawnLength (p_length p)) progress
      else if Qltb drawnLength progress then
        let partLength := Binary64.fsub progress drawnLength in
        [DashPath (p_d p) partLength (p_length p)]
      else []
  end.

(** Three strokes on which the subtraction of the walk rounds up to the
    length of the stroke: lengths [1.5 * 2^-52], [1 + 2^-51] and
    [1 + 2^-51]. *)
Definition roundingStrokes : list pathProp :=
  [ mkPathProp "M0,0h3.3306690738754696e-16" (Some "r1"%string) (3 # 2 ^ 53);
    mkPathProp "M0,0h1.0000000000000004" (Some "r2"%string) (1 + (1 # 2 ^ 51));
    mkPathProp "M0,1h1.0000000000000004" (Some "r3"%string) (1 + (1 # 2 ^ 51)) ].

(* ================================================================== *)
(** ** Runs of [processFile] that are cut short *)

(** [processFile] lists the calls of a run in which none throws.  A call
    that throws ends the run in the [catch] of [processFile]: the calls that
    are made are those up to the first one that throws, that one included.
    [throws] stands for the outcome of the calls, which depends on [sharp],
    [svgPathProperties] and the encoder. *)
Fixpoint callsMade (throws : output -> bool) (outs : list output) : list output :=
  match outs with
  | [] => []
  | o :: rest => if throws o then [o] else o :: callsMade throws rest
  end.

(** The file a call can leave behind: the one at the path it was given, and
    none for a [generateGif] that returns at its guard, before the output
    stream is created. *)
Definition fileOf (o : output) : option string :=
  match o with
  | GifOutput _ None => None
  | _ => Some (outputPathOf o)
  end.

Definition filesLeft (calls : list output) : list string :=
  flat_map (fun o => match fileOf o with Some p => [p] | None => [] end) calls.

(** The card of the sample run fails. *)
Definition cardThrows (o : output) : bool :=
  match o with
  | OgOutput _ => true
  | _ => false
  end.

(** The character U+4E00 of the usage text, [-k] followed by it, as the
    three bytes of its UTF-8 form. *)
Definition kanjiOne : string :=
  String (ascii_of_nat 228) (String (ascii_of_nat 184)
    (String (ascii_of_nat 128) EmptyString)).

(* ================================================================== *)
(** * Properties *)

(** ** Strings *)

Lemma prefix_app (p s t : string) :
  String.prefix p s = true -> String.prefix p (s ++ t) = true.
Proof.
  revert s. induction p as [|a p IH]; intros s H.
  - simpl. destruct (s ++ t)%string; reflexivity.
  - destruct s as [|b s]; simpl in *; [discriminate|].
    destruct (ascii_dec a b); [auto | discriminate].
Qed.

Section StringFacts.

Variable pat : string.

(** The scan either fails, or stops [k] characters further on an occurrence
    of the pattern; the start index only shifts the answer. *)
Lemma indexOfFrom_spec (s : string) (i : Z) :
  (JsString.indexOfFrom pat s i = -1 /\ JsString.indexOfFrom pat s 0 = -1
   /\ String.prefix pat s = false)
  \/ (exists k : nat,
         JsString.indexOfFrom pat s i = i + Z.of_nat k
         /\ JsString.indexOfFrom pat s 0 = Z.of_nat k
         /\ String.prefix pat (JsString.drop k s) = true
         /\ (k = 0%nat <-> String.prefix pat s = true)).
Proof.
  revert i. induction s as [|c s IH]; intros i.
  - cbn [JsString.indexOfFrom]. destruct (String.prefix pat EmptyString) eqn:E.
    + right. exists 0%nat. cbn [JsString.drop]. repeat split; auto; lia.
    + left. auto.
  - cbn [JsString.indexOfFrom]. rewrite Z.add_0_l.
    destruct (String.prefix pat (String c s)) eqn:E.
    + right. exists 0%nat. cbn [JsString.drop]. repeat split; auto; lia.
    + destruct (IH 1) as [(H1 & H0 & Hp) | (k & H1 & H0 & Hd & _)].
      * left. destruct (IH (i + 1)) as [(Hi & _) | (k & Hi & Hk & _)].
        -- auto.
        -- rewrite H0 in Hk. lia.
      * right. exists (S k).
        destruct (IH (i + 1)) as [(_ & Hz & _) | (k' & Hi & Hk' & _)].
        -- rewrite H0 in Hz. lia.
        -- assert (k' = k) by lia. subst k'.
           rewrite Hi, H1. cbn [JsString.drop].
           repeat split; try lia; auto; intros; discriminate.
Qed.

Lemma prefix_indexOf (s : string) :
  String.prefix pat s = true -> JsString.indexOf s pat = 0.
Proof.
  intros H. unfold JsString.indexOf. destruct s; cbn [JsString.indexOfFrom]; now rewrite H.
Qed.

Lemma indexOf_zero_prefix (s : string) :
  JsString.indexOf s pat = 0 -> String.prefix pat s = true.
Proof.
  unfold JsString.indexOf. intros H.
  destruct (indexOfFrom_spec s 0) as [(H1 & _) | (k & H1 & _ & _ & Hk)]; [lia|].
  apply Hk. lia.
Qed.

Lemma indexOf_range (s : string) :
  JsString.indexOf s pat = -1 \/ 0 <= JsString.indexOf s pat.
Proof.
  unfold JsString.indexOf.
  destruct (indexOfFrom_spec s 0) as [(H1 & _) | (k & H1 & _)]; lia.
Qed.

Lemma indexOf_substring (s : string) :
  0 <= JsString.indexOf s pat ->
  String.prefix pat (JsString.substring s (JsString.indexOf s pat)) = true.
Proof.
  unfold JsString.indexOf, JsString.substring. intros H.
  destruct (indexOfFrom_spec s 0) as [(H1 & _) | (k & H1 & _ & Hd & _)]; [lia|].
  rewrite H1. simpl. now rewrite Nat2Z.id.
Qed.

Lemma replace_absent (s repl : string) :
  JsString.indexOf s pat = -1 -> JsString.replace s pat repl = s.
Proof.
  unfold JsString.indexOf. induction s as [|c s IH]; intros H.
  - cbn [JsString.replace JsString.indexOfFrom] in *.
    destruct (String.prefix pat EmptyString); [lia | reflexivity].
  - cbn [JsString.replace JsString.indexOfFrom] in *.
    rewrite Z.add_0_l in H.
    destruct (String.prefix pat (String c s)); [lia|].
    f_equal. apply IH.
    destruct (indexOfFrom_spec s 1) as [(_ & H0 & _) | (k & H1 & _)]; [exact H0 | lia].
Qed.

Lemma replace_prefix (s repl : string) :
  String.prefix pat s = true ->
  JsString.replace s pat repl = (repl ++ JsString.drop (String.length pat) s)%string.
Proof.
  intros H. destruct s; cbn [JsString.replace]; now rewrite H.
Qed.

Lemma includes_app (s t : string) :
  JsString.includes s pat = true -> JsString.includes (s ++ t) pat = true.
Proof.
  unfold JsString.includes, JsString.indexOf. intros H.
  apply Z.leb_le in H. apply Z.leb_le.
  assert (G : forall i, 0 <= i ->
              JsString.indexOfFrom pat s i <> -1 ->
              0 <= JsString.indexOfFrom pat (s ++ t) i).
  { clear H. induction s as [|c s IH]; intros i Hi Hne.
    - cbn [JsString.indexOfFrom] in Hne.
      destruct (String.prefix pat EmptyString) eqn:E; [|congruence].
      destruct pat; [|discriminate].
      destruct t; simpl; lia.
    - simpl append. cbn [JsString.indexOfFrom] in *.
      destruct (String.prefix pat (String c s)) eqn:E.
      + change (String c (s ++ t)) with (String c s ++ t)%string.
        rewrite (prefix_app pat (String c s) t E). lia.
      + destruct (String.prefix pat (String c (s ++ t))); [lia|].
        apply IH; [lia | exact Hne]. }
  apply G; lia.
Qed.

End StringFacts.

(** ** [preprocessSvg] *)

Lemma preprocessSvg_without_svg (s : string) :
  JsString.indexOf s svgTag = -1 -> preprocessSvg s = s.
Proof.
  intros H. unfold preprocessSvg. rewrite H. cbn [Z.ltb Z.compare].
  destruct (negb (JsString.includes s kvgAttr)); [|reflexivity].
  now apply replace_absent.
Qed.

Lemma preprocessSvg_kept (c : string) :
  String.prefix svgTag c = true -> JsString.includes c kvgAttr = true ->
  preprocessSvg c = c.
Proof.
  intros Hp Hi. unfold preprocessSvg.
  rewrite (prefix_indexOf svgTag c Hp). cbn [Z.ltb Z.compare].
  now rewrite Hi.
Qed.

Lemma preprocessSvg_injected (c : string) :
  String.prefix svgTag c = true -> JsString.includes c kvgAttr = false ->
  preprocessSvg c = (svgTagWithKvg ++ JsString.drop 4 c)%string.
Proof.
  intros Hp Hi. unfold preprocessSvg.
  rewrite (prefix_indexOf svgTag c Hp). cbn [Z.ltb Z.compare].
  rewrite Hi. cbn [negb]. now rewrite (replace_prefix svgTag c _ Hp).
Qed.

Lemma svgTagWithKvg_app (x : string) :
  String.prefix svgTag (svgTagWithKvg ++ x) = true
  /\ JsString.includes (svgTagWithKvg ++ x) kvgAttr = true.
Proof.
  split.
  - apply prefix_app. reflexivity.
  - apply includes_app. reflexivity.
Qed.

(** The stripping step leaves a string that starts with the tag, and the
    rest of the function does not see the difference. *)
Lemma preprocessSvg_stripped (s : string) :
  0 <= JsString.indexOf s svgTag ->
  exists c, String.prefix svgTag c = true /\ preprocessSvg s = preprocessSvg c.
Proof.
  intros H.
  exists (if 0 <? JsString.indexOf s svgTag
          then JsString.substring s (JsString.indexOf s svgTag) else s).
  assert (Hp : String.prefix svgTag
                 (if 0 <? JsString.indexOf s svgTag
                  then JsString.substring s (JsString.indexOf s svgTag) else s) = true).
  { destruct (0 <? JsString.indexOf s svgTag) eqn:E.
    - now apply indexOf_substring.
    - apply indexOf_zero_prefix. apply Z.ltb_ge in E. lia. }
  split; [exact Hp|].
  unfold preprocessSvg at 2. rewrite (prefix_indexOf svgTag _ Hp).
  reflexivity.
Qed.

(** C10. [preprocessSvg] is idempotent: a second application returns the
    result of the first one unchanged.  After one application the content
    holds no [<svg] at all, or it starts with [<svg] (nothing is left to
    strip) and includes [xmlns:kvg] (nothing is left to inject). *)
Theorem preprocessSvg_idempotent (s : string) :
  preprocessSvg (preprocessSvg s) = preprocessSvg s
  /\ (JsString.includes (preprocessSvg s) svgTag = false
      \/ (JsString.startsWith (preprocessSvg s) svgTag = true
          /\ JsString.indexOf (preprocessSvg s) svgTag = 0
          /\ JsString.includes (preprocessSvg s) kvgAttr = true)).
Proof.
  destruct (indexOf_range svgTag s) as [Hno | Hyes].
  - rewrite (preprocessSvg_without_svg s Hno). split.
    + now apply preprocessSvg_without_svg.
    + left. unfold JsString.includes. rewrite Hno. reflexivity.
  - destruct (preprocessSvg_stripped s Hyes) as (c & Hp & ->).
    destruct (JsString.includes c kvgAttr) eqn:Hi.
    + rewrite (preprocessSvg_kept c Hp Hi). split.
      * now apply preprocessSvg_kept.
      * right. unfold JsString.startsWith.
        repeat split; auto using prefix_indexOf.
    + rewrite (preprocessSvg_injected c Hp Hi).
      destruct (svgTagWithKvg_app (JsString.drop 4 c)) as (Hp' & Hi').
      split.
      * now apply preprocessSvg_kept.
      * right. unfold JsString.startsWith.
        repeat split; auto using prefix_indexOf.
Qed.

(** ** The walk over the strokes *)

Local Open Scope Q_scope.

Lemma Qltb_lt (x y : Q) : Qltb x y = true <-> x < y.
Proof.
  unfold Qltb. rewrite negb_true_iff. split; intros H.
  - apply Qnot_le_lt. intros Hle. apply Qle_bool_iff in Hle. congruence.
  - destruct (Qle_bool y x) eqn:E; [|reflexivity].
    apply Qle_bool_iff in E. exfalso. lra.
Qed.

Lemma Qle_bool_false (x y : Q) : Qle_bool x y = false <-> y < x.
Proof.
  split; intros H.
  - apply Qnot_le_lt. intros Hle. apply Qle_bool_iff in Hle. congruence.
  - destruct (Qle_bool x y) eqn:E; [|reflexivity].
    apply Qle_bool_iff in E. exfalso. lra.
Qed.

Lemma Qltb_false (x y : Q) : Qltb x y = false <-> y <= x.
Proof.
  unfold Qltb. rewrite negb_false_iff. apply Qle_bool_iff.
Qed.

Lemma totalLengthOf_sumFrom (ps : list pathProp) : totalLengthOf ps = sumFrom 0 ps.
Proof. reflexivity. Qed.

Lemma sumFrom_cons (acc : Q) (p : pathProp) (ps : list pathProp) :
  sumFrom acc (p :: ps) = sumFrom (acc + p_length p) ps.
Proof. reflexivity. Qed.

Lemma sumFrom_nonneg (ps : list pathProp) :
  lengthsNonNegative ps -> forall acc, acc <= sumFrom acc ps.
Proof.
  induction 1 as [|p ps Hp _ IH]; intros acc.
  - apply Qle_refl.
  - rewrite sumFrom_cons. specialize (IH (acc + p_length p)). lra.
Qed.

Lemma sumFrom_firstn_le (ps : list pathProp) :
  lengthsNonNegative ps ->
  forall acc k, sumFrom acc (firstn k ps) <= sumFrom acc ps.
Proof.
  induction 1 as [|p ps Hp Hps IH]; intros acc k.
  - destruct k; apply Qle_refl.
  - destruct k; cbn [firstn].
    + apply (sumFrom_nonneg (p :: ps)). now constructor.
    + rewrite !sumFrom_cons. apply IH.
Qed.

Lemma lengthsNonNegative_firstn (ps : list pathProp) :
  lengthsNonNegative ps -> forall k, lengthsNonNegative (firstn k ps).
Proof.
  unfold lengthsNonNegative.
  induction 1 as [|p ps Hp Hps IH]; intros [|k]; cbn [firstn]; constructor; auto.
Qed.

Lemma sumFrom_firstn_mono (ps : list pathProp) :
  lengthsNonNegative ps ->
  forall acc i j, (i <= j)%nat ->
    sumFrom acc (firstn i ps) <= sumFrom acc (firstn j ps).
Proof.
  induction 1 as [|p ps Hp Hps IH]; intros acc i j Hij.
  - destruct i, j; apply Qle_refl.
  - destruct i, j; cbn [firstn]; try lia.
    + apply Qle_refl.
    + apply (sumFrom_nonneg (p :: firstn j ps)).
      constructor; [exact Hp|]. now apply lengthsNonNegative_firstn.
    + rewrite !sumFrom_cons. apply IH. lia.
Qed.

Lemma sumFrom_firstn_succ (ps : list pathProp) :
  forall acc k p, nth_error ps k = Some p ->
    sumFrom acc (firstn (S k) ps) = sumFrom acc (firstn k ps) + p_length p.
Proof.
  induction ps as [|q ps IH]; intros acc k p H.
  - destruct k; discriminate.
  - destruct k.
    + injection H as ->. reflexivity.
    + cbn [firstn]. rewrite !sumFrom_cons. apply IH. exact H.
Qed.

(** The shape of the active layer: whole strokes first, then at most one
    dashed stroke, whose dash is what is left of the progress. *)
Lemma activeStrokes_shape (ps : list pathProp) :
  forall acc g, exists k : nat,
    (activeStrokes ps acc g = map fullPathOf (firstn k ps)
     /\ forall p, nth_error ps k = Some p ->
          ~ sumFrom acc (firstn k ps) + p_length p <= g
          /\ g <= sumFrom acc (firstn k ps))
    \/ exists p,
         nth_error ps k = Some p
         /\ activeStrokes ps acc g =
              map fullPathOf (firstn k ps)
                ++ [DashPath (p_d p) (g - sumFrom acc (firstn k ps)) (p_length p)]
         /\ sumFrom acc (firstn k ps) < g
         /\ g < sumFrom acc (firstn k ps) + p_length p.
Proof.
  induction ps as [|p ps IH]; intros acc g.
  - exists 0%nat. left. split; [reflexivity|]. intros p H. discriminate.
  - cbn [activeStrokes].
    destruct (Qle_bool (acc + p_length p) g) eqn:Efull.
    + destruct (IH (acc + p_length p) g) as (k & [(Hk & Hstop) | (q & Hq & Hk & Hlo & Hhi)]).
      * exists (S k). left. cbn [firstn map]. rewrite Hk. split; [reflexivity|].
        intros q Hq. cbn [nth_error] in Hq. rewrite sumFrom_cons. now apply Hstop.
      * exists (S k). right. exists q. cbn [firstn map nth_error].
        rewrite sumFrom_cons, Hk. repeat split; auto.
    + apply Qle_bool_false in Efull.
      destruct (Qltb acc g) eqn:Epart.
      * apply Qltb_lt in Epart. exists 0%nat. right. exists p.
        cbn [firstn map nth_error app]. unfold sumFrom; cbn [fold_left].
        repeat split; auto.
      * apply Qltb_false in Epart. exists 0%nat. left.
        split; [reflexivity|]. intros q Hq. injection Hq as <-.
        unfold sumFrom; cbn [firstn fold_left]. split; [lra | exact Epart].
Qed.

(** What an element of the active layer says about the stroke at its
    position. *)
Lemma activeStrokes_nth (ps : list pathProp) :
  forall acc g n el,
    nth_error (activeStrokes ps acc g) n = Some el ->
    exists p,
      nth_error ps n = Some p
      /\ ((el = FullPath (p_d p)
           /\ sumFrom acc (firstn n ps) + p_length p <= g)
          \/ (el = DashPath (p_d p) (g - sumFrom acc (firstn n ps)) (p_length p)
              /\ sumFrom acc (firstn n ps) < g
              /\ g < sumFrom acc (firstn n ps) + p_length p)).
Proof.
  induction ps as [|p ps IH]; intros acc g n el H.
  - destruct n; discriminate.
  - cbn [activeStrokes] in H.
    destruct (Qle_bool (acc + p_length p) g) eqn:Efull.
    + apply Qle_bool_iff in Efull. destruct n as [|n].
      * injection H as <-. exists p. split; [reflexivity|]. left. now split.
      * cbn [nth_error firstn] in *. rewrite sumFrom_cons. now apply IH.
    + apply Qle_bool_false in Efull.
      destruct (Qltb acc g) eqn:Epart.
      * apply Qltb_lt in Epart. destruct n as [|[|n]]; try discriminate.
        injection H as <-. exists p. split; [reflexivity|]. right.
        unfold sumFrom; cbn [firstn fold_left]. repeat split; auto.
      * destruct n; discriminate.
Qed.



Lemma revealedFraction_cons_S (el : strokeEl) (els : list strokeEl) (k : nat) :
  revealedFraction (el :: els) (S k) = revealedFraction els k.
Proof. reflexivity. Qed.

(** A dash never covers nothing nor the whole stroke. *)
Lemma dash_strict (part len : Q) :
  0 < part -> part < len -> 0 < part / len /\ part / len < 1.
Proof.
  intros H0 H1. assert (Hlen : 0 < len) by lra. split.
  - apply Qlt_shift_div_l; [exact Hlen | lra].
  - apply Qlt_shift_div_r; [exact Hlen | lra].
Qed.

Lemma revealedFraction_bounds (ps : list pathProp) (acc g : Q) (k : nat) :
  0 <= revealedFraction (activeStrokes ps acc g) k
  /\ revealedFraction (activeStrokes ps acc g) k <= 1.
Proof.
  unfold revealedFraction, strokeStateAt.
  destruct (nth_error (activeStrokes ps acc g) k) as [el|] eqn:E; [|lra].
  destruct (activeStrokes_nth ps acc g k el E)
    as (p & _ & [(-> & _) | (-> & Hlo & Hhi)]); [lra|].
  destruct (dash_strict (g - sumFrom acc (firstn k ps)) (p_length p)); lra.
Qed.

(** More progress never draws less: a stroke drawn whole stays whole and
    the visible fraction of every stroke does not decrease. *)
Lemma activeStrokes_mono (ps : list pathProp) :
  forall acc g g' k,
    g <= g' ->
    (forall dv, nth_error (activeStrokes ps acc g) k = Some (FullPath dv) ->
                nth_error (activeStrokes ps acc g') k = Some (FullPath dv))
    /\ revealedFraction (activeStrokes ps acc g) k
       <= revealedFraction (activeStrokes ps acc g') k.
Proof.
  induction ps as [|p ps IH]; intros acc g g' k Hg.
  - split; [auto | apply Qle_refl].
  - pose proof (revealedFraction_bounds (p :: ps) acc g' k) as [Hlo' Hhi'].
    cbn [activeStrokes] in *.
    destruct (Qle_bool (acc + p_length p) g) eqn:E.
    + apply Qle_bool_iff in E.
      assert (E' : Qle_bool (acc + p_length p) g' = true) by (apply Qle_bool_iff; lra).
      rewrite E'. destruct k as [|k].
      * split; [auto | apply Qle_refl].
      * cbn [nth_error]. rewrite !revealedFraction_cons_S. now apply IH.
    + apply Qle_bool_false in E.
      destruct (Qltb acc g) eqn:Ep.
      * apply Qltb_lt in Ep. split.
        { intros dv H. destruct k as [|[|k]]; discriminate. }
        destruct k as [|k].
        2:{ destruct k; exact Hlo'. }
        destruct (Qle_bool (acc + p_length p) g') eqn:E'.
        -- unfold revealedFraction, strokeStateAt; cbn [nth_error].
           destruct (dash_strict (g - acc) (p_length p)); lra.
        -- apply Qle_bool_false in E'.
           assert (Ep' : Qltb acc g' = true) by (apply Qltb_lt; lra).
           rewrite Ep'. unfold revealedFraction, strokeStateAt; cbn [nth_error].
           apply Qmult_le_compat_r; [lra|].
           apply Qlt_le_weak, Qinv_lt_0_compat. lra.
      * split.
        { intros dv H. destruct k; discriminate. }
        destruct k; exact Hlo'.
Qed.

(** ** The progress of a frame *)

Lemma currentTotalProgress_hold (frame totalFrames : Z) (totalLength : Q) :
  (totalFrames <= frame)%Z ->
  currentTotalProgress frame totalFrames totalLength = totalLength.
Proof.
  intros H. unfold currentTotalProgress.
  apply Z.leb_le in H. now rewrite H.
Qed.

Lemma currentTotalProgress_running (frame totalFrames : Z) (totalLength : Q) :
  (frame < totalFrames)%Z ->
  currentTotalProgress frame totalFrames totalLength
  = (inject_Z frame / inject_Z totalFrames) * totalLength.
Proof.
  intros H. unfold currentTotalProgress.
  apply Z.leb_gt in H. now rewrite H.
Qed.

Lemma inject_Z_pos (z : Z) : (0 < z)%Z -> 0 < inject_Z z.
Proof. intros H. rewrite Zlt_Qlt in H. exact H. Qed.

Lemma ratio_le_compat (i j t : Z) :
  (0 < t)%Z -> (i <= j)%Z -> inject_Z i / inject_Z t <= inject_Z j / inject_Z t.
Proof.
  intros Ht Hij. unfold Qdiv. apply Qmult_le_compat_r.
  - now rewrite <- Zle_Qle.
  - apply Qlt_le_weak, Qinv_lt_0_compat, inject_Z_pos, Ht.
Qed.

Lemma ratio_lt_1 (i t : Z) : (i < t)%Z -> (0 < t)%Z -> inject_Z i / inject_Z t < 1.
Proof.
  intros Hi Ht. apply Qlt_shift_div_r; [now apply inject_Z_pos|].
  rewrite Qmult_1_l. now rewrite <- Zlt_Qlt.
Qed.


(** The progress never decreases along the frames, from frame 0 on. *)
Lemma currentTotalProgress_mono (totalFrames : Z) (totalLength : Q) (i j : Z) :
  0 <= totalLength -> (0 <= i)%Z -> (i <= j)%Z ->
  currentTotalProgress i totalFrames totalLength
  <= currentTotalProgress j totalFrames totalLength.
Proof.
  intros HL Hi Hij.
  destruct (Z_lt_le_dec j totalFrames) as [Hj | Hj].
  - rewrite !currentTotalProgress_running by lia.
    apply Qmult_le_compat_r; [|exact HL]. apply ratio_le_compat; lia.
  - rewrite (currentTotalProgress_hold j) by lia.
    destruct (Z_lt_le_dec i totalFrames) as [Hi' | Hi'].
    + rewrite currentTotalProgress_running by lia.
      pose proof (ratio_lt_1 i totalFrames Hi' ltac:(lia)) as Hr.
      setoid_replace totalLength with (1 * totalLength) at 2 by ring.
      apply Qmult_le_compat_r; [lra | exact HL].
    + rewrite currentTotalProgress_hold by lia. apply Qle_refl.
Qed.

(** In the frame loop the quotient [frame / totalFrames] is only kept for a
    positive [totalFrames]. *)
Lemma quotient_kept_only_for_positive_totalFrames
    (frame totalFrames : Z) (totalLength : Q) :
  (0 <= frame)%Z ->
  currentTotalProgress frame totalFrames totalLength = totalLength
  \/ ((0 < totalFrames)%Z
      /\ currentTotalProgress frame totalFrames totalLength
         = inject_Z frame / inject_Z totalFrames * totalLength).
Proof.
  intros Hf. destruct (Z_lt_le_dec frame totalFrames) as [H | H].
  - right. split; [lia | now apply currentTotalProgress_running].
  - left. now apply currentTotalProgress_hold.
Qed.

Lemma totalLengthOf_nonneg (ps : list pathProp) :
  lengthsNonNegative ps -> 0 <= totalLengthOf ps.
Proof. intros H. rewrite totalLengthOf_sumFrom. now apply sumFrom_nonneg. Qed.

(** ** The frames of [generateGif] *)


Lemma frameIndices_nth (t e : Z) (n : nat) (z : Z) :
  nth_error (frameIndices (Num t) (Num e)) n = Some z ->
  z = Z.of_nat n /\ (Z.of_nat n < t + e)%Z.
Proof.
  unfold frameIndices. rewrite nth_error_map, nth_error_seq.
  destruct (n <? Z.to_nat (t + e))%nat eqn:E; [|discriminate].
  cbn [option_map]. intros H. injection H as <-.
  apply Nat.ltb_lt in E. split; [reflexivity | lia].
Qed.


Lemma frameIndices_nth_in (t e : Z) (n : nat) :
  (Z.of_nat n < t + e)%Z ->
  nth_error (frameIndices (Num t) (Num e)) n = Some (Z.of_nat n).
Proof.
  intros H. unfold frameIndices. rewrite nth_error_map, nth_error_seq.
  assert (E : (n <? Z.to_nat (t + e))%nat = true) by (apply Nat.ltb_lt; lia).
  now rewrite E.
Qed.

Section Frames.

Variable getTotalLength : string -> Q.
Variables (svgContent : list element) (outputPath : string) (width height : Z).
Variable opts : options.

Let paths := extractPaths svgContent.
Let pathProps := measurePaths getTotalLength paths.

(** What an encoder returned by [generateGif] was given. *)
Lemma generateGif_some (enc : encoder) :
  generateGif getTotalLength svgContent outputPath width height opts = Some enc ->
  paths <> []
  /\ e_finished enc = true
  /\ e_delay enc = divide 1000 (o_fps opts)
  /\ e_frames enc =
       match totalFramesOf (animationDurationOf opts pathProps) (o_fps opts) with
       | Num t =>
           map (renderFrame opts width height paths pathProps t (totalLengthOf pathProps))
               (frameIndices (Num t) (o_fps opts))
       | NaN => []
       end.
Proof.
  unfold generateGif. fold paths. fold pathProps.
  destruct paths eqn:E; [discriminate|]. cbn [List.length Nat.eqb].
  intros H. injection H as <-. cbn. repeat split; try discriminate.
  destruct (totalFramesOf _ _); reflexivity.
Qed.

(** Frame number [n] of the encoder is the rendering of index [n]. *)
Lemma generateGif_frame (enc : encoder) (n : nat) (fr : rendered) :
  generateGif getTotalLength svgContent outputPath width height opts = Some enc ->
  nth_error (e_frames enc) n = Some fr ->
  exists t e,
    totalFramesOf (animationDurationOf opts pathProps) (o_fps opts) = Num t
    /\ o_fps opts = Num e
    /\ (Z.of_nat n < t + e)%Z
    /\ fr = renderFrame opts width height paths pathProps t
              (totalLengthOf pathProps) (Z.of_nat n).
Proof.
  intros Hg Hn. destruct (generateGif_some enc Hg) as (_ & _ & _ & Hf).
  rewrite Hf in Hn. clear Hf.
  destruct (totalFramesOf _ _) as [|t] eqn:Et; [destruct n; discriminate|].
  destruct (o_fps opts) as [|e] eqn:Ee.
  { destruct (animationDurationOf opts pathProps); discriminate. }
  exists t, e. rewrite nth_error_map in Hn.
  destruct (nth_error (frameIndices (Num t) (Num e)) n) as [z|] eqn:Ez; [|discriminate].
  apply frameIndices_nth in Ez. destruct Ez as (-> & Hlt).
  injection Hn as <-. auto.
Qed.

End Frames.

(** ** Reveal order *)

(** The state of every position of a layer made of whole strokes followed
    by [tail]. *)
Lemma strokeStateAt_prefix (strokes : list pathProp) (tail : list strokeEl) (i : nat) :
  (i < List.length strokes)%nat ->
  strokeStateAt (map fullPathOf strokes ++ tail) i = FullyDrawn.
Proof.
  intros H. unfold strokeStateAt.
  rewrite nth_error_app1 by now rewrite length_map.
  rewrite nth_error_map.
  destruct (nth_error strokes i) eqn:E; [reflexivity|].
  apply nth_error_None in E. lia.
Qed.

Lemma strokeStateAt_tail (strokes : list pathProp) (tail : list strokeEl) (i : nat) :
  (List.length strokes <= i)%nat ->
  strokeStateAt (map fullPathOf strokes ++ tail) i
  = strokeStateAt tail (i - List.length strokes).
Proof.
  intros H. unfold strokeStateAt.
  rewrite nth_error_app2 by now rewrite length_map.
  now rewrite length_map.
Qed.

Lemma strokeStateAt_nil (i : nat) : strokeStateAt [] i = Undrawn.
Proof. unfold strokeStateAt. now destruct i. Qed.

Lemma strokeStateAt_single (el : strokeEl) (i : nat) :
  (0 < i)%nat -> strokeStateAt [el] i = Undrawn.
Proof. unfold strokeStateAt. destruct i as [|[|i]]; [lia | reflexivity | reflexivity]. Qed.

(** A layer that draws the strokes in order has its whole strokes first, at
    most one partial stroke, and nothing after a stroke that is not whole. *)
Lemma revealsInOrder_states (strokes : list pathProp) (active : list strokeEl) :
  revealsInOrder strokes active ->
  (forall i j, (i < j)%nat -> strokeStateAt active j <> Undrawn ->
               strokeStateAt active i = FullyDrawn)
  /\ (forall i j f f', strokeStateAt active i = Partial f ->
                       strokeStateAt active j = Partial f' -> i = j)
  /\ (forall i j f, strokeStateAt active i = Partial f -> (i < j)%nat ->
                    strokeStateAt active j = Undrawn).
Proof.
  intros (k & [-> | (p & part & Hp & ->)]).
  - rewrite <- (app_nil_r (map fullPathOf (firstn k strokes))).
    set (pre := firstn k strokes).
    assert (St : forall i, strokeStateAt (map fullPathOf pre ++ []) i = FullyDrawn
                           \/ ((List.length pre <= i)%nat
                               /\ strokeStateAt (map fullPathOf pre ++ []) i = Undrawn)).
    { intros i. destruct (Nat.lt_ge_cases i (List.length pre)) as [H | H].
      - left. now apply strokeStateAt_prefix.
      - right. split; [exact H|]. rewrite strokeStateAt_tail by exact H.
        apply strokeStateAt_nil. }
    repeat split.
    + intros i j Hij Hj. destruct (St i) as [Hi | (Hi & _)]; [exact Hi|].
      destruct (St j) as [Hj' | (Hj' & Hu)]; [|congruence].
      destruct (Nat.lt_ge_cases j (List.length pre)) as [H | H]; [lia|].
      rewrite strokeStateAt_tail, strokeStateAt_nil in Hj by exact H. congruence.
    + intros i j f f' Hi. destruct (St i) as [H | (_ & H)]; congruence.
    + intros i j f Hi. destruct (St i) as [H | (_ & H)]; congruence.
  - set (pre := firstn k strokes).
    set (tail := [DashPath (p_d p) part (p_length p)]).
    assert (St : forall i,
               ((i < List.length pre)%nat
                /\ strokeStateAt (map fullPathOf pre ++ tail) i = FullyDrawn)
               \/ (i = List.length pre
                   /\ strokeStateAt (map fullPathOf pre ++ tail) i
                      = Partial (part / p_length p))
               \/ ((List.length pre < i)%nat
                   /\ strokeStateAt (map fullPathOf pre ++ tail) i = Undrawn)).
    { intros i. destruct (Nat.lt_trichotomy i (List.length pre)) as [H | [H | H]].
      - left. split; [exact H|]. now apply strokeStateAt_prefix.
      - right; left. split; [exact H|]. rewrite strokeStateAt_tail by lia.
        subst i. now rewrite Nat.sub_diag.
      - right; right. split; [exact H|]. rewrite strokeStateAt_tail by lia.
        apply strokeStateAt_single. lia. }
    repeat split.
    + intros i j Hij Hj.
      destruct (St i) as [(_ & H) | [(Hi & _) | (Hi & _)]]; [exact H | |];
        destruct (St j) as [(Hj' & _) | [(Hj' & _) | (_ & Hj')]];
        try lia; congruence.
    + intros i j f f' Hi Hj.
      destruct (St i) as [(_ & H) | [(Hi' & _) | (_ & H)]]; try congruence.
      destruct (St j) as [(_ & H) | [(Hj' & _) | (_ & H)]]; congruence.
    + intros i j f Hi Hij.
      destruct (St i) as [(_ & H) | [(Hi' & _) | (_ & H)]]; try congruence.
      destruct (St j) as [(Hj' & _) | [(Hj' & _) | (_ & H)]]; try lia. exact H.
Qed.

Lemma activeStrokes_revealsInOrder (ps : list pathProp) (g : Q) :
  revealsInOrder ps (activeStrokes ps 0 g).
Proof.
  destruct (activeStrokes_shape ps 0 g) as (k & [(H & _) | (p & Hp & H & _)]);
    exists k; [left | right]; eauto.
Qed.

(** C2. Every frame handed to the encoder respects the stroke order: its
    active layer is made of the first [k] strokes drawn whole, followed by
    nothing or by stroke [k] alone, dashed.  So a stroke that is drawn, wholly
    or partly, has every earlier stroke drawn whole, at most one stroke is
    partial, and every stroke after the partial one is undrawn. *)
Theorem reveal_respects_stroke_order
    (getTotalLength : string -> Q) (svgContent : list element)
    (outputPath : string) (width height : Z) (opts : options)
    (enc : encoder) (n : nat) (fr : rendered) :
  generateGif getTotalLength svgContent outputPath width height opts = Some enc ->
  nth_error (e_frames enc) n = Some fr ->
  let strokes := measurePaths getTotalLength (extractPaths svgContent) in
  let active := activeLayer (scene fr) in
  revealsInOrder strokes active
  /\ (forall i j, (i < j)%nat -> strokeStateAt active j <> Undrawn ->
                  strokeStateAt active i = FullyDrawn)
  /\ (forall i j f f', strokeStateAt active i = Partial f ->
                       strokeStateAt active j = Partial f' -> i = j)
  /\ (forall i j f, strokeStateAt active i = Partial f -> (i < j)%nat ->
                    strokeStateAt active j = Undrawn).
Proof.
  intros Hg Hn strokes active.
  destruct (generateGif_frame _ _ _ _ _ _ _ _ _ Hg Hn) as (t & e & _ & _ & _ & Hfr).
  assert (Hord : revealsInOrder strokes active).
  { subst active strokes. rewrite Hfr. cbn [scene renderFrame activeLayer buildFrameSvg].
    apply activeStrokes_revealsInOrder. }
  split; [exact Hord|]. now apply (revealsInOrder_states strokes).
Qed.

Lemma sampleEncoder_run :
  generateGif sampleLength sampleSvg "out.gif" 200 200 defaultOptions
  = Some sampleEncoder.
Proof. vm_compute. reflexivity. Defined.

Lemma sampleEncoder_frame (n : nat) :
  (n < 60)%nat ->
  nth_error (e_frames sampleEncoder) n = Some (sampleFrame (Z.of_nat n)).
Proof.
  intros H. unfold sampleEncoder, sampleFrame. cbn [e_frames].
  apply map_nth_error. apply frameIndices_nth_in. lia.
Defined.

Lemma reveal_respects_stroke_order_witness :
  generateGif sampleLength sampleSvg "out.gif" 200 200 defaultOptions
  = Some sampleEncoder
  /\ nth_error (e_frames sampleEncoder) 10 = Some (sampleFrame 10)
  /\ revealsInOrder sampleStrokes (activeLayer (scene (sampleFrame 10))).
Proof.
  assert (Hn : nth_error (e_frames sampleEncoder) 10 = Some (sampleFrame 10)).
  { vm_compute. reflexivity. }
  split; [exact sampleEncoder_run|]. split; [exact Hn|].
  exact (proj1 (reveal_respects_stroke_order sampleLength sampleSvg "out.gif"
                  200 200 defaultOptions sampleEncoder 10 (sampleFrame 10)
                  sampleEncoder_run Hn)).
Defined.

(** ** Monotonicity *)

Lemma strokeStateAt_full_iff (active : list strokeEl) (k : nat) :
  strokeStateAt active k = FullyDrawn <-> exists dv, nth_error active k = Some (FullPath dv).
Proof.
  unfold strokeStateAt. split.
  - destruct (nth_error active k) as [[dv|dv part len]|]; try discriminate. eauto.
  - intros (dv & ->). reflexivity.
Qed.

(** C3. Visible ink never recedes: for stroke lengths that are not negative
    and frame indices [0 <= i < j] (in particular within
    [[0, totalFrames]]), every stroke drawn whole in the scene of frame [i]
    is drawn whole in the scene of frame [j], and the visible fraction of
    every stroke, the partial one included, is at frame [j] at least what it
    is at frame [i]. *)
Theorem ink_never_recedes
    (opts : options) (paths : list path) (pathProps : list pathProp)
    (totalFrames i j : Z) :
  lengthsNonNegative pathProps ->
  (0 <= i)%Z -> (i < j)%Z ->
  let totalLength := totalLengthOf pathProps in
  let at_i := activeLayer (buildFrameSvg opts paths pathProps totalFrames totalLength i) in
  let at_j := activeLayer (buildFrameSvg opts paths pathProps totalFrames totalLength j) in
  (forall k, strokeStateAt at_i k = FullyDrawn -> strokeStateAt at_j k = FullyDrawn)
  /\ (forall k dv, nth_error at_i k = Some (FullPath dv) ->
                   nth_error at_j k = Some (FullPath dv))
  /\ (forall k, revealedFraction at_i k <= revealedFraction at_j k).
Proof.
  intros Hnn Hi Hij totalLength at_i at_j.
  assert (Hg : currentTotalProgress i totalFrames totalLength
               <= currentTotalProgress j totalFrames totalLength).
  { apply currentTotalProgress_mono; [now apply totalLengthOf_nonneg | lia | lia]. }
  subst at_i at_j. cbn [activeLayer buildFrameSvg].
  split; [|split].
  - intros k Hk. apply strokeStateAt_full_iff in Hk. destruct Hk as (dv & Hk).
    apply strokeStateAt_full_iff. exists dv.
    now apply (proj1 (activeStrokes_mono pathProps 0 _ _ k Hg)).
  - intros k dv. now apply (proj1 (activeStrokes_mono pathProps 0 _ _ k Hg)).
  - intros k. now apply (proj2 (activeStrokes_mono pathProps 0 _ _ k Hg)).
Qed.

Lemma sampleStrokes_nonneg : lengthsNonNegative sampleStrokes.
Proof. repeat constructor; discriminate. Defined.

Lemma ink_never_recedes_witness :
  revealedFraction (activeLayer (scene (sampleFrame 10))) 0
  <= revealedFraction (activeLayer (scene (sampleFrame 30))) 0
  /\ revealedFraction (activeLayer (scene (sampleFrame 10))) 1
     <= revealedFraction (activeLayer (scene (sampleFrame 30))) 1.
Proof.
  pose proof (ink_never_recedes defaultOptions (extractPaths sampleSvg)
                sampleStrokes 40 10 30 sampleStrokes_nonneg
                ltac:(lia) ltac:(lia)) as (_ & _ & H).
  split; [exact (H 0%nat) | exact (H 1%nat)].
Defined.


(** ** The progress allocation *)




(** ** Timing *)

Lemma animationDurationOf_relative (opts : options) (pathProps : list pathProp) :
  o_timing opts = "relative"%string ->
  animationDurationOf opts pathProps
  = Num (500 + Z.of_nat (List.length pathProps) * 200).
Proof. intros H. unfold animationDurationOf. now rewrite H. Qed.

Lemma animationDurationOf_fixed (opts : options) (pathProps : list pathProp) :
  o_timing opts <> "relative"%string ->
  animationDurationOf opts pathProps = o_duration opts.
Proof.
  intros H. unfold animationDurationOf.
  destruct (String.eqb_spec (o_timing opts) "relative"); [contradiction | reflexivity].
Qed.

Lemma measurePaths_length (getTotalLength : string -> Q) (paths : list path) :
  List.length (measurePaths getTotalLength paths) = List.length paths.
Proof. apply length_map. Qed.

(** C6. With the timing [relative] the animation lasts
    [500 + N * 200] ms for [N] strokes, 1100 ms for three strokes.  It is the
    same for two glyphs with as many strokes, and for the same paths under
    any two length functions: the lengths of the paths play no part. *)
Theorem relative_duration (opts : options) (pathProps : list pathProp) :
  o_timing opts = "relative"%string ->
  animationDurationOf opts pathProps
  = Num (500 + Z.of_nat (List.length pathProps) * 200)
  /\ (forall p1 p2 p3, animationDurationOf opts [p1; p2; p3] = Num 1100)
  /\ (forall pathProps',
         List.length pathProps' = List.length pathProps ->
         animationDurationOf opts pathProps' = animationDurationOf opts pathProps)
  /\ (forall (getTotalLength getTotalLength' : string -> Q) (paths : list path),
         animationDurationOf opts (measurePaths getTotalLength paths)
         = animationDurationOf opts (measurePaths getTotalLength' paths)).
Proof.
  intros H. split; [|split; [|split]].
  - now apply animationDurationOf_relative.
  - intros. now rewrite animationDurationOf_relative.
  - intros pathProps' Hlen. rewrite !animationDurationOf_relative by exact H.
    now rewrite Hlen.
  - intros. rewrite !animationDurationOf_relative by exact H.
    now rewrite !measurePaths_length.
Qed.

Lemma relative_duration_witness :
  animationDurationOf
    (mkOptions (Num 2000) (Num 20) "relative" None None None) sampleStrokes
  = Num 1100.
Proof.
  exact (proj1 (relative_duration
                  (mkOptions (Num 2000) (Num 20) "relative" None None None)
                  sampleStrokes eq_refl)).
Defined.


(** ** The hold *)




(** ** The empty glyph *)

(** C1, as stated, fails: for a glyph without any path [generateGif] hands
    no frame to the encoder. *)
Lemma empty_stroke_set_emits_no_frame :
  ~ (exists enc,
        generateGif sampleLength [] "out.gif" 200 200 defaultOptions = Some enc
        /\ (1 <= List.length (e_frames enc))%nat).
Proof. intros (enc & H & _). discriminate. Qed.

(** C1, amended. For a glyph from which no path is extracted [generateGif]
    returns at once, without an error and before any length, duration or
    frame count is computed: no encoder is set up, no frame is emitted and
    no output is written. *)
Theorem empty_stroke_set_returns
    (getTotalLength : string -> Q) (svgContent : list element)
    (outputPath : string) (width height : Z) (opts : options) :
  extractPaths svgContent = [] ->
  generateGif getTotalLength svgContent outputPath width height opts = None.
Proof. intros H. unfold generateGif. now rewrite H. Qed.

Lemma empty_stroke_set_returns_witness :
  generateGif sampleLength [mkElement None (Some "s1"%string)] "out.gif" 200 200
    defaultOptions = None.
Proof.
  exact (empty_stroke_set_returns sampleLength [mkElement None (Some "s1"%string)]
           "out.gif" 200 200 defaultOptions eq_refl).
Defined.

(** ** Configuration checks *)

Lemma parseArgs_exited (defaultOutDir : string) (args : list string) (m : string) :
  parseLoop args initialConfig = Exited m -> parseArgs defaultOutDir args = Exit1 m.
Proof. intros H. unfold parseArgs. now rewrite H. Qed.

Lemma totalFramesOf_nonpositive (a f : Z) :
  (0 <= a)%Z -> (f <= 0)%Z ->
  exists t, totalFramesOf (Num a) (Num f) = Num t /\ (t <= 0)%Z.
Proof.
  intros Ha Hf. eexists. split; [reflexivity|].
  rewrite <- (Qceiling_Z 0). apply Qceiling_resp_le.
  assert (Ha' : 0 <= inject_Z a) by (rewrite Zle_Qle in Ha; exact Ha).
  assert (Hf' : inject_Z f <= 0) by (rewrite Zle_Qle in Hf; exact Hf).
  assert (H1 : 0 <= inject_Z a / 1000).
  { apply Qle_shift_div_l; [reflexivity | lra]. }
  change (inject_Z 0) with 0.
  setoid_replace (inject_Z a / 1000 * inject_Z f)
    with (- (inject_Z a / 1000 * - inject_Z f)) by ring.
  assert (0 <= inject_Z a / 1000 * - inject_Z f).
  { apply Qmult_le_0_compat; [exact H1 | lra]. }
  lra.
Qed.

(** C9, as stated, fails.  [--fps 0] is accepted: the arguments parse to a
    configuration, [generateGif] is called, and the encoder is set up and
    finished, which writes the output file.  An unknown timing mode is
    accepted as well, and its 60 frames are rendered. *)
Lemma invalid_config_is_not_rejected :
  (exists c enc,
      parseArgs "kanji_custom" ["--format"; "gif"; "--fps"; "0"]%string = Config c
      /\ fps c = Num 0
      /\ processFileGif sampleLength sampleSvg "out.gif" c = GifCall (Some enc)
      /\ e_finished enc = true)
  /\ (exists c enc,
         parseArgs "kanji_custom" ["--format"; "gif"; "--timing"; "bogus"]%string
         = Config c
         /\ timing c = "bogus"%string
         /\ processFileGif sampleLength sampleSvg "out.gif" c = GifCall (Some enc)
         /\ List.length (e_frames enc) = 60%nat).
Proof.
  split; eexists; eexists; (split; [reflexivity|]); (split; [reflexivity|]);
    (split; [vm_compute; reflexivity|]); reflexivity.
Qed.

(** What [processFile] takes for a size that is not usable. *)
Lemma numOrDefault_falsy (v : option number) (dflt : Z) :
  truthyNum v = false -> numOrDefault v dflt = dflt.
Proof.
  destruct v as [[|z]|]; cbn; try reflexivity.
  destruct (z =? 0)%Z; [reflexivity | discriminate].
Qed.

(** C9, amended.  The only check on the configuration is made while the
    arguments are read: when the loop arrives at [--width], [--height],
    [--duration] or [--fps] and the next argument is missing, empty or starts
    with [-], [parseArgs] exits with status 1 and a message that names the
    option, before anything is rendered.  What parses is used as it is: a
    timing other than [relative] is the fixed timing; a width that is 0,
    [NaN] or not given becomes what the height becomes, and a height the
    width: the other size when that one is usable, the default size when
    neither is; and a run of [generateGif] that reaches the encoder with
    [fps <= 0] and a duration that is not negative hands it no frame. *)
Theorem config_checks
    (defaultOutDir : string) (args rest : list string) (c : config)
    (option : string) :
  In option ["--width"; "--height"; "--duration"; "--fps"]%string ->
  parseLoop args initialConfig = parseLoop (option :: rest) c ->
  requiredValue (nextArg rest) = None ->
  parseArgs defaultOutDir args
  = Exit1 ("Error: " ++ option ++ " requires a value")%string
  /\ (forall opts pathProps,
         o_timing opts <> "relative"%string ->
         animationDurationOf opts pathProps = o_duration opts)
  /\ (forall args' c0 c' dflt,
         parseLoop args' initialConfig = Completed c0 ->
         parseArgs defaultOutDir args' = Config c' ->
         (truthyNum (width c0) = false ->
          numOrDefault (width c') dflt = numOrDefault (height c0) dflt)
         /\ (truthyNum (height c0) = false ->
             numOrDefault (height c') dflt = numOrDefault (width c0) dflt))
  /\ (forall getTotalLength svgContent outputPath width height opts enc a f,
         generateGif getTotalLength svgContent outputPath width height opts
         = Some enc ->
         animationDurationOf opts
           (measurePaths getTotalLength (extractPaths svgContent)) = Num a ->
         o_fps opts = Num f ->
         (0 <= a)%Z -> (f <= 0)%Z ->
         e_frames enc = []).
Proof.
  intros Hopt Hloop Hval. split; [|split; [|split]].
  - apply parseArgs_exited. rewrite Hloop.
    cbn [In] in Hopt.
    destruct Hopt as [<- | [<- | [<- | [<- | []]]]];
      cbn [parseLoop String.eqb Ascii.eqb Bool.eqb orb]; now rewrite Hval.
  - intros. now apply animationDurationOf_fixed.
  - intros args' c0 c' dflt Hc0. unfold parseArgs. rewrite Hc0. cbv zeta.
    destruct (truthyNum (width c0)) eqn:Ew;
      destruct (truthyNum (height c0)) eqn:Eh;
      cbn [andb negb setHeight setWidth width height];
      rewrite ?Ew, ?Eh; cbn [andb negb setHeight setWidth width height].
    all: intros Hc'; split; intros Hf; try discriminate.
    all: destruct (mode _); [|destruct (negb _)]; injection Hc' as <-;
      cbn [setOutDir width height];
      rewrite ?(numOrDefault_falsy _ dflt Ew), ?(numOrDefault_falsy _ dflt Eh);
      reflexivity.
  - intros gl svg out w h opts enc a f Hg Ha Hf Ha0 Hf0.
    destruct (generateGif_some _ _ _ _ _ _ enc Hg) as (_ & _ & _ & Hfr).
    rewrite Hfr, Ha, Hf.
    destruct (totalFramesOf_nonpositive a f Ha0 Hf0) as (t & -> & Ht).
    unfold frameIndices.
    replace (Z.to_nat (t + f)) with 0%nat by lia. reflexivity.
Qed.

(** [--fps -5] is refused with the name of the option; [--width 0 --height 300]
    is accepted and gives the width 300. *)
Lemma config_checks_witness :
  parseArgs "kanji_custom" ["--format"; "gif"; "--fps"; "-5"]%string
  = Exit1 "Error: --fps requires a value"
  /\ exists c',
       parseArgs "kanji_custom"
         ["--format"; "gif"; "--width"; "0"; "--height"; "300"]%string
       = Config c'
       /\ numOrDefault (width c') 200 = 300%Z.
Proof.
  pose proof (config_checks "kanji_custom"
                ["--format"; "gif"; "--fps"; "-5"]%string ["-5"%string]
                (custom (setFormat initialConfig (Some "gif"%string)))
                "--fps" ltac:(cbn; auto) eq_refl eq_refl) as (H1 & _ & H3 & _).
  split; [exact H1|].
  exists (setOutDir
            (setWidth
               (custom (setHeight
                          (custom (setWidth
                                     (custom (setFormat initialConfig
                                                (Some "gif"%string)))
                                     (Some (Num 0))))
                          (Some (Num 300))))
               (Some (Num 300)))
            (Some "kanji_custom"%string)).
  split; [vm_compute; reflexivity|].
  refine (proj1 (H3 ["--format"; "gif"; "--width"; "0"; "--height"; "300"]%string
                   (custom (setHeight
                              (custom (setWidth
                                         (custom (setFormat initialConfig
                                                    (Some "gif"%string)))
                                         (Some (Num 0))))
                              (Some (Num 300))))
                   _ 200%Z _ _) _);
    vm_compute; reflexivity.
Defined.

(** ** Sample runs *)

Example parseInt_samples :
  ParseInt.parseInt "20" = Num 20
  /\ ParseInt.parseInt "12px" = Num 12
  /\ ParseInt.parseInt " -5" = Num (-5)
  /\ ParseInt.parseInt "0x1f" = Num 31
  /\ ParseInt.parseInt "fast" = NaN.
Proof. repeat split. Qed.

Example parseArgs_sample :
  parseArgs "kanji_custom"
    ["-k"; "A"; "--format"; "GIF"; "--width"; "300"; "--timing"; "relative"]%string
  = Config
      {| help := false;
         file := Some "00041.svg"%string;
         mode := ModeCustom;
         format := Some "gif"%string;
         width := Some (Num 300);
         height := Some (Num 300);
         outDir := Some "kanji_custom"%string;
         bg := Some "white"%string;
         color := Some "#000000"%string;
         guide := Some "#dddddd"%string;
         duration := Num 2000;
         fps := Num 20;
         timing := "relative"%string;
         strokeDuration := 200 |}.
Proof. reflexivity. Qed.

Example preprocessSvg_sample :
  preprocessSvg "<!DOCTYPE svg><svg width='109'><path d='M0,0h10'/></svg>"
  = (svgTagWithKvg ++ " width='109'><path d='M0,0h10'/></svg>")%string.
Proof. reflexivity. Qed.

Example parseArgs_kanji :
  Utf8.codePointAt0 kanjiOne = 19968%Z
  /\ exists c,
       parseArgs "kanji_custom" ["-k"%string; kanjiOne] = Config c
       /\ file c = Some "04e00.svg"%string
       /\ mode c = ModeDefault.
Proof. split; [reflexivity|]. eexists. repeat split. Qed.

(* ================================================================== *)
(** * Binary64 *)

(** ** The rounding *)

Module Binary64Facts.

Import Binary64.

Local Open Scope Q_scope.


Lemma rne_floor (q : Q) : (Qfloor q <= rne q <= Qfloor q + 1)%Z.
Proof.
  unfold rne. destruct (Qcompare _ _); try destruct (Z.even _); lia.
Qed.

Lemma rne_mono (q1 q2 : Q) : q1 <= q2 -> (rne q1 <= rne q2)%Z.
Proof.
  intros H. pose proof (Qfloor_resp_le q1 q2 H) as Hf.
  destruct (Z.eq_dec (Qfloor q1) (Qfloor q2)) as [E | E].
  - unfold rne. rewrite <- E.
    destruct (Qcompare_spec (q1 - inject_Z (Qfloor q1)) (1 # 2));
      destruct (Qcompare_spec (q2 - inject_Z (Qfloor q1)) (1 # 2));
      try destruct (Z.even (Qfloor q1)); try lia; exfalso; lra.
  - pose proof (rne_floor q1). pose proof (rne_floor q2). lia.
Qed.

Lemma rne_eq (q1 q2 : Q) : q1 == q2 -> rne q1 = rne q2.
Proof.
  intros H. apply Z.le_antisymm; apply rne_mono; lra.
Qed.

Lemma rne_Z (n : Z) : rne (inject_Z n) = n.
Proof.
  unfold rne. rewrite Qfloor_Z.
  destruct (Qcompare_spec (inject_Z n - inject_Z n) (1 # 2)); try reflexivity;
    exfalso; lra.
Qed.

Lemma pow2_pos (e : Z) : 0 < pow2 e.
Proof. apply Qpower_0_lt. reflexivity. Qed.

Lemma pow2_plus (a b : Z) : pow2 (a + b) == pow2 a * pow2 b.
Proof. apply Qpower_plus. discriminate. Qed.

Lemma pow2_le (a b : Z) : (a <= b)%Z -> pow2 a <= pow2 b.
Proof. intros H. apply Qpower_le_compat_l; [exact H | discriminate]. Qed.

Lemma pow2_lt (a b : Z) : (a < b)%Z -> pow2 a < pow2 b.
Proof. intros H. apply Qpower_lt_compat_l; [exact H | reflexivity]. Qed.

Lemma pow2_lt_inv (a b : Z) : pow2 a < pow2 b -> (a < b)%Z.
Proof.
  intros H. destruct (Z_lt_le_dec a b) as [|Hle]; [assumption|].
  apply pow2_le in Hle. lra.
Qed.

Lemma pow2_Z (n : Z) : (0 <= n)%Z -> pow2 n == inject_Z (2 ^ n).
Proof. intros H. unfold pow2. now rewrite (Zpower_Qpower 2 n H). Qed.

Lemma ilog2_spec (x : Q) :
  0 < x -> pow2 (ilog2 x) <= x /\ x < pow2 (ilog2 x + 1).
Proof.
  intros Hx. destruct x as [n d].
  assert (Hn : (0 < n)%Z).
  { unfold Qlt in Hx. cbn in Hx. lia. }
  set (a := Z.log2 n). set (b := Z.log2 (Z.pos d)).
  assert (Ha0 : (0 <= a)%Z) by apply Z.log2_nonneg.
  assert (Hb0 : (0 <= b)%Z) by apply Z.log2_nonneg.
  destruct (Z.log2_spec n Hn) as (Ha1 & Ha2). fold a in Ha1, Ha2.
  destruct (Z.log2_spec (Z.pos d) ltac:(lia)) as (Hb1 & Hb2). fold b in Hb1, Hb2.
  set (N := inject_Z n). set (D := inject_Z (Z.pos d)).
  assert (HN1 : pow2 a <= N).
  { rewrite pow2_Z by lia. unfold N. now rewrite <- Zle_Qle. }
  assert (HN2 : N < pow2 (a + 1)).
  { rewrite pow2_Z by lia. unfold N. rewrite <- Zlt_Qlt. unfold Z.succ in Ha2. lia. }
  assert (HD1 : pow2 b <= D).
  { rewrite pow2_Z by lia. unfold D. now rewrite <- Zle_Qle. }
  assert (HD2 : D < pow2 (b + 1)).
  { rewrite pow2_Z by lia. unfold D. rewrite <- Zlt_Qlt. unfold Z.succ in Hb2. lia. }
  assert (HD0 : 0 < D) by (pose proof (pow2_pos b); lra).
  assert (HxD : (n # d) * D == N).
  { rewrite (Qmake_Qdiv n d). fold N D. field. lra. }
  set (x := n # d) in *.
  assert (Hup : x < pow2 (a - b + 1)).
  { apply Qnot_le_lt. intros Hc.
    assert (pow2 (a - b + 1) * pow2 b <= x * D).
    { apply Qmult_le_compat_nonneg; split; try assumption;
        apply Qlt_le_weak; apply pow2_pos. }
    rewrite <- pow2_plus in H. replace (a - b + 1 + b)%Z with (a + 1)%Z in H by lia.
    lra. }
  assert (Hlo : pow2 (a - b - 1) < x).
  { apply Qnot_le_lt. intros Hc.
    assert (x * D <= pow2 (a - b - 1) * D).
    { apply Qmult_le_compat_r; [exact Hc | lra]. }
    assert (pow2 (a - b - 1) * D < pow2 (a - b - 1) * pow2 (b + 1)).
    { apply Qmult_lt_l; [apply pow2_pos | exact HD2]. }
    rewrite <- pow2_plus in H0. replace (a - b - 1 + (b + 1))%Z with a in H0 by lia.
    lra. }
  unfold ilog2. subst x. cbn [Qnum Qden]. fold a b.
  destruct (Qle_bool (pow2 (a - b)) (n # d)) eqn:E.
  - apply Qle_bool_iff in E. split; assumption.
  - replace (a - b - 1 + 1)%Z with (a - b)%Z by lia. split; [lra|].
    apply Qnot_le_lt. intros Hc. apply Qle_bool_iff in Hc. congruence.
Qed.

Lemma ilog2_unique (x : Q) (k : Z) :
  pow2 k <= x -> x < pow2 (k + 1) -> ilog2 x = k.
Proof.
  intros H1 H2. assert (Hx : 0 < x) by (pose proof (pow2_pos k); lra).
  destruct (ilog2_spec x Hx) as (S1 & S2).
  assert (pow2 k < pow2 (ilog2 x + 1)) by lra.
  assert (pow2 (ilog2 x) < pow2 (k + 1)) by lra.
  apply pow2_lt_inv in H, H0. lia.
Qed.

Lemma ilog2_mono (x y : Q) : 0 < x -> x <= y -> (ilog2 x <= ilog2 y)%Z.
Proof.
  intros Hx Hxy.
  destruct (ilog2_spec x Hx) as (X1 & X2).
  destruct (ilog2_spec y ltac:(lra)) as (Y1 & Y2).
  assert (pow2 (ilog2 x) < pow2 (ilog2 y + 1)) by lra.
  apply pow2_lt_inv in H. lia.
Qed.

Lemma expo_ge (x : Q) : (-1074 <= expo x)%Z.
Proof. unfold expo. lia. Qed.

Lemma expo_upper (x : Q) : 0 < x -> x < pow2 (expo x + 53).
Proof.
  intros Hx. destruct (ilog2_spec x Hx) as (_ & H).
  assert (pow2 (ilog2 x + 1) <= pow2 (expo x + 53)) by (apply pow2_le; unfold expo; lia).
  lra.
Qed.

Lemma expo_lower (x : Q) :
  0 < x -> (-1074 < expo x)%Z -> pow2 (expo x + 52) <= x.
Proof.
  intros Hx He. destruct (ilog2_spec x Hx) as (H & _).
  replace (expo x + 52)%Z with (ilog2 x) by (unfold expo in *; lia). exact H.
Qed.

Lemma expo_mono (x y : Q) : 0 < x -> x <= y -> (expo x <= expo y)%Z.
Proof.
  intros Hx Hxy. pose proof (ilog2_mono x y Hx Hxy). unfold expo. lia.
Qed.

Lemma scaled_mult (x : Q) (e : Z) : x / pow2 e * pow2 e == x.
Proof. field. pose proof (pow2_pos e). lra. Qed.

Lemma roundPos_nonneg (x : Q) : 0 <= x -> 0 <= roundPos x.
Proof.
  intros Hx. unfold roundPos.
  assert (H : (0 <= rne (x / pow2 (expo x)))%Z).
  { rewrite <- (rne_Z 0). apply rne_mono. change (inject_Z 0) with 0.
    apply Qle_shift_div_l; [apply pow2_pos | lra]. }
  apply Qmult_le_0_compat.
  - rewrite Zle_Qle in H. exact H.
  - apply Qlt_le_weak, pow2_pos.
Qed.

(** The result of rounding a positive number is [m * 2^e] with a mantissa
    [m] of at most 53 bits, and of 53 bits unless [e] is the least exponent. *)
Lemma roundPos_form (x : Q) :
  0 < x ->
  let m := rne (x / pow2 (expo x)) in
  (0 <= m <= 2 ^ 53)%Z /\ ((m < 2 ^ 52)%Z -> expo x = (-1074)%Z).
Proof.
  intros Hx m. pose proof (pow2_pos (expo x)) as Hp. repeat split.
  - subst m. rewrite <- (rne_Z 0). apply rne_mono. change (inject_Z 0) with 0.
    apply Qle_shift_div_l; [exact Hp | lra].
  - subst m. rewrite <- (rne_Z (2 ^ 53)). apply rne_mono.
    rewrite <- pow2_Z by lia. apply Qle_shift_div_r; [exact Hp|].
    rewrite <- pow2_plus, Z.add_comm. apply Qlt_le_weak, expo_upper, Hx.
  - intros Hm. destruct (Z.eq_dec (expo x) (-1074)) as [|Hne]; [assumption|].
    exfalso. pose proof (expo_ge x).
    assert (Hlow : pow2 (expo x + 52) <= x) by (apply expo_lower; [exact Hx | lia]).
    assert ((2 ^ 52 <= m)%Z); [|lia].
    subst m. rewrite <- (rne_Z (2 ^ 52)). apply rne_mono.
    rewrite <- pow2_Z by lia. apply Qle_shift_div_l; [exact Hp|].
    rewrite <- pow2_plus, Z.add_comm. exact Hlow.
Qed.

Lemma roundPos_upper (x : Q) : 0 < x -> roundPos x <= pow2 (expo x + 53).
Proof.
  intros Hx. destruct (roundPos_form x Hx) as ((_ & Hm) & _).
  unfold roundPos. pose proof (pow2_pos (expo x)) as Hp.
  rewrite Zle_Qle, <- pow2_Z in Hm by lia.
  assert (H : inject_Z (rne (x / pow2 (expo x))) * pow2 (expo x)
              <= pow2 53 * pow2 (expo x)).
  { apply Qmult_le_compat_r; [exact Hm | lra]. }
  rewrite pow2_plus. lra.
Qed.

Lemma roundPos_lower (x : Q) :
  0 < x -> (-1074 < expo x)%Z -> pow2 (expo x + 52) <= roundPos x.
Proof.
  intros Hx He. destruct (roundPos_form x Hx) as (_ & Hsub).
  unfold roundPos. pose proof (pow2_pos (expo x)) as Hp.
  assert (Hm : (2 ^ 52 <= rne (x / pow2 (expo x)))%Z).
  { destruct (Z_lt_le_dec (rne (x / pow2 (expo x))) (2 ^ 52)) as [Hlt|]; [|assumption].
    specialize (Hsub Hlt). lia. }
  rewrite Zle_Qle, <- pow2_Z in Hm by lia.
  assert (H : pow2 52 * pow2 (expo x)
              <= inject_Z (rne (x / pow2 (expo x))) * pow2 (expo x)).
  { apply Qmult_le_compat_r; [exact Hm | lra]. }
  rewrite pow2_plus. lra.
Qed.

Lemma roundPos_mono (x y : Q) : 0 < x -> x <= y -> roundPos x <= roundPos y.
Proof.
  intros Hx Hxy. assert (Hy : 0 < y) by lra.
  pose proof (expo_mono x y Hx Hxy) as He.
  destruct (Z.eq_dec (expo x) (expo y)) as [E | E].
  - unfold roundPos. rewrite E.
    apply Qmult_le_compat_r; [|apply Qlt_le_weak, pow2_pos].
    rewrite <- Zle_Qle. apply rne_mono.
    unfold Qdiv. apply Qmult_le_compat_r; [exact Hxy|].
    apply Qlt_le_weak, Qinv_lt_0_compat, pow2_pos.
  - pose proof (roundPos_upper x Hx) as Hu.
    pose proof (expo_ge x) as Hg.
    pose proof (roundPos_lower y Hy ltac:(lia)) as Hl.
    assert (pow2 (expo x + 53) <= pow2 (expo y + 52)) by (apply pow2_le; lia).
    lra.
Qed.

Lemma roundPos_eq (x y : Q) : 0 < x -> x == y -> roundPos x == roundPos y.
Proof.
  intros Hx Hxy. apply Qle_antisym; apply roundPos_mono; lra.
Qed.

Lemma round64_pos (x : Q) : 0 < x -> round64 x = roundPos x.
Proof.
  intros H. unfold round64. destruct (Qcompare_spec x 0); try reflexivity; exfalso; lra.
Qed.

Lemma round64_neg (x : Q) : x < 0 -> round64 x = - roundPos (- x).
Proof.
  intros H. unfold round64. destruct (Qcompare_spec x 0); try reflexivity; exfalso; lra.
Qed.

Lemma round64_zero (x : Q) : x == 0 -> round64 x = 0.
Proof.
  intros H. unfold round64. destruct (Qcompare_spec x 0); try reflexivity; exfalso; lra.
Qed.

(** IEEE rounding is monotone. *)
Lemma round64_mono (x y : Q) : x <= y -> round64 x <= round64 y.
Proof.
  intros H.
  destruct (Qcompare_spec x 0) as [Hx | Hx | Hx];
    destruct (Qcompare_spec y 0) as [Hy | Hy | Hy]; try (exfalso; lra).
  - rewrite (round64_zero x Hx), (round64_zero y Hy). lra.
  - rewrite (round64_zero x Hx), (round64_pos y Hy).
    apply roundPos_nonneg. lra.
  - rewrite (round64_neg x Hx), (round64_zero y Hy).
    pose proof (roundPos_nonneg (- x)). lra.
  - rewrite (round64_neg x Hx), (round64_neg y Hy).
    pose proof (roundPos_mono (- y) (- x)). lra.
  - rewrite (round64_neg x Hx), (round64_pos y Hy).
    pose proof (roundPos_nonneg (- x)). pose proof (roundPos_nonneg y). lra.
  - rewrite (round64_pos x Hx), (round64_pos y Hy).
    now apply roundPos_mono.
Qed.

Lemma round64_eq (x y : Q) : x == y -> round64 x == round64 y.
Proof. intros H. apply Qle_antisym; apply round64_mono; lra. Qed.

(** A value [m * 2^e] with at most 53 bits, and [e] the least exponent when
    it has fewer, is a double. *)
Lemma roundPos_fixed (m e : Z) :
  (-1074 <= e)%Z -> (0 < m <= 2 ^ 53)%Z -> ((m < 2 ^ 52)%Z -> e = (-1074)%Z) ->
  roundPos (inject_Z m * pow2 e) == inject_Z m * pow2 e.
Proof.
  intros He (Hm0 & Hm1) Hsub.
  set (y := inject_Z m * pow2 e).
  assert (HM0 : 0 < inject_Z m) by (rewrite Zlt_Qlt in Hm0; exact Hm0).
  assert (HM1 : inject_Z m <= pow2 53).
  { rewrite pow2_Z by lia. now rewrite <- Zle_Qle. }
  assert (Hy : 0 < y).
  { subst y. apply Qmult_lt_0_compat; [exact HM0 | apply pow2_pos]. }
  pose proof (pow2_pos e) as Hpe.
  destruct (Z.eq_dec m (2 ^ 53)) as [E53 | N53].
  - (* the mantissa overflows into the next binade *)
    assert (Hyv : y == pow2 (e + 53)).
    { subst y. rewrite E53, <- pow2_Z by lia. rewrite pow2_plus. ring. }
    assert (Hil : ilog2 y = (e + 53)%Z).
    { apply ilog2_unique.
      - rewrite Hyv. apply Qle_refl.
      - rewrite Hyv. apply pow2_lt. lia. }
    assert (Hex : expo y = (e + 1)%Z) by (unfold expo; rewrite Hil; lia).
    unfold roundPos. rewrite Hex.
    assert (Hs : y / pow2 (e + 1) == inject_Z (2 ^ 52)).
    { rewrite Hyv. rewrite <- pow2_Z by lia.
      replace (e + 53)%Z with (52 + (e + 1))%Z by lia.
      rewrite pow2_plus. field. pose proof (pow2_pos (e + 1)). lra. }
    rewrite (rne_eq _ _ Hs), rne_Z. rewrite Hyv, <- pow2_Z by lia.
    rewrite <- pow2_plus. replace (52 + (e + 1))%Z with (e + 53)%Z by lia.
    reflexivity.
  - assert (Hex : expo y = e).
    { destruct (Z_lt_le_dec m (2 ^ 52)) as [Hlt | Hge].
      + (* subnormal *)
        specialize (Hsub Hlt). subst e.
        destruct (ilog2_spec y Hy) as (S1 & _).
        assert (y < pow2 (-1074 + 52)).
        { subst y. rewrite pow2_plus, (Qmult_comm (pow2 (-1074))).
          apply Qmult_lt_compat_r; [exact Hpe|].
          rewrite pow2_Z by lia. now rewrite <- Zlt_Qlt. }
        assert (pow2 (ilog2 y) < pow2 (-1074 + 52)) by lra.
        apply pow2_lt_inv in H0. unfold expo. lia.
      + assert (Hil : ilog2 y = (e + 52)%Z).
        { apply ilog2_unique; subst y.
          - rewrite pow2_plus, (Qmult_comm (pow2 e)).
            apply Qmult_le_compat_r; [|lra].
            rewrite pow2_Z by lia. now rewrite <- Zle_Qle.
          - replace (e + 52 + 1)%Z with (e + 53)%Z by lia.
            rewrite pow2_plus, (Qmult_comm (pow2 e)).
            apply Qmult_lt_compat_r; [exact Hpe|].
            rewrite pow2_Z by lia. rewrite <- Zlt_Qlt. lia. }
        unfold expo. rewrite Hil. lia. }
    unfold roundPos. rewrite Hex.
    assert (Hs : y / pow2 e == inject_Z m).
    { subst y. field. lra. }
    rewrite (rne_eq _ _ Hs), rne_Z. reflexivity.
Qed.

Lemma roundPos_idem (x : Q) : 0 < x -> round64 (roundPos x) == roundPos x.
Proof.
  intros Hx. destruct (roundPos_form x Hx) as ((Hm0 & Hm1) & Hsub).
  set (m := rne (x / pow2 (expo x))) in *.
  destruct (Z.eq_dec m 0) as [E0 | N0].
  - assert (Hz : roundPos x == 0).
    { unfold roundPos. fold m. rewrite E0. change (inject_Z 0) with 0. ring. }
    rewrite (round64_zero _ Hz). now rewrite Hz.
  - assert (Hpos : 0 < roundPos x).
    { unfold roundPos. fold m. apply Qmult_lt_0_compat; [|apply pow2_pos].
      change 0 with (inject_Z 0). rewrite <- Zlt_Qlt. lia. }
    rewrite (round64_pos _ Hpos). unfold roundPos at 1 3. fold m.
    change (roundPos (inject_Z m * pow2 (expo x)) == inject_Z m * pow2 (expo x)).
    apply roundPos_fixed; [apply expo_ge | lia | exact Hsub].
Qed.

(** Rounding a double gives it back. *)
Lemma round64_idem (x : Q) : round64 (round64 x) == round64 x.
Proof.
  destruct (Qcompare_spec x 0) as [Hx | Hx | Hx].
  - rewrite (round64_zero x Hx). reflexivity.
  - rewrite (round64_neg x Hx).
    assert (Hn : 0 < - x) by lra.
    pose proof (roundPos_nonneg (- x) ltac:(lra)) as H0.
    destruct (Qeq_dec (roundPos (- x)) 0) as [Hz | Hnz].
    + rewrite (round64_zero (- roundPos (- x))) by lra. lra.
    + rewrite (round64_neg (- roundPos (- x))) by lra.
      assert (Hp : 0 < roundPos (- x)) by lra.
      rewrite (roundPos_eq (- - roundPos (- x)) (roundPos (- x))) by lra.
      rewrite <- (round64_pos (roundPos (- x)) Hp).
      now rewrite (roundPos_idem (- x) Hn).
  - rewrite (round64_pos x Hx). now apply roundPos_idem.
Qed.

(** Every result of a rounding is a multiple of the least subnormal. *)
Lemma roundPos_grid (x : Q) : exists k : Z, roundPos x == inject_Z k * pow2 (-1074).
Proof.
  unfold roundPos. pose proof (expo_ge x) as He.
  generalize (rne (x / pow2 (expo x))). intros m.
  exists (m * 2 ^ (expo x + 1074))%Z.
  assert (Hp : pow2 (expo x) == pow2 (expo x + 1074) * pow2 (-1074)).
  { rewrite <- pow2_plus. replace (expo x + 1074 + -1074)%Z with (expo x) by lia.
    reflexivity. }
  rewrite Hp, inject_Z_mult, <- pow2_Z by lia. ring.
Qed.

Lemma round64_grid (x : Q) : exists k : Z, round64 x == inject_Z k * pow2 (-1074).
Proof.
  destruct (Qcompare_spec x 0) as [Hx | Hx | Hx].
  - exists 0%Z. rewrite (round64_zero x Hx). ring.
  - rewrite (round64_neg x Hx). destruct (roundPos_grid (- x)) as [k Hk].
    exists (- k)%Z. rewrite Hk, inject_Z_opp. ring.
  - rewrite (round64_pos x Hx). apply roundPos_grid.
Qed.

(** The least subnormal is a double. *)
Lemma round64_unit : round64 (pow2 (-1074)) == pow2 (-1074).
Proof.
  rewrite round64_pos by apply pow2_pos.
  rewrite (roundPos_eq _ (inject_Z 1 * pow2 (-1074))).
  - rewrite roundPos_fixed; [ring | lia | lia | reflexivity].
  - apply pow2_pos.
  - ring.
Qed.

(** The difference of two distinct doubles does not round to zero. *)
Lemma round64_pos_diff (a b : Q) :
  round64 a == a -> round64 b == b -> a < b -> 0 < round64 (b - a).
Proof.
  intros Ha Hb Hab.
  destruct (round64_grid a) as [ka Hka]. destruct (round64_grid b) as [kb Hkb].
  rewrite Ha in Hka. rewrite Hb in Hkb.
  pose proof (pow2_pos (-1074)) as Hu.
  assert (Hk : (ka + 1 <= kb)%Z).
  { destruct (Z_lt_le_dec ka kb) as [H | H]; [lia|]. exfalso.
    rewrite Zle_Qle in H.
    assert (inject_Z kb * pow2 (-1074) <= inject_Z ka * pow2 (-1074)).
    { apply Qmult_le_compat_r; [exact H | lra]. }
    lra. }
  rewrite Zle_Qle, inject_Z_plus in Hk. change (inject_Z 1) with 1 in Hk.
  assert (Hd : pow2 (-1074) <= b - a).
  { assert ((inject_Z ka + 1) * pow2 (-1074) <= inject_Z kb * pow2 (-1074)).
    { apply Qmult_le_compat_r; [exact Hk | lra]. }
    lra. }
  apply (Qlt_le_trans _ (pow2 (-1074))); [exact Hu|].
  rewrite <- round64_unit. apply round64_mono. exact Hd.
Qed.

(** Integers of at most 53 bits are doubles. *)
Lemma roundPos_Z (n : Z) :
  (0 < n <= 2 ^ 53)%Z -> roundPos (inject_Z n) == inject_Z n.
Proof.
  intros (Hn0 & Hn1).
  assert (HN : 0 < inject_Z n) by (rewrite Zlt_Qlt in Hn0; exact Hn0).
  destruct (Z.eq_dec n (2 ^ 53)) as [E | N].
  - rewrite (roundPos_eq _ (inject_Z n * pow2 0)).
    + rewrite roundPos_fixed; [change (pow2 0) with 1; ring | lia | lia | lia].
    + exact HN.
    + change (pow2 0) with 1. ring.
  - pose proof (Z.log2_spec n Hn0) as (L0 & L1).
    pose proof (Z.log2_nonneg n) as Lnn.
    set (l := Z.log2 n) in *.
    assert (Hl : (l <= 52)%Z).
    { destruct (Z_le_gt_dec l 52) as [H | H]; [exact H | exfalso].
      assert ((2 ^ 53 <= 2 ^ l)%Z) by (apply Z.pow_le_mono_r; lia). lia. }
    assert (Hm0 : (2 ^ 52 <= n * 2 ^ (52 - l))%Z).
    { replace (2 ^ 52)%Z with (2 ^ l * 2 ^ (52 - l))%Z
        by (rewrite <- Z.pow_add_r by lia; f_equal; lia).
      apply Z.mul_le_mono_nonneg_r; [apply Z.pow_nonneg; lia | exact L0]. }
    assert (Hm1 : (n * 2 ^ (52 - l) < 2 ^ 53)%Z).
    { replace (2 ^ 53)%Z with (2 ^ Z.succ l * 2 ^ (52 - l))%Z
        by (rewrite <- Z.pow_add_r by lia; f_equal; lia).
      apply Z.mul_lt_mono_pos_r; [apply Z.pow_pos_nonneg; lia | exact L1]. }
    assert (Hq : inject_Z n == inject_Z (n * 2 ^ (52 - l)) * pow2 (l - 52)).
    { rewrite inject_Z_mult, <- pow2_Z by lia.
      rewrite <- Qmult_assoc, <- pow2_plus.
      replace (52 - l + (l - 52))%Z with 0%Z by lia.
      change (pow2 0) with 1. ring. }
    rewrite (roundPos_eq _ _ HN Hq).
    rewrite roundPos_fixed; [symmetry; exact Hq | lia | lia | lia].
Qed.

Lemma round64_Z (n : Z) :
  (Z.abs n <= 2 ^ 53)%Z -> round64 (inject_Z n) == inject_Z n.
Proof.
  intros Hn. destruct (Z.lt_trichotomy n 0) as [H | [H | H]].
  - assert (HN : inject_Z n < 0) by (rewrite Zlt_Qlt in H; exact H).
    rewrite (round64_neg _ HN).
    rewrite (roundPos_eq (- inject_Z n) (inject_Z (- n))).
    + rewrite roundPos_Z by lia. rewrite inject_Z_opp. ring.
    + lra.
    + rewrite inject_Z_opp. reflexivity.
  - subst n. reflexivity.
  - assert (HN : 0 < inject_Z n) by (rewrite Zlt_Qlt in H; exact H).
    rewrite (round64_pos _ HN). apply roundPos_Z. lia.
Qed.

(** The nearest integer is within a half. *)
Lemma rne_half (q : Q) :
  q - (1 # 2) <= inject_Z (rne q) /\ inject_Z (rne q) <= q + (1 # 2).
Proof.
  pose proof (Qfloor_le q) as H1. pose proof (Qlt_floor q) as H2.
  rewrite inject_Z_plus in H2. change (inject_Z 1) with 1 in H2.
  unfold rne. destruct (Qcompare_spec (q - inject_Z (Qfloor q)) (1 # 2)) as [H | H | H].
  - destruct (Z.even (Qfloor q)).
    + lra.
    + rewrite inject_Z_plus. change (inject_Z 1) with 1. lra.
  - lra.
  - rewrite inject_Z_plus. change (inject_Z 1) with 1. lra.
Qed.

(** The relative error of a rounding in the normal range is at most
    [2^-53]. *)
Lemma roundPos_err (x : Q) :
  pow2 (-1022) <= x ->
  x - x * pow2 (-53) <= roundPos x /\ roundPos x <= x + x * pow2 (-53).
Proof.
  intros Hn. pose proof (pow2_pos (-1022)) as Hp0.
  assert (Hx : 0 < x) by lra.
  destruct (ilog2_spec x Hx) as (L1 & L2).
  assert (Hl : (-1022 <= ilog2 x)%Z).
  { assert (pow2 (-1022) < pow2 (ilog2 x + 1)) by lra.
    apply pow2_lt_inv in H. lia. }
  assert (He : expo x = (ilog2 x - 52)%Z) by (unfold expo; lia).
  pose proof (pow2_pos (expo x)) as Hpe.
  assert (Hhalf : pow2 (expo x) * (1 # 2) <= x * pow2 (-53)).
  { assert (Hq : pow2 (expo x) * (1 # 2) == pow2 (ilog2 x) * pow2 (-53)).
    { rewrite He. replace (ilog2 x - 52)%Z with (ilog2 x + -52)%Z by lia.
      rewrite pow2_plus. setoid_replace (pow2 (-52)) with (2 * pow2 (-53)).
      - ring.
      - replace (-52)%Z with (1 + -53)%Z by lia. rewrite pow2_plus.
        reflexivity. }
    rewrite Hq. apply Qmult_le_compat_r; [exact L1|].
    apply Qlt_le_weak, pow2_pos. }
  destruct (rne_half (x / pow2 (expo x))) as (R1 & R2).
  unfold roundPos.
  assert (Hs : x / pow2 (expo x) * pow2 (expo x) == x) by apply scaled_mult.
  split.
  - assert ((x / pow2 (expo x) - (1 # 2)) * pow2 (expo x)
            <= inject_Z (rne (x / pow2 (expo x))) * pow2 (expo x)).
    { apply Qmult_le_compat_r; [exact R1 | lra]. }
    lra.
  - assert (inject_Z (rne (x / pow2 (expo x))) * pow2 (expo x)
            <= (x / pow2 (expo x) + (1 # 2)) * pow2 (expo x)).
    { apply Qmult_le_compat_r; [exact R2 | lra]. }
    lra.
Qed.

Lemma round64_err (x : Q) :
  pow2 (-1022) <= x ->
  x - x * pow2 (-53) <= round64 x /\ round64 x <= x + x * pow2 (-53).
Proof.
  intros Hn. pose proof (pow2_pos (-1022)).
  rewrite round64_pos by lra. now apply roundPos_err.
Qed.

End Binary64Facts.

(** ** The rounding against the doubles of the machine *)

(** On the operations of the two counterexamples below, [round64] gives
    the double the machine computes: [(1100 / 1000) * 50] and
    [(2000 / 1000) * 20], and the walk over the lengths [1.5 * 2^-52],
    [1 + 2^-51], [1 + 2^-51] at frame 1 of 2, where the dash of the second
    stroke, [progress - drawnLength], is the length of the stroke. *)
Example round64_machine :
  option_map Qred (Binary64.ofFloat
    (PrimFloat.mul (PrimFloat.div (Binary64.toFloat 1100) (Binary64.toFloat 1000))
       (Binary64.toFloat 50)))
  = Some (Qred (frameProduct64 1100 50))
  /\ option_map Qred (Binary64.ofFloat
       (PrimFloat.mul (PrimFloat.div (Binary64.toFloat 2000) (Binary64.toFloat 1000))
          (Binary64.toFloat 20)))
     = Some (Qred (frameProduct64 2000 20))
  /\ (let l1 := PrimFloat.div (Binary64.toFloat 3) (Binary64.toFloat (2 ^ 53)) in
      let l2 := PrimFloat.add (Binary64.toFloat 1)
                  (PrimFloat.div (Binary64.toFloat 1) (Binary64.toFloat (2 ^ 51))) in
      let zero := Binary64.toFloat 0 in
      let total := PrimFloat.add (PrimFloat.add (PrimFloat.add zero l1) l2) l2 in
      let progress :=
        PrimFloat.mul (PrimFloat.div (Binary64.toFloat 1) (Binary64.toFloat 2))
          total in
      let drawnLength := PrimFloat.add zero l1 in
      option_map Qred (Binary64.ofFloat l1) = Some (Qred (3 # 2 ^ 53))
      /\ option_map Qred (Binary64.ofFloat l2) = Some (Qred (1 + (1 # 2 ^ 51)))
      /\ option_map Qred (Binary64.ofFloat progress)
         = Some (Qred (currentTotalProgress64 1 2 (totalLength64 roundingStrokes)))
      /\ PrimFloat.leb (PrimFloat.add drawnLength l2) progress = false
      /\ PrimFloat.ltb drawnLength progress = true
      /\ Binary64.ofFloat (PrimFloat.sub progress drawnLength)
         = Binary64.ofFloat l2).
Proof. vm_compute. repeat split. Qed.

(** ** The walk in binary64 *)

Section Walk64.

Import Binary64 Binary64Facts.

Local Open Scope Q_scope.

Lemma rounded_fadd (a b : Q) : rounded (fadd a b).
Proof. apply round64_idem. Qed.

Lemma rounded_zero : rounded 0.
Proof. unfold rounded. now rewrite round64_zero. Qed.

Lemma fadd_ge (acc len : Q) : rounded acc -> 0 <= len -> acc <= fadd acc len.
Proof.
  intros Ha Hl. unfold rounded in Ha. apply (Qle_trans _ (round64 acc)).
  - rewrite Ha. apply Qle_refl.
  - apply round64_mono. lra.
Qed.

Lemma doubleLengths_firstn (ps : list pathProp) (m : nat) :
  doubleLengths ps -> doubleLengths (firstn m ps).
Proof.
  revert m. induction ps as [|p rest IH]; intros m H.
  - destruct m; constructor.
  - destruct m; [constructor|]. inversion H; subst.
    constructor; [assumption | now apply IH].
Qed.

Lemma sum64From_ge (ps : list pathProp) :
  forall acc, rounded acc -> doubleLengths ps -> acc <= sum64From acc ps.
Proof.
  induction ps as [|p rest IH]; intros acc Ha Hps.
  - apply Qle_refl.
  - inversion Hps as [|? ? (_ & Hnn) Hrest]; subst.
    change (sum64From acc (p :: rest))
      with (sum64From (fadd acc (p_length p)) rest).
    apply (Qle_trans _ (fadd acc (p_length p))).
    + now apply fadd_ge.
    + apply IH; [apply rounded_fadd | exact Hrest].
Qed.

(** Once the progress is behind [drawnLength] no stroke is dashed. *)
Lemma walk64_past (ps : list pathProp) :
  forall acc g, rounded acc -> doubleLengths ps -> g <= acc ->
  forall n dv part len,
    nth_error (activeStrokes64 ps acc g) n <> Some (DashPath dv part len).
Proof.
  induction ps as [|p rest IH]; intros acc g Ha Hps Hg n dv part len;
    cbn [activeStrokes64].
  - destruct n; discriminate.
  - inversion Hps as [|? ? (_ & Hnn) Hrest]; subst.
    destruct (Qle_bool (fadd acc (p_length p)) g) eqn:E.
    + destruct n; [discriminate|]. cbn [nth_error].
      apply IH; [apply rounded_fadd | exact Hrest|].
      apply (Qle_trans _ acc); [exact Hg | now apply fadd_ge].
    + unfold Qltb. rewrite (proj2 (Qle_bool_iff g acc) Hg). cbn [negb].
      destruct n; discriminate.
Qed.

(** A progress that is a cumulated boundary. *)
Lemma walk64_boundary (ps : list pathProp) :
  forall acc g m, rounded acc -> doubleLengths ps ->
  g == sum64From acc (firstn m ps) ->
  (forall k p, (k < m)%nat -> nth_error ps k = Some p ->
     nth_error (activeStrokes64 ps acc g) k = Some (FullPath (p_d p)))
  /\ (forall n dv part len,
        nth_error (activeStrokes64 ps acc g) n <> Some (DashPath dv part len)).
Proof.
  induction ps as [|p rest IH]; intros acc g m Ha Hps Hg.
  - split.
    + intros k p _ H. destruct k; discriminate.
    + intros n dv part len. destruct n; discriminate.
  - destruct m as [|m].
    + split; [intros k q Hk; lia|].
      apply walk64_past; [exact Ha | exact Hps|].
      rewrite Hg. apply Qle_refl.
    + inversion Hps as [|? ? (_ & Hnn) Hrest]; subst.
      change (sum64From acc (firstn (S m) (p :: rest)))
        with (sum64From (fadd acc (p_length p)) (firstn m rest)) in Hg.
      assert (Hle : fadd acc (p_length p) <= g).
      { rewrite Hg. apply sum64From_ge; [apply rounded_fadd|].
        now apply doubleLengths_firstn. }
      cbn [activeStrokes64]. rewrite (proj2 (Qle_bool_iff _ _) Hle).
      destruct (IH (fadd acc (p_length p)) g m (rounded_fadd _ _) Hrest Hg)
        as (IH1 & IH2).
      split.
      * intros k q Hk Hq. destruct k as [|k].
        -- injection Hq as <-. reflexivity.
        -- cbn [nth_error] in *. apply IH1; [lia | exact Hq].
      * intros n dv part len. destruct n as [|n]; [discriminate|].
        cbn [nth_error]. apply IH2.
Qed.

(** The dash of a stroke is positive and at most the stroke's length. *)
Lemma walk64_dash (ps : list pathProp) :
  forall acc g n dv part len,
    rounded acc -> rounded g -> doubleLengths ps ->
    nth_error (activeStrokes64 ps acc g) n = Some (DashPath dv part len) ->
    0 < part /\ part <= len.
Proof.
  induction ps as [|p rest IH]; intros acc g n dv part len Ha Hg Hps;
    cbn [activeStrokes64].
  - destruct n; discriminate.
  - inversion Hps as [|? ? ((Hd & _) & Hnn) Hrest]; subst.
    destruct (Qle_bool (fadd acc (p_length p)) g) eqn:E1.
    + destruct n as [|n]; [discriminate|]. cbn [nth_error].
      apply IH; [apply rounded_fadd | exact Hg | exact Hrest].
    + destruct (Qltb acc g) eqn:E2.
      * destruct n as [|n]; [|destruct n; discriminate].
        cbn [nth_error]. intros H. injection H as _ <- <-.
        unfold rounded in Ha, Hg, Hd.
        assert (Hlt : acc < g).
        { apply Qnot_le_lt. intros Hc. unfold Qltb in E2.
          rewrite (proj2 (Qle_bool_iff _ _) Hc) in E2. discriminate. }
        split.
        -- now apply round64_pos_diff.
        -- assert (Hsum : g < acc + p_length p).
           { apply Qnot_le_lt. intros Hc.
             assert (Hr : fadd acc (p_length p) <= g).
             { apply (Qle_trans _ (round64 g)).
               - apply round64_mono. exact Hc.
               - rewrite Hg. apply Qle_refl. }
             rewrite (proj2 (Qle_bool_iff _ _) Hr) in E1. discriminate. }
           apply (Qle_trans _ (round64 (p_length p))).
           ++ apply round64_mono. lra.
           ++ rewrite Hd. apply Qle_refl.
      * destruct n; discriminate.
Qed.

Lemma rounded_sum64From (ps : list pathProp) :
  forall acc, rounded acc -> rounded (sum64From acc ps).
Proof.
  induction ps as [|p rest IH]; intros acc Ha; [exact Ha|].
  change (sum64From acc (p :: rest)) with (sum64From (fadd acc (p_length p)) rest).
  apply IH, rounded_fadd.
Qed.

Lemma round64_nonneg (x : Q) : 0 <= x -> 0 <= round64 x.
Proof.
  intros H. rewrite <- (round64_zero 0) by reflexivity. now apply round64_mono.
Qed.

Lemma round64_le_1 (x : Q) : x <= 1 -> round64 x <= 1.
Proof.
  intros H. apply (Qle_trans _ (round64 (inject_Z 1))).
  - apply round64_mono. exact H.
  - rewrite round64_Z by (vm_compute; discriminate). apply Qle_refl.
Qed.

(** The progress of a frame is a finite double when the total length is:
    it lies between 0 and the total length. *)
Lemma currentTotalProgress64_double
    (ps : list pathProp) (frame totalFrames : Z) :
  doubleLengths ps -> (0 <= frame)%Z -> totalLength64 ps < pow2 1024 ->
  isDouble (currentTotalProgress64 frame totalFrames (totalLength64 ps)).
Proof.
  intros Hps Hf Hfin.
  assert (HL0 : 0 <= totalLength64 ps)
    by (apply sum64From_ge; [apply rounded_zero | exact Hps]).
  assert (HLr : rounded (totalLength64 ps))
    by apply rounded_sum64From, rounded_zero.
  pose proof (pow2_pos 1024) as Hpos.
  unfold currentTotalProgress64. destruct (totalFrames <=? frame)%Z eqn:E.
  - split; [exact HLr | split; lra].
  - apply Z.leb_gt in E.
    set (r := fdiv (ofZ frame) (ofZ totalFrames)).
    assert (Hr : 0 <= r /\ r <= 1).
    { assert (H1 : 1 <= ofZ totalFrames).
      { apply (Qle_trans _ (round64 (inject_Z 1))).
        - rewrite round64_Z by (vm_compute; discriminate). apply Qle_refl.
        - apply round64_mono. rewrite <- Zle_Qle. lia. }
      assert (H0 : 0 <= ofZ frame).
      { apply round64_nonneg. change 0 with (inject_Z 0). rewrite <- Zle_Qle. exact Hf. }
      assert (Hle : ofZ frame <= ofZ totalFrames).
      { apply round64_mono. rewrite <- Zle_Qle. lia. }
      split.
      - apply round64_nonneg. apply Qle_shift_div_l; lra.
      - apply round64_le_1. apply Qle_shift_div_r; lra. }
    destruct Hr as (Hr0 & Hr1).
    assert (Hlo : 0 <= fmul r (totalLength64 ps)).
    { apply round64_nonneg. now apply Qmult_le_0_compat. }
    assert (Hhi : fmul r (totalLength64 ps) <= totalLength64 ps).
    { apply (Qle_trans _ (round64 (totalLength64 ps))).
      - apply round64_mono.
        setoid_replace (totalLength64 ps) with (1 * totalLength64 ps) at 2 by ring.
        now apply Qmult_le_compat_r.
      - unfold rounded in HLr. rewrite HLr. apply Qle_refl. }
    split; [apply round64_idem | split; lra].
Qed.

Lemma sampleStrokes_double : doubleLengths sampleStrokes.
Proof.
  repeat constructor; try (vm_compute; reflexivity); discriminate.
Defined.

End Walk64.

(** ** Boundaries *)

(** C4, as stated, fails in the arithmetic of the code.  On three strokes
    of lengths [1.5 * 2^-52], [1 + 2^-51] and [1 + 2^-51], at frame 1 of 2,
    the first stroke is whole and the second is dashed with a dash that the
    rounded subtraction [currentTotalProgress - drawnLength] makes as long as
    the stroke: a partial stroke with fraction exactly 1. *)
Lemma partial_fraction_reaches_one :
  doubleLengths roundingStrokes
  /\ exists f,
       strokeStateAt
         (activeStrokes64 roundingStrokes 0
            (currentTotalProgress64 1 2 (totalLength64 roundingStrokes))) 1
       = Partial f
       /\ f == 1.
Proof.
  split.
  - repeat constructor; try (vm_compute; reflexivity); discriminate.
  - eexists. split; vm_compute; reflexivity.
Qed.

(** C4, amended.  With stroke lengths that are finite doubles and not
    negative, the progress of every frame is a finite double, provided the
    total length is finite.  For every progress that is a finite double: a
    progress equal to a cumulated stroke boundary, the value [drawnLength]
    has after the first [m] strokes, draws each of these strokes whole, the
    one that ends at the boundary included, and no stroke partially; and a
    stroke that is drawn partially has a dash that is positive and at most
    the length of the stroke: its fraction is never 0, and at most 1. *)
Theorem boundary_tie_break64 (pathProps : list pathProp) :
  doubleLengths pathProps ->
  (forall frame totalFrames : Z,
      (0 <= frame)%Z ->
      totalLength64 pathProps < Binary64.pow2 1024 ->
      isDouble (currentTotalProgress64 frame totalFrames (totalLength64 pathProps)))
  /\ (forall g : Q,
         isDouble g ->
         let active := activeStrokes64 pathProps 0 g in
         (forall m : nat,
             g == cumulativeStart64 pathProps m ->
             (forall k p,
                 (k < m)%nat -> nth_error pathProps k = Some p ->
                 nth_error active k = Some (FullPath (p_d p))
                 /\ strokeStateAt active k = FullyDrawn)
             /\ (forall n f, strokeStateAt active n <> Partial f))
         /\ (forall n dv partLength len,
                nth_error active n = Some (DashPath dv partLength len) ->
                0 < partLength /\ partLength <= len)
         /\ (forall n f, strokeStateAt active n = Partial f -> 0 < f /\ f <= 1)).
Proof.
  intros Hps. split.
  { intros frame totalFrames Hf Hfin.
    now apply currentTotalProgress64_double. }
  intros g (Hg & _) active. subst active.
  assert (Hdash : forall n dv partLength len,
             nth_error (activeStrokes64 pathProps 0 g) n
             = Some (DashPath dv partLength len) ->
             0 < partLength /\ partLength <= len).
  { intros n dv part len. apply walk64_dash; [apply rounded_zero | exact Hg | exact Hps]. }
  split; [|split].
  - intros m Hm.
    destruct (walk64_boundary pathProps 0 g m rounded_zero Hps Hm) as (H1 & H2).
    split.
    + intros k p Hk Hp. pose proof (H1 k p Hk Hp) as Hfull. split; [exact Hfull|].
      unfold strokeStateAt. now rewrite Hfull.
    + intros n f Hn. unfold strokeStateAt in Hn.
      destruct (nth_error (activeStrokes64 pathProps 0 g) n)
        as [[dv | dv part len]|] eqn:En; try discriminate.
      exact (H2 n dv part len En).
  - exact Hdash.
  - intros n f Hn. unfold strokeStateAt in Hn.
    destruct (nth_error (activeStrokes64 pathProps 0 g) n)
      as [[dv | dv part len]|] eqn:En; try discriminate.
    injection Hn as <-. destruct (Hdash n dv part len En) as (H0 & H1).
    assert (Hlen : 0 < len) by lra. split.
    + apply Qlt_shift_div_l; [exact Hlen | lra].
    + apply Qle_shift_div_r; [exact Hlen | lra].
Qed.

(** Frame 2 of 7 on the strokes of length 10, 20 and 5: the progress is
    exactly 10, the end of stroke 1, which is whole; nothing else is drawn. *)
Lemma boundary_tie_break64_witness :
  activeStrokes64 sampleStrokes 0
    (currentTotalProgress64 2 7 (totalLength64 sampleStrokes))
  = [FullPath "M0,0h10"]
  /\ strokeStateAt
       (activeStrokes64 sampleStrokes 0
          (currentTotalProgress64 2 7 (totalLength64 sampleStrokes))) 0
     = FullyDrawn
  /\ forall n f,
       strokeStateAt
         (activeStrokes64 sampleStrokes 0
            (currentTotalProgress64 2 7 (totalLength64 sampleStrokes))) n
       <> Partial f.
Proof.
  destruct (boundary_tie_break64 sampleStrokes sampleStrokes_double)
    as (Hframe & Hwalk).
  pose proof (Hframe 2%Z 7%Z ltac:(lia) ltac:(vm_compute; reflexivity)) as Hg.
  assert (Hm : currentTotalProgress64 2 7 (totalLength64 sampleStrokes)
               == cumulativeStart64 sampleStrokes 1).
  { vm_compute. reflexivity. }
  pose proof (proj1 (Hwalk _ Hg) 1%nat Hm) as (H1 & H2).
  split; [vm_compute; reflexivity|].
  split; [|exact H2].
  exact (proj2 (H1 0%nat (mkPathProp "M0,0h10" (Some "s1"%string) 10)
                  ltac:(lia) eq_refl)).
Defined.

(** ** The frame count *)

(** C7, as stated, fails in the arithmetic of the code.  With the fixed
    timing, a duration of 1100 ms and 50 frames per second, the double
    [(1100 / 1000) * 50] is above 55 and [Math.ceil] gives 56 frames, one
    more than [ceil(1100/1000 * 50) = 55]. *)
Lemma frame_count_exceeds_ceiling :
  let opts := {| o_duration := Num 1100;
                 o_fps := Num 50;
                 o_timing := "fixed";
                 o_bg := Some "white"%string;
                 o_color := Some "#000000"%string;
                 o_guide := Some "#dddddd"%string |} in
  animationDurationOf opts sampleStrokes = Num 1100
  /\ totalFrames64 (animationDurationOf opts sampleStrokes) (o_fps opts) = Num 56
  /\ Qceiling (inject_Z 1100 / 1000 * inject_Z 50) = 55%Z.
Proof. repeat split; vm_compute; reflexivity. Qed.

Lemma totalFrames64_whole_seconds (s f : Z) :
  (Z.abs (1000 * s) <= 2 ^ 53)%Z ->
  (Z.abs f <= 2 ^ 53)%Z ->
  (Z.abs (s * f) <= 2 ^ 53)%Z ->
  totalFrames64 (Num (1000 * s)) (Num f) = Num (s * f).
Proof.
  intros Ha Hf Hp. unfold totalFrames64, frameProduct64. f_equal.
  unfold Binary64.fmul, Binary64.fdiv, Binary64.ofZ.
  assert (Hq : Binary64.round64
                 (Binary64.round64
                    (Binary64.round64 (inject_Z (1000 * s)) / 1000)
                  * Binary64.round64 (inject_Z f))
               == inject_Z (s * f)).
  { assert (H2 : Binary64.round64
                   (Binary64.round64 (inject_Z (1000 * s)) / 1000)
                 == inject_Z s).
    { transitivity (Binary64.round64 (inject_Z s)).
      - apply Binary64Facts.round64_eq.
        rewrite (Binary64Facts.round64_Z (1000 * s) Ha), inject_Z_mult.
        change (inject_Z 1000) with 1000. field.
      - apply Binary64Facts.round64_Z. lia. }
    transitivity (Binary64.round64 (inject_Z (s * f))).
    - apply Binary64Facts.round64_eq.
      rewrite H2, (Binary64Facts.round64_Z f Hf), inject_Z_mult. reflexivity.
    - apply Binary64Facts.round64_Z. exact Hp. }
  rewrite (Qceiling_comp _ _ Hq). apply Qceiling_Z.
Qed.

Lemma Qceiling_unique (p : Q) (n : Z) :
  inject_Z n - 1 < p -> p <= inject_Z n -> Qceiling p = n.
Proof.
  intros H1 H2. pose proof (Qle_ceiling p) as C1. pose proof (Qceiling_lt p) as C2.
  unfold Z.sub in C2. rewrite inject_Z_plus, inject_Z_opp in C2.
  change (inject_Z 1) with 1 in C2.
  assert (Hu : inject_Z (Qceiling p) < inject_Z (n + 1)).
  { rewrite inject_Z_plus. change (inject_Z 1) with 1. lra. }
  assert (Hl : inject_Z (n - 1) < inject_Z (Qceiling p)).
  { unfold Z.sub. rewrite inject_Z_plus, inject_Z_opp. change (inject_Z 1) with 1. lra. }
  rewrite <- Zlt_Qlt in Hu, Hl. lia.
Qed.

(** The double product is the exact product up to a relative error of
    [3 * 2^-53]. *)
Lemma frameProduct64_err (a f : Z) :
  (0 < a <= 2 ^ 53)%Z -> (0 < f <= 2 ^ 53)%Z ->
  let x := inject_Z a / 1000 * inject_Z f in
  x - x * (3 # 9007199254740992) <= frameProduct64 a f
  /\ frameProduct64 a f <= x + x * (3 # 9007199254740992).
Proof.
  intros Ha Hf x. unfold frameProduct64, Binary64.fmul, Binary64.fdiv, Binary64.ofZ.
  pose proof (Binary64Facts.round64_Z a ltac:(lia)) as Ha'.
  pose proof (Binary64Facts.round64_Z f ltac:(lia)) as Hf'.
  assert (HA : 1 <= inject_Z a).
  { change 1 with (inject_Z 1). rewrite <- Zle_Qle. lia. }
  assert (HF : 1 <= inject_Z f).
  { change 1 with (inject_Z 1). rewrite <- Zle_Qle. lia. }
  assert (Hu : Binary64.pow2 (-53) == 1 # 9007199254740992) by reflexivity.
  assert (Hmin : Binary64.pow2 (-1022) <= 1 # 2048).
  { apply (Qle_trans _ (Binary64.pow2 (-11))).
    - apply Binary64Facts.pow2_le. lia.
    - apply Qle_refl. }
  set (A := inject_Z a) in *. set (F := inject_Z f) in *.
  assert (Hq1 : Binary64.round64 (Binary64.round64 A / 1000)
                == Binary64.round64 (A / 1000)).
  { apply Binary64Facts.round64_eq. rewrite Ha'. reflexivity. }
  assert (HA1 : 1 # 1000 <= A / 1000).
  { apply Qle_shift_div_l; lra. }
  destruct (Binary64Facts.round64_err (A / 1000) ltac:(lra)) as (E1 & E2).
  rewrite Hu in E1, E2.
  set (q := Binary64.round64 (A / 1000)) in *.
  assert (Hy : Binary64.round64 (Binary64.round64 (Binary64.round64 A / 1000)
                                 * Binary64.round64 F)
               == Binary64.round64 (q * F)).
  { apply Binary64Facts.round64_eq. rewrite Hq1, Hf'. reflexivity. }
  rewrite Hy.
  assert (Hq0 : 1 # 2000 <= q) by lra.
  assert (HqF : q <= q * F).
  { setoid_replace q with (q * 1) at 1 by ring.
    rewrite !(Qmult_comm q). apply Qmult_le_compat_r; lra. }
  destruct (Binary64Facts.round64_err (q * F) ltac:(lra)) as (E3 & E4).
  rewrite Hu in E3, E4.
  assert (Hlo : (A / 1000 - A / 1000 * (1 # 9007199254740992)) * F <= q * F).
  { apply Qmult_le_compat_r; lra. }
  assert (Hhi : q * F <= (A / 1000 + A / 1000 * (1 # 9007199254740992)) * F).
  { apply Qmult_le_compat_r; lra. }
  assert (Hx : 0 <= x).
  { subst x. apply Qmult_le_0_compat; lra. }
  assert (Hlo' : x - x * (1 # 9007199254740992) <= q * F).
  { setoid_replace (x - x * (1 # 9007199254740992))
      with ((A / 1000 - A / 1000 * (1 # 9007199254740992)) * F) by (subst x; ring).
    exact Hlo. }
  assert (Hhi' : q * F <= x + x * (1 # 9007199254740992)).
  { setoid_replace (x + x * (1 # 9007199254740992))
      with ((A / 1000 + A / 1000 * (1 # 9007199254740992)) * F) by (subst x; ring).
    exact Hhi. }
  clearbody x. split; lra.
Qed.

(** The frame count against the exact ceiling: the same when
    [duration * fps] is not a multiple of 1000, and the same or one more
    when it is. *)
Lemma totalFrames64_ceiling (a f : Z) :
  (0 < a)%Z -> (0 < f)%Z -> (a * f <= 2 ^ 50)%Z ->
  exists t : Z,
    totalFrames64 (Num a) (Num f) = Num t
    /\ (Qceiling (inject_Z a / 1000 * inject_Z f) <= t
        <= Qceiling (inject_Z a / 1000 * inject_Z f) + 1)%Z
    /\ ((a * f) mod 1000 <> 0 ->
        t = Qceiling (inject_Z a / 1000 * inject_Z f))%Z.
Proof.
  intros Ha Hf Hk.
  assert (Ha53 : (a <= 2 ^ 53)%Z) by nia.
  assert (Hf53 : (f <= 2 ^ 53)%Z) by nia.
  destruct (frameProduct64_err a f ltac:(lia) ltac:(lia)) as (E1 & E2).
  cbv zeta in E1, E2.
  exists (Qceiling (frameProduct64 a f)). split; [reflexivity|].
  set (p := frameProduct64 a f) in *.
  set (x := inject_Z a / 1000 * inject_Z f) in *.
  assert (Hxk : x == inject_Z (a * f) / 1000).
  { subst x. rewrite inject_Z_mult. field. }
  assert (Hk0 : 0 < inject_Z (a * f)).
  { change 0 with (inject_Z 0). rewrite <- Zlt_Qlt. nia. }
  assert (Hk1 : inject_Z (a * f) <= 1125899906842624).
  { change 1125899906842624 with (inject_Z (2 ^ 50)). rewrite <- Zle_Qle. exact Hk. }
  assert (Hx0 : 0 < x).
  { rewrite Hxk. apply Qlt_shift_div_l; lra. }
  assert (Hx1000 : x * 1000 == inject_Z (a * f)).
  { rewrite Hxk. field. }
  assert (Hplo : x - (1 # 1000) < p) by lra.
  assert (Hphi : p < x + (1 # 1000)) by lra.
  pose proof (Qle_ceiling x) as C1. pose proof (Qceiling_lt x) as C2.
  unfold Z.sub in C2. rewrite inject_Z_plus, inject_Z_opp in C2.
  change (inject_Z 1) with 1 in C2.
  set (n := Qceiling x) in *.
  destruct (Z.eq_dec ((a * f) mod 1000) 0) as [Hm | Hm].
  - (* the exact product is the integer [n] *)
    assert (Hxn : x == inject_Z n).
    { assert (Hd : (a * f = 1000 * (a * f / 1000))%Z)
        by (apply Z.div_exact; [lia | exact Hm]).
      assert (Hxq : x == inject_Z (a * f / 1000)).
      { rewrite Hxk. rewrite Hd at 1. rewrite inject_Z_mult.
        change (inject_Z 1000) with 1000. field. }
      subst n. rewrite (Qceiling_comp _ _ Hxq), Qceiling_Z. exact Hxq. }
    split; [|contradiction].
    destruct (Qlt_le_dec (inject_Z n) p) as [Hgt | Hle].
    + assert (Qceiling p = (n + 1)%Z); [|lia].
      apply Qceiling_unique; rewrite inject_Z_plus; change (inject_Z 1) with 1; lra.
    + assert (Qceiling p = n); [|lia].
      apply Qceiling_unique; lra.
  - assert (Hq : inject_Z (1000 * (n - 1)) < inject_Z (a * f)
                 /\ inject_Z (a * f) <= inject_Z (1000 * n)).
    { rewrite !(inject_Z_mult 1000). unfold Z.sub.
      rewrite inject_Z_plus, inject_Z_opp.
      change (inject_Z 1000) with 1000. change (inject_Z 1) with 1. lra. }
    rewrite <- Zlt_Qlt, <- Zle_Qle in Hq.
    assert (Hz : (1000 * (n - 1) + 1 <= a * f <= 1000 * n - 1)%Z).
    { revert Hm Hq. generalize (a * f)%Z. intros k Hm Hq.
      assert (k <> 1000 * n)%Z; [|lia].
      intros ->. apply Hm. rewrite Z.mul_comm. apply Z_mod_mult. }
    assert (Hlo : inject_Z (1000 * (n - 1) + 1) == 1000 * inject_Z n - 999).
    { unfold Z.sub. rewrite !inject_Z_plus, inject_Z_mult, inject_Z_plus, inject_Z_opp.
      change (inject_Z 1000) with 1000. change (inject_Z 1) with 1. ring. }
    assert (Hhi : inject_Z (1000 * n - 1) == 1000 * inject_Z n - 1).
    { unfold Z.sub. rewrite inject_Z_plus, inject_Z_mult, inject_Z_opp.
      change (inject_Z 1000) with 1000. change (inject_Z 1) with 1. ring. }
    rewrite !Zle_Qle in Hz. rewrite Hlo, Hhi in Hz.
    assert (Qceiling p = n); [|split; [lia | intros _; assumption]].
    apply Qceiling_unique; lra.
Qed.

(** C7, amended.  With a timing other than [relative], [fixed] among them,
    the animation lasts [options.duration], whatever the strokes are; the
    default is 2000 ms.  The number of frames is [Math.ceil] of the double
    [(duration / 1000) * fps], the least integer that is not below that
    double.  For a positive duration and fps with [duration * fps <= 2^50]
    it is [ceil(duration / 1000 * fps)] or one more, and one more only where
    [duration * fps] is a multiple of 1000; for a duration of whole seconds
    it is exactly [seconds * fps]. *)
Theorem fixed_duration64 (opts : options) (pathProps : list pathProp) :
  o_timing opts <> "relative"%string ->
  animationDurationOf opts pathProps = o_duration opts
  /\ (forall pathProps',
         animationDurationOf opts pathProps' = animationDurationOf opts pathProps)
  /\ duration initialConfig = Num 2000
  /\ (forall a f : Z,
         (Z.abs a <= 2 ^ 53)%Z -> (Z.abs f <= 2 ^ 53)%Z ->
         exists t : Z,
           totalFrames64 (Num a) (Num f) = Num t
           /\ frameProduct64 a f <= inject_Z t
           /\ inject_Z (t - 1) < frameProduct64 a f)
  /\ (forall a f : Z,
         (0 < a)%Z -> (0 < f)%Z -> (a * f <= 2 ^ 50)%Z ->
         exists t : Z,
           totalFrames64 (Num a) (Num f) = Num t
           /\ (Qceiling (inject_Z a / 1000 * inject_Z f) <= t
               <= Qceiling (inject_Z a / 1000 * inject_Z f) + 1)%Z
           /\ ((a * f) mod 1000 <> 0 ->
               t = Qceiling (inject_Z a / 1000 * inject_Z f))%Z)
  /\ (forall s f : Z,
         (Z.abs (1000 * s) <= 2 ^ 53)%Z ->
         (Z.abs f <= 2 ^ 53)%Z ->
         (Z.abs (s * f) <= 2 ^ 53)%Z ->
         totalFrames64 (Num (1000 * s)) (Num f) = Num (s * f)).
Proof.
  intros H. split; [|split; [|split; [|split; [|split]]]].
  - now apply animationDurationOf_fixed.
  - intros. now rewrite !animationDurationOf_fixed.
  - reflexivity.
  - intros a f _ _. eexists. split; [reflexivity|]. split.
    + apply Qle_ceiling.
    + apply Qceiling_lt.
  - exact totalFrames64_ceiling.
  - exact totalFrames64_whole_seconds.
Qed.

(** The default options: 2000 ms at 20 frames per second, 40 frames. *)
Lemma fixed_duration64_witness :
  animationDurationOf defaultOptions sampleStrokes = Num 2000
  /\ totalFrames64 (animationDurationOf defaultOptions sampleStrokes)
       (o_fps defaultOptions) = Num 40.
Proof.
  pose proof (fixed_duration64 defaultOptions sampleStrokes ltac:(discriminate))
    as (H1 & _ & _ & _ & _ & H6).
  split; [exact H1|].
  rewrite H1. exact (H6 2%Z 20%Z ltac:(vm_compute; discriminate)
                       ltac:(vm_compute; discriminate)
                       ltac:(vm_compute; discriminate)).
Defined.

(* ================================================================== *)
(** * Further properties *)

(** ** More on strings *)

Local Open Scope Z_scope.

Lemma drop_drop (n m : nat) (s : string) :
  JsString.drop n (JsString.drop m s) = JsString.drop (m + n) s.
Proof.
  revert s. induction m as [|m IH]; intros s; [reflexivity|].
  destruct s; cbn [JsString.drop Nat.add].
  - now destruct n.
  - apply IH.
Qed.

Lemma take_app_length (s t : string) :
  JsString.take (String.length s) (s ++ t) = s.
Proof. induction s as [|c s IH]; cbn; [now destruct t | now rewrite IH]. Qed.

Lemma drop_app_length (s t : string) :
  JsString.drop (String.length s) (s ++ t) = t.
Proof. induction s as [|c s IH]; cbn; [reflexivity | exact IH]. Qed.

Lemma drop_length (s : string) : JsString.drop (String.length s) s = EmptyString.
Proof. induction s as [|c s IH]; cbn; [reflexivity | exact IH]. Qed.

Lemma append_nil_r (s : string) : (s ++ EmptyString)%string = s.
Proof. induction s as [|c s IH]; cbn; [reflexivity | now rewrite IH]. Qed.

Lemma append_assoc (s t u : string) : ((s ++ t) ++ u = s ++ (t ++ u))%string.
Proof. induction s as [|c s IH]; cbn; [reflexivity | now rewrite IH]. Qed.

(** A first occurrence at index [k] is what [replace] replaces. *)
Lemma replace_at (pat repl s : string) (k : nat) :
  JsString.indexOf s pat = Z.of_nat k ->
  JsString.replace s pat repl
  = (JsString.take k s ++ repl ++ JsString.drop (k + String.length pat) s)%string.
Proof.
  unfold JsString.indexOf. revert k. induction s as [|c s IH]; intros k H.
  - cbn [JsString.indexOfFrom JsString.replace] in *.
    destruct (String.prefix pat EmptyString) eqn:E; [|lia].
    assert (k = 0%nat) by lia. subst k. reflexivity.
  - cbn [JsString.indexOfFrom JsString.replace] in *. rewrite Z.add_0_l in H.
    destruct (String.prefix pat (String c s)) eqn:E.
    + assert (k = 0%nat) by lia. subst k. reflexivity.
    + destruct (indexOfFrom_spec pat s 1) as [(H1 & _) | (j & H1 & H0 & _)]; [lia|].
      assert (k = S j) by lia. subst k.
      cbn [JsString.take JsString.drop Nat.add append]. f_equal.
      now apply IH.
Qed.

(** An occurrence of [.svg] cannot begin inside a name that holds none and
    end in the extension. *)
Lemma prefix_svg_app (stem : string) :
  String.prefix ".svg" stem = false ->
  stem <> EmptyString ->
  String.prefix ".svg" (stem ++ ".svg") = false.
Proof.
  intros H Hne.
  destruct stem as [|a [|b [|c [|d s]]]]; [congruence | | | |];
    cbn [String.prefix append] in *;
    repeat (match goal with
            | |- context [ascii_dec ?x ?y] => destruct (ascii_dec x y)
            end; try subst; try discriminate; try reflexivity; try congruence).
  destruct s; discriminate.
Qed.

Lemma indexOfFrom_shift (pat s : string) (i : Z) :
  JsString.indexOfFrom pat s i
  = if JsString.indexOfFrom pat s 0 <? 0 then -1
    else i + JsString.indexOfFrom pat s 0.
Proof.
  destruct (indexOfFrom_spec pat s i) as [(H1 & H0 & _) | (k & H1 & H0 & _)];
    rewrite H1, H0.
  - reflexivity.
  - destruct (Z.ltb_spec (Z.of_nat k) 0); [lia | reflexivity].
Qed.

Lemma indexOf_svg_extension (stem : string) :
  JsString.includes stem ".svg" = false ->
  JsString.indexOf (stem ++ ".svg") ".svg" = Z.of_nat (String.length stem).
Proof.
  unfold JsString.includes, JsString.indexOf.
  induction stem as [|c stem IH]; intros H; [reflexivity|].
  apply Z.leb_gt in H.
  cbn [JsString.indexOfFrom] in H. rewrite Z.add_0_l in H.
  destruct (String.prefix ".svg" (String c stem)) eqn:E; [lia|].
  change (String c stem ++ ".svg")%string with (String c (stem ++ ".svg")).
  cbn [JsString.indexOfFrom]. rewrite Z.add_0_l.
  change (String c (stem ++ ".svg")) with (String c stem ++ ".svg")%string.
  rewrite (prefix_svg_app (String c stem) E) by discriminate.
  rewrite indexOfFrom_shift in H. rewrite indexOfFrom_shift.
  destruct (Z.ltb_spec (JsString.indexOfFrom ".svg" stem 0) 0) as [Hlt | Hge].
  - rewrite IH by (apply Z.leb_gt; exact Hlt).
    destruct (Z.ltb_spec (Z.of_nat (String.length stem)) 0); [lia|].
    cbn [String.length]. lia.
  - destruct (indexOfFrom_spec ".svg" stem 0) as [(H1 & _) | (k & H1 & _)]; lia.
Qed.

(** The name of an output: the [.svg] of a file name that holds it only as
    its extension gives way to the new extension. *)
Lemma replace_svg_extension (stem ext : string) :
  JsString.includes stem ".svg" = false ->
  JsString.replace (stem ++ ".svg") ".svg" ext = (stem ++ ext)%string.
Proof.
  intros H.
  rewrite (replace_at ".svg" ext _ (String.length stem) (indexOf_svg_extension stem H)).
  rewrite take_app_length. f_equal.
  replace (String.length stem + String.length ".svg")%nat
    with (String.length (stem ++ ".svg")).
  - now rewrite drop_length, append_nil_r.
  - clear H. induction stem as [|c stem IH]; cbn; [reflexivity | now rewrite IH].
Qed.

(** ** [preprocessSvg], in closed form *)

(** [preprocessSvg] removes nothing but what precedes the first [<svg] and
    adds nothing but the namespace attribute, right after that [<svg]: a
    content without [<svg] is returned as it is (also when it lacks the
    namespace); otherwise the result is the content from its first [<svg] on
    when that part includes [xmlns:kvg], and else this part with its leading
    [<svg] replaced by the tag that carries the attribute. *)
Theorem preprocessSvg_shape (s : string) :
  preprocessSvg s
  = let k := JsString.indexOf s svgTag in
    if k <? 0 then s
    else
      let kept := JsString.drop (Z.to_nat k) s in
      if JsString.includes kept kvgAttr then kept
      else (svgTagWithKvg ++ JsString.drop 4 kept)%string.
Proof.
  cbv zeta. destruct (indexOf_range svgTag s) as [Hno | Hyes].
  - rewrite Hno. cbn [Z.ltb Z.compare]. now apply preprocessSvg_without_svg.
  - destruct (Z.ltb_spec (JsString.indexOf s svgTag) 0) as [Hlt | _]; [lia|].
    set (kept := JsString.drop (Z.to_nat (JsString.indexOf s svgTag)) s).
    assert (Hkept : kept = if 0 <? JsString.indexOf s svgTag
                           then JsString.substring s (JsString.indexOf s svgTag)
                           else s).
    { destruct (Z.ltb_spec 0 (JsString.indexOf s svgTag)) as [H | H]; [reflexivity|].
      subst kept. replace (JsString.indexOf s svgTag) with 0 by lia. reflexivity. }
    assert (Hp : String.prefix svgTag kept = true).
    { rewrite Hkept. destruct (Z.ltb_spec 0 (JsString.indexOf s svgTag)) as [H | H].
      - now apply indexOf_substring.
      - apply indexOf_zero_prefix. lia. }
    assert (Hs : preprocessSvg s = preprocessSvg kept).
    { unfold preprocessSvg at 2. rewrite (prefix_indexOf svgTag kept Hp).
      cbn [Z.ltb Z.compare]. unfold preprocessSvg. now rewrite <- Hkept. }
    rewrite Hs. destruct (JsString.includes kept kvgAttr) eqn:Hi.
    + now apply preprocessSvg_kept.
    + now apply preprocessSvg_injected.
Qed.

(** ** [generatePng] *)

Section ReplaceAll.

Variables pat template : string.

Lemma replaceAllFrom_absent (s : string) :
  forall before,
    JsString.indexOf s pat = -1 ->
    JsString.replaceAllFrom pat template before s 0 = s.
Proof.
  unfold JsString.indexOf. induction s as [|c s IH]; intros before H; [reflexivity|].
  cbn [JsString.replaceAllFrom JsString.indexOfFrom] in *. rewrite Z.add_0_l in H.
  destruct (String.prefix pat (String c s)); [lia|].
  f_equal. apply IH. rewrite indexOfFrom_shift in H.
  destruct (Z.ltb_spec (JsString.indexOfFrom pat s 0) 0) as [Hlt | Hge]; [|lia].
  destruct (indexOfFrom_spec pat s 0) as [(H1 & _) | (k & H1 & _)]; lia.
Qed.

Hypothesis template_dollarFree : dollarFree template = true.

Lemma expandReplacement_dollarFree (t matched before after : string) :
  dollarFree t = true ->
  JsString.expandReplacement t matched before after = t.
Proof.
  induction t as [|c t IH]; intros H; [reflexivity|].
  cbn [dollarFree] in H. apply andb_true_iff in H. destruct H as (Hc & Ht).
  apply negb_true_iff in Hc. cbn [JsString.expandReplacement]. rewrite Hc.
  f_equal. now apply IH.
Qed.

(** Without a dollar sign in the replacement, what precedes a match plays
    no part. *)
Lemma replaceAllFrom_before (s : string) :
  forall before before' skip,
    JsString.replaceAllFrom pat template before s skip
    = JsString.replaceAllFrom pat template before' s skip.
Proof.
  induction s as [|c s IH]; intros before before' skip; [reflexivity|].
  cbn [JsString.replaceAllFrom]. destruct skip as [|k].
  - destruct (String.prefix pat (String c s)).
    + rewrite !expandReplacement_dollarFree by exact template_dollarFree.
      f_equal. apply IH.
    + f_equal. apply IH.
  - apply IH.
Qed.

Lemma replaceAllFrom_skip (s : string) :
  forall before skip,
    JsString.replaceAllFrom pat template before s skip
    = JsString.replaceAll (JsString.drop skip s) pat template.
Proof.
  unfold JsString.replaceAll.
  induction s as [|c s IH]; intros before skip.
  - now destruct skip.
  - destruct skip as [|k].
    + cbn [JsString.drop]. apply replaceAllFrom_before.
    + cbn [JsString.replaceAllFrom JsString.drop]. apply IH.
Qed.

(** The first match is replaced and the rest of the subject is treated in
    the same way. *)
Lemma replaceAll_first (s : string) (k : nat) :
  pat <> EmptyString ->
  JsString.indexOf s pat = Z.of_nat k ->
  JsString.replaceAll s pat template
  = (JsString.take k s ++ template
       ++ JsString.replaceAll (JsString.drop (k + String.length pat) s) pat template)%string.
Proof.
  intros Hpat. unfold JsString.indexOf. revert k.
  induction s as [|c s IH]; intros k H.
  - cbn [JsString.indexOfFrom] in H.
    destruct (String.prefix pat EmptyString) eqn:E; [|lia].
    destruct pat; [congruence | discriminate].
  - cbn [JsString.indexOfFrom] in H. rewrite Z.add_0_l in H.
    unfold JsString.replaceAll at 1. cbn [JsString.replaceAllFrom].
    destruct (String.prefix pat (String c s)) eqn:E.
    + assert (k = 0%nat) by lia. subst k.
      rewrite expandReplacement_dollarFree by exact template_dollarFree.
      cbn [JsString.take append Nat.add]. f_equal.
      rewrite replaceAllFrom_skip.
      destruct pat as [|a p]; [congruence|].
      cbn [String.length JsString.drop].
      now replace (S (String.length p) - 1)%nat with (String.length p) by lia.
    + rewrite indexOfFrom_shift in H.
      destruct (Z.ltb_spec (JsString.indexOfFrom pat s 0) 0) as [Hlt | Hge]; [lia|].
      destruct k as [|j]; [lia|].
      cbn [JsString.take JsString.drop append Nat.add]. f_equal.
      rewrite replaceAllFrom_skip. cbn [JsString.drop].
      apply IH. lia.
Qed.

End ReplaceAll.

Lemma dollarFree_stroke (col : string) :
  dollarFree ("stroke:" ++ col) = dollarFree col.
Proof. reflexivity. Qed.

(** The buffer handed to [sharp] is the SVG itself when no colour is given,
    when the colour is empty or the default black, and, whatever the colour
    is, when the SVG does not hold the exact text [stroke:#000000]: such a
    glyph is silently left in its own colours. *)
Theorem generatePng_keeps_buffer
    (svgBuffer outputPath : string) (width height : Z) (fit : string)
    (bgnd : background) (color guide : option string) :
  truthyStr color = false
  \/ color = Some "#000000"%string
  \/ JsString.includes svgBuffer blackStroke = false ->
  png_buffer (generatePng svgBuffer outputPath width height fit bgnd color guide)
  = svgBuffer.
Proof.
  intros H. unfold generatePng. cbn [png_buffer].
  destruct color as [col|]; [|reflexivity].
  destruct H as [H | [H | H]].
  - now rewrite H.
  - injection H as ->. reflexivity.
  - destruct (truthyStr (Some col) && differsFrom (Some col) "#000000"); [|reflexivity].
    apply replaceAllFrom_absent. unfold JsString.includes in H.
    apply Z.leb_gt in H. destruct (indexOf_range blackStroke svgBuffer); lia.
Qed.

Lemma generatePng_keeps_buffer_witness :
  png_buffer (generatePng "<path style='stroke:#000'/>" "out.png" 1024 1024
                "contain" Transparent (Some "red"%string) None)
  = "<path style='stroke:#000'/>"%string.
Proof.
  apply generatePng_keeps_buffer. right; right. reflexivity.
Defined.

(** With a colour that holds no dollar sign and is neither empty nor the
    default black, the first [stroke:#000000] of the SVG becomes
    [stroke:<colour>], what precedes it is kept, and what follows it is
    recoloured in the same way. *)
Theorem generatePng_recolours
    (svgBuffer outputPath : string) (width height : Z) (fit : string)
    (bgnd : background) (col : string) (guide : option string) (k : nat) :
  dollarFree col = true ->
  col <> EmptyString ->
  col <> "#000000"%string ->
  JsString.indexOf svgBuffer blackStroke = Z.of_nat k ->
  png_buffer (generatePng svgBuffer outputPath width height fit bgnd (Some col) guide)
  = (JsString.take k svgBuffer ++ "stroke:" ++ col
       ++ png_buffer (generatePng (JsString.drop (k + 14) svgBuffer) outputPath
                        width height fit bgnd (Some col) guide))%string.
Proof.
  intros Hfree Hne Hblack Hk. unfold generatePng. cbn [png_buffer truthyStr differsFrom].
  assert (E1 : String.eqb col EmptyString = false) by now apply String.eqb_neq.
  assert (E2 : String.eqb col "#000000" = false) by now apply String.eqb_neq.
  rewrite E1, E2. cbn [negb andb].
  rewrite (replaceAll_first blackStroke ("stroke:" ++ col)
             (eq_trans (dollarFree_stroke col) Hfree) svgBuffer k
             ltac:(discriminate) Hk).
  now rewrite append_assoc.
Qed.

Lemma generatePng_recolours_witness :
  png_buffer (generatePng "<g style='stroke:#000000'><path style='stroke:#000000'/></g>"
                "out.png" 1024 1024 "contain" Transparent (Some "#ff0000"%string) None)
  = "<g style='stroke:#ff0000'><path style='stroke:#ff0000'/></g>"%string.
Proof.
  rewrite (generatePng_recolours
             "<g style='stroke:#000000'><path style='stroke:#000000'/></g>"
             "out.png" 1024 1024 "contain" Transparent
             "#ff0000" None 10 eq_refl ltac:(discriminate) ltac:(discriminate) eq_refl).
  reflexivity.
Defined.

(** A dollar sign in the colour is read as a replacement pattern: [$&]
    brings the matched text back. *)
Example generatePng_dollar_colour :
  png_buffer (generatePng "stroke:#000000" "out.png" 1024 1024 "contain"
                Transparent (Some "$&"%string) None)
  = "stroke:stroke:#000000"%string.
Proof. reflexivity. Qed.

(** ** [parseArgs] *)

Lemma parseLoop_step (arg : string) (rest : list string) (c : config) :
  parseLoop (arg :: rest) c
  = match parseStep arg (nextArg rest) c with
    | Skip c' => parseLoop rest c'
    | Consume c' => parseLoop (afterNext rest) c'
    | Stop r => r
    end.
Proof.
  cbn [parseLoop]. unfold parseStep.
  repeat (match goal with
          | |- context [if ?b then _ else _] => destruct b
          end;
          try reflexivity;
          try (destruct (nextArg rest); reflexivity);
          try (destruct (requiredValue (nextArg rest)) as [[|ch v]|]; reflexivity)).
Qed.

(** Induction along the turns of the loop. *)
Lemma parseLoop_turns (P : list string -> config -> loopResult -> Prop) :
  (forall c, P [] c (Completed c)) ->
  (forall arg rest c r,
      parseStep arg (nextArg rest) c = Stop r -> P (arg :: rest) c r) ->
  (forall arg rest c c',
      parseStep arg (nextArg rest) c = Skip c' ->
      P rest c' (parseLoop rest c') -> P (arg :: rest) c (parseLoop rest c')) ->
  (forall arg rest c c',
      parseStep arg (nextArg rest) c = Consume c' ->
      P (afterNext rest) c' (parseLoop (afterNext rest) c') ->
      P (arg :: rest) c (parseLoop (afterNext rest) c')) ->
  forall args c, P args c (parseLoop args c).
Proof.
  intros Hnil Hstop Hskip Hcons args.
  assert (G : forall n args, (List.length args <= n)%nat ->
                             forall c, P args c (parseLoop args c)).
  { induction n as [|n IH]; intros [|arg rest] Hlen c;
      try apply Hnil; cbn [List.length] in Hlen; [lia|].
    rewrite parseLoop_step.
    destruct (parseStep arg (nextArg rest) c) as [c' | c' | r] eqn:E.
    - apply (Hskip _ _ _ _ E). apply IH. lia.
    - apply (Hcons _ _ _ _ E). apply IH. destruct rest; cbn in *; lia.
    - now apply Hstop. }
  intros c. now apply (G (List.length args)).
Qed.

Lemma requiredValue_some (val : option string) (v : string) :
  requiredValue val = Some v ->
  val = Some v /\ v <> EmptyString /\ JsString.startsWith v "-" = false.
Proof.
  unfold requiredValue. destruct val as [w|]; [|discriminate].
  destruct (String.eqb_spec w EmptyString) as [-> | Hne]; [discriminate|].
  destruct (JsString.startsWith w "-") eqn:E; [discriminate|].
  cbn [orb]. intros H. injection H as <-. auto.
Qed.

Lemma parseStep_cases (arg : string) (val : option string) (c : config) :
  parseStep arg val c = Skip c
  \/ parseStep arg val c = Stop (Returned (setHelp c true))
  \/ (exists f, parseStep arg val c = Consume (setFile c f))
  \/ (exists c', parseStep arg val c = Consume c' /\ mode c' = ModeCustom)
  \/ (parseStep arg val c = Stop Threw
      /\ val = None /\ (arg = "--format" \/ arg = "--timing")%string)
  \/ (exists m,
         parseStep arg val c = Stop (Exited m)
         /\ requiredValue val = None
         /\ ((In arg ["--width"; "--height"; "--duration"; "--fps"]%string
              /\ m = ("Error: " ++ arg ++ " requires a value")%string)
             \/ ((arg = "--kanji" \/ arg = "-k")%string
                 /\ m = "Error: --kanji requires a character"%string))).
Proof.
  unfold parseStep.
  repeat match goal with
         | |- context [String.eqb arg ?s] =>
             destruct (String.eqb_spec arg s); [subst arg; cbn [orb] | cbn [orb]]
         end;
    try (left; reflexivity);
    try (right; left; reflexivity);
    try (right; right; left; eexists; reflexivity);
    try (right; right; right; left; eexists; split; reflexivity);
    try solve [destruct val as [v|];
               [ right; right; right; left; eexists; split; reflexivity
               | right; right; right; right; left; auto ]];
    try (destruct (requiredValue val) as [[|ch v]|] eqn:E;
         [ apply requiredValue_some in E; destruct E as (_ & E & _); congruence
         | first [ right; right; left; eexists; reflexivity
                 | right; right; right; left; eexists; split; reflexivity ]
         | right; right; right; right; right; eexists;
           split; [reflexivity|]; split; [reflexivity|];
           first [ left; split; [cbn; auto | reflexivity]
                 | right; split; [auto | reflexivity] ] ]).
Qed.

Ltac step_cases E arg val c :=
  destruct (parseStep_cases arg val c)
    as [H | [H | [(?f & H) | [(?c0 & H & ?Hmode) | [(H & ?Hval & ?Harg)
        | (?m & H & ?Hval & ?Hmsg)]]]]];
  rewrite H in E; try discriminate; injection E as E; try subst.

(** The loop keeps a default-mode configuration equal to the initial one,
    its file apart. *)
Lemma parseLoop_default (args : list string) (c : config) :
  (mode c = ModeDefault -> c = setFile initialConfig (file c)) ->
  match parseLoop args c with
  | Completed c' => mode c' = ModeDefault -> c' = setFile initialConfig (file c')
  | Returned c' =>
      mode c' = ModeDefault -> c' = setHelp (setFile initialConfig (file c')) true
  | _ => True
  end.
Proof.
  apply (parseLoop_turns
           (fun args c r =>
              (mode c = ModeDefault -> c = setFile initialConfig (file c)) ->
              match r with
              | Completed c' =>
                  mode c' = ModeDefault -> c' = setFile initialConfig (file c')
              | Returned c' =>
                  mode c' = ModeDefault ->
                  c' = setHelp (setFile initialConfig (file c')) true
              | _ => True
              end)); clear args c.
  - intros c Hc. exact Hc.
  - intros arg rest c r E Hc. step_cases E arg (nextArg rest) c; try exact I.
    intros Hm. cbn in Hm. rewrite (Hc Hm). reflexivity.
  - intros arg rest c c' E IH Hc. step_cases E arg (nextArg rest) c. now apply IH.
  - intros arg rest c c' E IH Hc. step_cases E arg (nextArg rest) c; apply IH.
    + intros Hm. cbn in Hm. rewrite (Hc Hm). reflexivity.
    + intros Hm. congruence.
Qed.

(** A run stays in default mode only when no option of the custom mode was
    read; every setting then has its initial value: the default branch of
    [processFile], which does not look at the configuration, ignores nothing
    the command line has set. *)
Theorem parseArgs_default_mode
    (defaultOutDir : string) (args : list string) (c : config) :
  parseArgs defaultOutDir args = Config c ->
  mode c = ModeDefault ->
  c = setHelp (setFile initialConfig (file c)) (help c).
Proof.
  unfold parseArgs. intros H Hm.
  pose proof (parseLoop_default args initialConfig (fun _ => eq_refl)) as Hloop.
  destruct (parseLoop args initialConfig) as [c0 | c0 | m | ]; try discriminate.
  - injection H as H.
    assert (Hm0 : mode c0 = ModeDefault).
    { subst c. revert Hm.
      repeat match goal with
             | |- context [if ?b then _ else _] => destruct b
             | |- context [match mode ?x with _ => _ end] => destruct (mode x) eqn:?
             end; cbn; congruence. }
    specialize (Hloop Hm0). rewrite Hloop in H. cbn in H. subst c. reflexivity.
  - injection H as <-. pose proof (Hloop Hm) as Hc.
    assert (Hh : help c0 = true) by (rewrite Hc; reflexivity).
    rewrite Hh. exact Hc.
Qed.

Lemma parseArgs_default_mode_witness :
  parseArgs "kanji_custom" ["--file"; "04e00"; "verbose"]%string
  = Config (setFile initialConfig (Some "04e00"%string))
  /\ setFile initialConfig (Some "04e00"%string)
     = setHelp (setFile initialConfig
                  (file (setFile initialConfig (Some "04e00"%string))))
         (help (setFile initialConfig (Some "04e00"%string))).
Proof.
  split; [reflexivity|].
  exact (parseArgs_default_mode "kanji_custom"
           ["--file"; "04e00"; "verbose"]%string
           (setFile initialConfig (Some "04e00"%string)) eq_refl eq_refl).
Defined.

(** After [parseArgs] the width is set exactly when the height is; and
    unless the loop has read both a width and a height that count (neither 0
    nor [NaN]), they are the same size, so that the output is square. *)
Theorem parseArgs_sizes
    (defaultOutDir : string) (args : list string) (c0 : config) :
  parseLoop args initialConfig = Completed c0 ->
  exists c,
    parseArgs defaultOutDir args = Config c
    /\ truthyNum (width c) = truthyNum (height c)
    /\ (truthyNum (width c0) && truthyNum (height c0) = false ->
        forall dflt, numOrDefault (width c) dflt = numOrDefault (height c) dflt).
Proof.
  intros H. unfold parseArgs. rewrite H. eexists. split; [reflexivity|].
  cbv zeta.
  destruct (truthyNum (width c0)) eqn:Ew; destruct (truthyNum (height c0)) eqn:Eh;
    cbn [andb negb width height mode outDir setHeight setWidth];
    rewrite ?Ew, ?Eh;
    cbn [andb negb width height mode outDir setHeight setWidth];
    destruct (mode c0); try destruct (negb (truthyStr (outDir c0)));
    cbn [width height setHeight setWidth setOutDir]; rewrite ?Ew, ?Eh;
    (split; [reflexivity|]); intros Hb dflt; try discriminate; try reflexivity.
  all: unfold numOrDefault;
    destruct (width c0) as [[|w]|]; destruct (height c0) as [[|h]|];
    cbn [truthyNum] in Ew, Eh; try discriminate; try reflexivity;
    try apply negb_false_iff in Ew; try apply negb_false_iff in Eh;
    try rewrite Ew; try rewrite Eh; reflexivity.
Qed.

Lemma parseArgs_sizes_witness :
  exists c,
    parseArgs "kanji_custom" ["--format"; "gif"; "--height"; "300"]%string = Config c
    /\ numOrDefault (width c) 200 = numOrDefault (height c) 200.
Proof.
  destruct (parseArgs_sizes "kanji_custom"
              ["--format"; "gif"; "--height"; "300"]%string _ eq_refl)
    as (c & Hc & _ & Hsq).
  exists c. split; [exact Hc|]. apply Hsq. reflexivity.
Defined.

(** In custom mode the output directory is always set after [parseArgs]
    (the early return of [--help] apart): a missing or empty [--out] gives
    way to the default directory. *)
Theorem parseArgs_custom_outDir
    (defaultOutDir : string) (args : list string) (c : config) :
  defaultOutDir <> EmptyString ->
  parseArgs defaultOutDir args = Config c ->
  help c = false ->
  mode c = ModeCustom ->
  truthyStr (outDir c) = true.
Proof.
  intros Hd H Hh Hm. unfold parseArgs in H.
  pose proof (parseLoop_turns
                (fun _ _ r => match r with Returned c' => help c' = true | _ => True end))
    as Hret.
  assert (Hr : match parseLoop args initialConfig with
               | Returned c' => help c' = true
               | _ => True
               end).
  { apply Hret; clear; auto.
    - intros arg rest c r E. step_cases E arg (nextArg rest) c; auto. }
  destruct (parseLoop args initialConfig) as [c0 | c0 | m | ]; try discriminate.
  - injection H as H. subst c. revert Hm.
    assert (Hdflt : truthyStr (Some defaultOutDir) = true).
    { cbn. now destruct (String.eqb_spec defaultOutDir EmptyString). }
    repeat match goal with
           | |- context [if ?b then _ else _] => destruct b eqn:?
           | |- context [match mode ?x with _ => _ end] => destruct (mode x) eqn:?
           end; cbn [mode outDir setOutDir setWidth setHeight] in *;
      intros; try congruence;
      match goal with
      | E : negb (truthyStr ?o) = false |- _ => now apply negb_false_iff in E
      | _ => idtac
      end.
  - injection H as <-. congruence.
Qed.

Lemma parseArgs_custom_outDir_witness :
  exists c,
    parseArgs "kanji_custom" ["--out"; EmptyString; "--format"; "png"]%string = Config c
    /\ outDir c = Some "kanji_custom"%string
    /\ truthyStr (outDir c) = true.
Proof.
  eexists. split; [reflexivity|]. split; [reflexivity|].
  refine (parseArgs_custom_outDir "kanji_custom"
            ["--out"; EmptyString; "--format"; "png"]%string _ _ eq_refl eq_refl eq_refl).
  discriminate.
Defined.

Lemma afterNext_cons (rest : list string) (v : string) :
  nextArg rest = Some v -> rest = v :: afterNext rest.
Proof. destruct rest; cbn; [discriminate | congruence]. Qed.

Lemma afterNext_app (rest pre tail : list string) (x : string) :
  afterNext rest = pre ++ x :: tail ->
  exists v, rest = (v :: pre) ++ x :: tail.
Proof.
  destruct rest as [|v rest]; cbn.
  - intros H. destruct pre; discriminate.
  - intros ->. now exists v.
Qed.

(** [parseArgs] only exits on an option that wants a value and finds none:
    the message it prints is that of an option of the command line,
    [--width], [--height], [--duration], [--fps] or [--kanji] ([-k]), whose
    next argument is missing, empty or starts with [-]. *)
Theorem parseArgs_exit_reason
    (defaultOutDir : string) (args : list string) (m : string) :
  parseArgs defaultOutDir args = Exit1 m ->
  exists pre arg rest,
    args = pre ++ arg :: rest
    /\ requiredValue (nextArg rest) = None
    /\ ((In arg ["--width"; "--height"; "--duration"; "--fps"]%string
         /\ m = ("Error: " ++ arg ++ " requires a value")%string)
        \/ ((arg = "--kanji" \/ arg = "-k")%string
            /\ m = "Error: --kanji requires a character"%string)).
Proof.
  unfold parseArgs. intros H.
  assert (G : forall args c,
             parseLoop args c = Exited m ->
             exists pre arg rest,
               args = pre ++ arg :: rest
               /\ requiredValue (nextArg rest) = None
               /\ ((In arg ["--width"; "--height"; "--duration"; "--fps"]%string
                    /\ m = ("Error: " ++ arg ++ " requires a value")%string)
                   \/ ((arg = "--kanji" \/ arg = "-k")%string
                       /\ m = "Error: --kanji requires a character"%string))).
  { clear. intros args c.
    apply (parseLoop_turns
             (fun args c r =>
                r = Exited m ->
                exists pre arg rest,
                  args = pre ++ arg :: rest
                  /\ requiredValue (nextArg rest) = None
                  /\ ((In arg ["--width"; "--height"; "--duration"; "--fps"]%string
                       /\ m = ("Error: " ++ arg ++ " requires a value")%string)
                      \/ ((arg = "--kanji" \/ arg = "-k")%string
                          /\ m = "Error: --kanji requires a character"%string))));
      clear args c.
    - discriminate.
    - intros arg rest c r E Hr. subst r.
      destruct (parseStep_cases arg (nextArg rest) c)
        as [H | [H | [(f & H) | [(c0 & H & _) | [(H & _) | (m' & H & Hval & Hmsg)]]]]];
        rewrite H in E; try discriminate.
      injection E as <-. exists [], arg, rest. auto.
    - intros arg rest c c' E IH Hr.
      destruct (IH Hr) as (pre & a & tl & -> & Hrest).
      exists (arg :: pre), a, tl. auto.
    - intros arg rest c c' E IH Hr.
      destruct (IH Hr) as (pre & a & tl & Heq & Hrest).
      destruct (afterNext_app rest pre tl a Heq) as (v & ->).
      exists (arg :: v :: pre), a, tl. auto. }
  destruct (parseLoop args initialConfig) as [c0 | c0 | m0 | ] eqn:E; try discriminate.
  injection H as ->. now apply (G args initialConfig).
Qed.

Lemma parseArgs_exit_reason_witness :
  exists pre arg rest,
    ["--format"; "gif"; "--width"]%string = pre ++ arg :: rest
    /\ requiredValue (nextArg rest) = None
    /\ ((In arg ["--width"; "--height"; "--duration"; "--fps"]%string
         /\ "Error: --width requires a value"%string
            = ("Error: " ++ arg ++ " requires a value")%string)
        \/ ((arg = "--kanji" \/ arg = "-k")%string
            /\ "Error: --width requires a value"%string
               = "Error: --kanji requires a character"%string)).
Proof.
  exact (parseArgs_exit_reason "kanji_custom" ["--format"; "gif"; "--width"]%string
           "Error: --width requires a value" eq_refl).
Defined.

(** [parseArgs] only throws when the last argument is [--format] or
    [--timing], which then has no value to put in lower case. *)
Theorem parseArgs_throw_reason (defaultOutDir : string) (args : list string) :
  parseArgs defaultOutDir args = TypeError ->
  exists pre arg,
    args = pre ++ [arg] /\ (arg = "--format" \/ arg = "--timing")%string.
Proof.
  unfold parseArgs. intros H.
  assert (G : forall args c,
             parseLoop args c = Threw ->
             exists pre arg,
               args = pre ++ [arg] /\ (arg = "--format" \/ arg = "--timing")%string).
  { clear. intros args c.
    apply (parseLoop_turns
             (fun args c r =>
                r = Threw ->
                exists pre arg,
                  args = pre ++ [arg]
                  /\ (arg = "--format" \/ arg = "--timing")%string));
      clear args c.
    - discriminate.
    - intros arg rest c r E Hr. subst r.
      destruct (parseStep_cases arg (nextArg rest) c)
        as [H | [H | [(f & H) | [(c0 & H & _) | [(H & Hval & Harg) | (m' & H & _)]]]]];
        rewrite H in E; try discriminate.
      exists [], arg. destruct rest; [auto | discriminate].
    - intros arg rest c c' E IH Hr.
      destruct (IH Hr) as (pre & a & -> & Ha).
      exists (arg :: pre), a. auto.
    - intros arg rest c c' E IH Hr.
      destruct (IH Hr) as (pre & a & Heq & Ha).
      destruct (afterNext_app rest pre [] a Heq) as (v & ->).
      exists (arg :: v :: pre), a. auto. }
  destruct (parseLoop args initialConfig) as [c0 | c0 | m0 | ] eqn:E; try discriminate.
  now apply (G args initialConfig).
Qed.

Lemma parseArgs_throw_reason_witness :
  exists pre arg,
    ["--width"; "300"; "--timing"]%string = pre ++ [arg]
    /\ (arg = "--format" \/ arg = "--timing")%string.
Proof.
  exact (parseArgs_throw_reason "kanji_custom" ["--width"; "300"; "--timing"]%string
           eq_refl).
Defined.

(** ** [parseInt] behind the guard of [parseArgs] *)







(** ** [main]: the files and the batches *)

Lemma slice_batch (files : list string) (i : nat) :
  slice files i (i + batchSize) = firstn batchSize (skipn i files).
Proof. unfold slice. f_equal. lia. Qed.

(** The batch loop with enough fuel: it ends, and its batches are the files
    from index [i] on, cut every 20. *)
Lemma batchLoop_spec (files : list string) :
  forall fuel i,
    (List.length files - i <= fuel * batchSize)%nat ->
    exists bs,
      batchLoop fuel i files = Some bs
      /\ List.concat (map fst bs) = skipn i files
      /\ Forall (fun b => (1 <= List.length (fst b) <= batchSize)%nat) bs
      /\ (List.length bs * batchSize < List.length files - i + batchSize)%nat
      /\ Forall (fun b =>
                   if (20 <? List.length files)%nat
                   then exists done, snd b = Some (done, List.length files)
                                     /\ (done <= List.length files)%nat
                   else snd b = None) bs.
Proof.
  unfold batchSize.
  induction fuel as [|fuel IH]; intros i Hfuel.
  - exists []. cbn [batchLoop].
    destruct (Nat.ltb_spec i (List.length files)) as [Hlt | Hge]; [lia|].
    repeat split; auto; cbn; try lia.
    symmetry. apply skipn_all2. lia.
  - cbn [batchLoop].
    destruct (Nat.ltb_spec i (List.length files)) as [Hlt | Hge].
    + destruct (IH (i + batchSize)%nat) as (bs & -> & Hcat & Hsz & Hnum & Hlog);
        [unfold batchSize; lia|].
      eexists. split; [reflexivity|]. unfold batchSize in *.
      cbn [map fst snd List.concat List.length]. rewrite slice_batch. unfold batchSize.
      split; [|split; [|split]].
      * rewrite Hcat. replace (i + 20)%nat with (20 + i)%nat by lia.
        rewrite <- skipn_skipn. apply firstn_skipn.
      * constructor; [|exact Hsz]. cbn [fst].
        rewrite length_firstn, length_skipn. lia.
      * lia.
      * constructor; [|exact Hlog]. cbn [snd].
        destruct (20 <? List.length files)%nat; [|reflexivity].
        eexists. split; [reflexivity | lia].
    + exists []. repeat split; auto; cbn; try lia.
      symmetry. apply skipn_all2. lia.
Qed.

(** The batch loop of [main] always comes to its end, and its batches are
    the files, each one once and in their order, cut into batches of 1 to 20
    files, as few as 20 per batch allow; the progress is logged for more than
    20 files only and never counts more files than there are. *)
Theorem main_batches (files : list string) :
  exists bs,
    batchLoop (List.length files) 0 files = Some bs
    /\ List.concat (map fst bs) = files
    /\ Forall (fun b => (1 <= List.length (fst b) <= 20)%nat) bs
    /\ (List.length bs * 20 < List.length files + 20)%nat
    /\ Forall (fun b =>
                 if (20 <? List.length files)%nat
                 then exists done, snd b = Some (done, List.length files)
                                   /\ (done <= List.length files)%nat
                 else snd b = None) bs.
Proof.
  destruct (batchLoop_spec files (List.length files) 0)
    as (bs & H & Hcat & Hsz & Hnum & Hlog); [unfold batchSize; lia|].
  exists bs. rewrite Nat.sub_0_r in Hnum. unfold batchSize in *. auto.
Qed.

(** A file a run leaves is at the path of one of its calls. *)
Lemma filesLeft_callsMade (throws : output -> bool) (outs : list output)
    (p : string) :
  In p (filesLeft (callsMade throws outs)) -> In p (map outputPathOf outs).
Proof.
  induction outs as [|o rest IH]; [intros []|].
  cbn [callsMade map]. destruct (throws o).
  - unfold filesLeft. cbn [flat_map]. rewrite app_nil_r.
    destruct o as [job | job | path [enc|]]; cbn; tauto.
  - unfold filesLeft. cbn [flat_map]. intros H. apply in_app_or in H.
    destruct H as [H | H]; [|right; now apply IH].
    destruct o as [job | job | path [enc|]]; cbn in H |- *; tauto.
Qed.

Section ProgramFacts.

Variable join : string -> string -> string.
Variables inputDir outputDirSquare outputDirOg outputDirGif cwd : string.
Variable existsSync : string -> bool.
Variable readdirSync : list string.
Variable readFileSync : string -> option string.
Variable cheerioPaths : string -> list element.
Variable getTotalLength : string -> Q.

Let run := main join inputDir outputDirSquare outputDirOg outputDirGif cwd
             existsSync readdirSync readFileSync cheerioPaths getTotalLength.
Let process := processFile join inputDir outputDirSquare outputDirOg outputDirGif
                 readFileSync cheerioPaths getTotalLength.
Let select := selectFiles join inputDir existsSync readdirSync.

Lemma concat_map_batches (c : config)
    (bs : list (list string * option (nat * nat))) :
  List.concat (map fst (map (fun b => (map (fun f => (f, process f c)) (fst b), snd b)) bs))
  = map (fun f => (f, process f c)) (List.concat (map fst bs)).
Proof.
  induction bs as [|b bs IH]; [reflexivity|].
  cbn [map fst List.concat]. now rewrite map_app, IH.
Qed.

(** A run that gets past the arguments and finds its input processes every
    selected file exactly once, in the order of the selection: the batches
    of [main], put end to end, are the calls of [processFile] on the files. *)
Theorem main_processes_each_file_once
    (args : list string) (c : config) (files : list string) :
  parseArgs (join cwd "kanji_custom") args = Config c ->
  help c = false ->
  existsSync inputDir = true ->
  select c = Some files ->
  exists batches,
    run args = AllDone batches
    /\ List.concat (map fst batches) = map (fun f => (f, process f c)) files.
Proof.
  intros Hc Hh He Hs. subst run select. unfold main.
  rewrite Hc, Hh, He. cbn [negb]. rewrite Hs.
  destruct (main_batches files) as (bs & Hbs & Hcat & _). rewrite Hbs.
  eexists. split; [reflexivity|].
  subst files. apply concat_map_batches.
Qed.


(** The paths of the calls of a run in which no call throws, for a file
    [stem.svg] whose stem holds no [.svg]. *)
Lemma processFile_paths
    (stem : string) (c : config) (outs : list output) :
  JsString.includes stem ".svg" = false ->
  process (stem ++ ".svg")%string c = Some outs ->
  map outputPathOf outs
  = match mode c with
    | ModeDefault =>
        [ join outputDirSquare (stem ++ ".png");
          join outputDirOg (stem ++ ".png");
          join outputDirGif (stem ++ ".gif") ]%string
    | ModeCustom =>
        match outDir c, format c with
        | Some dir, Some fmt =>
            if String.eqb fmt "png" then [join dir (stem ++ ".png")%string]
            else if String.eqb fmt "gif" then [join dir (stem ++ ".gif")%string]
            else []
        | _, _ => []
        end
    end.
Proof.
  intros Hstem. subst process. unfold processFile.
  rewrite !(replace_svg_extension stem _ Hstem).
  destruct (readFileSync _) as [content|]; [|discriminate].
  destruct (mode c).
  - intros H. injection H as <-. reflexivity.
  - destruct (outDir c) as [dir|]; [|discriminate].
    destruct (format c) as [fmt|].
    + destruct (String.eqb fmt "png").
      * intros H. injection H as <-. cbn. now rewrite append_nil_r.
      * destruct (String.eqb fmt "gif"); intros H; injection H as <-.
        -- cbn. now rewrite append_nil_r.
        -- reflexivity.
    + intros H. injection H as <-. reflexivity.
Qed.

(** The names of the files.  For a file [stem.svg] whose stem holds no
    [.svg], whatever calls throw, a file that [processFile] leaves is one of
    [stem.png] and [stem.gif]: in default mode the square PNG, the card or
    the animation, each in its directory; in custom mode the one file of the
    format asked for, in the output directory, and none for any other
    format. *)
Theorem processFile_files_bounded
    (stem : string) (c : config) (outs : list output)
    (throws : output -> bool) (p : string) :
  JsString.includes stem ".svg" = false ->
  process (stem ++ ".svg")%string c = Some outs ->
  In p (filesLeft (callsMade throws outs)) ->
  In p match mode c with
       | ModeDefault =>
           [ join outputDirSquare (stem ++ ".png");
             join outputDirOg (stem ++ ".png");
             join outputDirGif (stem ++ ".gif") ]%string
       | ModeCustom =>
           match outDir c, format c with
           | Some dir, Some fmt =>
               if String.eqb fmt "png" then [join dir (stem ++ ".png")%string]
               else if String.eqb fmt "gif" then [join dir (stem ++ ".gif")%string]
               else []
           | _, _ => []
           end
       end.
Proof.
  intros Hstem Hp Hin. apply filesLeft_callsMade in Hin.
  now rewrite (processFile_paths stem c outs Hstem Hp) in Hin.
Qed.

End ProgramFacts.

Lemma main_processes_each_file_once_witness :
  exists batches,
    sampleMain [] = AllDone batches
    /\ List.concat (map fst batches)
       = [("04e00.svg"%string, sampleProcessFile "04e00.svg" initialConfig)].
Proof.
  exact (main_processes_each_file_once sampleJoin "kanji_svg" "kanji_png"
           "kanji_png_og" "kanji_gif" "." sampleExists sampleListing sampleReadFile
           sampleCheerio sampleLength [] initialConfig ["04e00.svg"%string]
           eq_refl eq_refl eq_refl eq_refl).
Defined.


(** The sample run, cut short by the card: the square PNG and the card are
    the files it can leave. *)
Lemma processFile_files_bounded_witness :
  exists outs,
    sampleProcessFile "04e00.svg" initialConfig = Some outs
    /\ filesLeft (callsMade cardThrows outs)
       = [ "kanji_png/04e00.png"; "kanji_png_og/04e00.png" ]%string
    /\ In "kanji_png_og/04e00.png"%string
         [ "kanji_png/04e00.png"; "kanji_png_og/04e00.png";
           "kanji_gif/04e00.gif" ]%string.
Proof.
  eexists. split; [reflexivity|]. split; [vm_compute; reflexivity|].
  refine (processFile_files_bounded sampleJoin "kanji_svg" "kanji_png"
            "kanji_png_og" "kanji_gif" sampleReadFile sampleCheerio sampleLength
            "04e00"%string initialConfig _ cardThrows
            "kanji_png_og/04e00.png"%string eq_refl eq_refl _).
  vm_compute. auto.
Defined.

(** ** More on the frames of [generateGif] *)

Local Open Scope Q_scope.

(** Every frame is asked of [sharp] at the size given to the encoder, with
    the same background, the same guide layer and the same stroke colour:
    the frames of one animation differ in their active layer only. *)
Theorem frames_uniform
    (getTotalLength : string -> Q) (svgContent : list element)
    (outputPath : string) (width height : Z) (opts : options)
    (enc : encoder) (n : nat) (fr : rendered) :
  generateGif getTotalLength svgContent outputPath width height opts = Some enc ->
  nth_error (e_frames enc) n = Some fr ->
  (r_width fr = e_width enc /\ r_height fr = e_height enc)
  /\ (e_width enc = width /\ e_height enc = height)
  /\ flatten fr
     = (if differsFrom (o_bg opts) "transparent" then Some (o_bg opts) else None)
  /\ guideLayer (scene fr)
     = (if differsFrom (o_guide opts) "none"
        then Some (orDefault (o_guide opts) "#dddddd",
                   map d (extractPaths svgContent))
        else None)
  /\ strokeColor (scene fr) = orDefault (o_color opts) "#000000".
Proof.
  intros Hg Hn.
  destruct (generateGif_frame _ _ _ _ _ _ _ _ _ Hg Hn) as (t & e & _ & _ & _ & ->).
  unfold generateGif in Hg.
  destruct (List.length (extractPaths svgContent) =? 0)%nat; [discriminate|].
  injection Hg as <-. cbn. auto.
Qed.

Lemma frames_uniform_witness :
  r_width (sampleFrame 10) = 200%Z
  /\ flatten (sampleFrame 10) = Some (Some "white"%string)
  /\ guideLayer (scene (sampleFrame 10))
     = Some ("#dddddd"%string, ["M0,0h10"; "M10,0v20"; "M10,20h5"]%string).
Proof.
  destruct (frames_uniform sampleLength sampleSvg "out.gif" 200 200 defaultOptions
              sampleEncoder 10 (sampleFrame 10) sampleEncoder_run
              (sampleEncoder_frame 10 ltac:(lia)))
    as ((Hw & _) & _ & Hf & Hgd & _).
  split; [exact Hw|]. split; [exact Hf | exact Hgd].
Defined.

(** ** The ink of a frame *)

Lemma visibleLength_walk (ps : list pathProp) :
  forall acc g,
    acc <= g -> g <= sumFrom acc ps ->
    acc + visibleLength ps (activeStrokes ps acc g) == g.
Proof.
  induction ps as [|p ps IH]; intros acc g Hlo Hhi.
  - unfold sumFrom in Hhi. cbn [fold_left] in Hhi.
    cbn [activeStrokes visibleLength]. lra.
  - rewrite sumFrom_cons in Hhi. cbn [activeStrokes].
    destruct (Qle_bool (acc + p_length p) g) eqn:E.
    + apply Qle_bool_iff in E. cbn [visibleLength].
      pose proof (IH (acc + p_length p) g E Hhi) as H. lra.
    + apply Qle_bool_false in E. destruct (Qltb acc g) eqn:Ep.
      * cbn [visibleLength]. destruct ps; cbn [visibleLength]; lra.
      * apply Qltb_false in Ep. cbn [visibleLength]. lra.
Qed.

Lemma visibleLength_whole (ps : list pathProp) :
  forall acc, acc + visibleLength ps (map fullPathOf ps) == sumFrom acc ps.
Proof.
  induction ps as [|p ps IH]; intros acc.
  - unfold sumFrom. cbn [fold_left map visibleLength]. lra.
  - rewrite sumFrom_cons. cbn [map visibleLength fullPathOf].
    pose proof (IH (acc + p_length p)) as H. lra.
Qed.

Lemma currentTotalProgress_bounds (frame totalFrames : Z) (totalLength : Q) :
  0 <= totalLength -> (0 <= frame)%Z ->
  0 <= currentTotalProgress frame totalFrames totalLength
  /\ currentTotalProgress frame totalFrames totalLength <= totalLength.
Proof.
  intros HL Hf. split.
  - destruct (Z_lt_le_dec frame totalFrames) as [H | H].
    + rewrite currentTotalProgress_running by exact H.
      apply Qmult_le_0_compat; [|exact HL].
      apply Qle_shift_div_l; [apply inject_Z_pos; lia|].
      rewrite Qmult_0_l. rewrite Zle_Qle in Hf. exact Hf.
    + now rewrite currentTotalProgress_hold.
  - rewrite <- (currentTotalProgress_hold (Z.max frame totalFrames) totalFrames
                  totalLength) at 2 by lia.
    apply currentTotalProgress_mono; [exact HL | lia | lia].
Qed.

(** The first frame of an animation with at least one frame is blank when
    the first stroke has a length: nothing is drawn at progress 0. *)
Theorem first_frame_blank
    (opts : options) (paths : list path) (p : pathProp) (rest : list pathProp)
    (totalFrames : Z) (totalLength : Q) :
  (0 < totalFrames)%Z ->
  0 < p_length p ->
  activeLayer (buildFrameSvg opts paths (p :: rest) totalFrames totalLength 0) = [].
Proof.
  intros Ht Hp. cbn [activeLayer buildFrameSvg].
  rewrite currentTotalProgress_running by exact Ht.
  assert (Hg : inject_Z 0 / inject_Z totalFrames * totalLength == 0).
  { unfold Qdiv. change (inject_Z 0) with 0. ring. }
  cbn [activeStrokes].
  assert (E1 : Qle_bool (0 + p_length p)
                 (inject_Z 0 / inject_Z totalFrames * totalLength) = false).
  { apply Qle_bool_false. rewrite Hg. lra. }
  assert (E2 : Qltb 0 (inject_Z 0 / inject_Z totalFrames * totalLength) = false).
  { apply Qltb_false. rewrite Hg. apply Qle_refl. }
  now rewrite E1, E2.
Qed.

Lemma first_frame_blank_witness : activeLayer (scene (sampleFrame 0)) = [].
Proof.
  exact (first_frame_blank defaultOptions (extractPaths sampleSvg)
           (mkPathProp "M0,0h10" (Some "s1"%string) 10)
           [mkPathProp "M10,0v20" (Some "s2"%string) 20;
            mkPathProp "M10,20h5" (Some "s3"%string) 5]
           40 (totalLengthOf sampleStrokes) ltac:(lia) ltac:(reflexivity)).
Defined.

(** The glyph is not complete before frame [totalFrames]: when the total
    length is positive, every earlier frame shows less ink than the glyph
    has, and so does not draw every stroke whole. *)
Theorem glyph_incomplete_before_totalFrames
    (opts : options) (paths : list path) (pathProps : list pathProp)
    (totalFrames frame : Z) :
  lengthsNonNegative pathProps ->
  0 < totalLengthOf pathProps ->
  (0 <= frame)%Z -> (frame < totalFrames)%Z ->
  let totalLength := totalLengthOf pathProps in
  let active :=
    activeLayer (buildFrameSvg opts paths pathProps totalFrames totalLength frame) in
  visibleLength pathProps active < totalLength
  /\ active <> map fullPathOf pathProps.
Proof.
  intros Hnn HL Hf Hlt totalLength active.
  assert (Hink : visibleLength pathProps active
                 == currentTotalProgress frame totalFrames totalLength).
  { subst active. cbn [activeLayer buildFrameSvg].
    destruct (currentTotalProgress_bounds frame totalFrames totalLength
                (totalLengthOf_nonneg pathProps Hnn) Hf) as (Hlo & Hhi).
    pose proof (visibleLength_walk pathProps 0
                  (currentTotalProgress frame totalFrames totalLength) Hlo Hhi) as Hw.
    lra. }
  assert (Hless : visibleLength pathProps active < totalLength).
  { rewrite Hink, currentTotalProgress_running by exact Hlt.
    pose proof (ratio_lt_1 frame totalFrames Hlt ltac:(lia)) as Hr.
    setoid_replace totalLength with (1 * totalLength) at 2 by ring.
    apply Qmult_lt_compat_r; [exact HL | exact Hr]. }
  split; [exact Hless|]. intros Heq. rewrite Heq in Hless.
  pose proof (visibleLength_whole pathProps 0) as Hw.
  subst totalLength. rewrite totalLengthOf_sumFrom in Hless. lra.
Qed.

Lemma glyph_incomplete_before_totalFrames_witness :
  visibleLength sampleStrokes (activeLayer (scene (sampleFrame 39)))
  < totalLengthOf sampleStrokes.
Proof.
  exact (proj1 (glyph_incomplete_before_totalFrames defaultOptions
                  (extractPaths sampleSvg) sampleStrokes 40 39
                  sampleStrokes_nonneg ltac:(reflexivity) ltac:(lia) ltac:(lia))).
Defined.
